(** * MuZero self-play: the planning engine of [self_play.py]

    A shallow embedding of the Monte Carlo Tree Search, of the action
    selection and of the episode loop of [src/self_play.py], and of the
    level iterator of [src/safelife/safelife/file_finder.py].

    Conventions of the embedding.
    - Python floats (and the one-element tensors the code does arithmetic
      on) are real numbers: [R] with exact arithmetic, and rounding is
      outside the model.  The range of floats is modelled where the code
      can leave it on its own inputs: in [select_action], where a visit
      count is raised to [1 / temperature], and in [expand_float], where
      logits go through [math.exp].  The search is modelled on logits
      that keep [Node.expand] in range, where it is [expand].  The two
      infinities appear where the source writes them
      ([MinMaxStats.__init__], the temperature) and as results out of
      range.
    - Python ints that count things are [nat]; action identifiers are [Z].
    - A [dict] is an association list in insertion order.
    - [Node] objects live in a store ([heap]); a reference is an index.
      The search path is a list of references, as in the source.
    - Exceptions are values of [exn]; a computation that may raise returns
      a [result].  [OutOfFuel] is not a Python outcome: it marks a [while]
      loop cut off by the fuel of the model. *)

From stdpp Require Import base option list.
From Stdlib Require Import Reals Lra Lia ZArith.

#[local] Open Scope R_scope.

(** ** Exceptions and results *)

Inductive exn : Set :=
| IndexError
| TypeError
| ValueError
| ZeroDivisionError
| AttributeError
| UnboundLocalError
| OverflowError.

Inductive result (A : Type) : Type :=
| Ok (a : A)
| Raise (e : exn)
| OutOfFuel.

Arguments Ok {A} a.
Arguments Raise {A} e.
Arguments OutOfFuel {A}.

#[global] Instance result_ret : MRet result := fun A a => Ok a.

#[global] Instance result_bind : MBind result := fun A B f m =>
  match m with
  | Ok a => f a
  | Raise e => Raise e
  | OutOfFuel => OutOfFuel
  end.

(** ** Python dictionaries keyed by action

    Insertion order is kept; assigning to a key that is present replaces
    the value in place. *)

Abbreviation dict V := (list (Z * V)).

Fixpoint dict_set {V : Type} (k : Z) (v : V) (d : dict V) : dict V :=
  match d with
  | [] => [(k, v)]
  | (k', v') :: d' =>
      if Z.eq_dec k k' then (k', v) :: d' else (k', v') :: dict_set k v d'
  end.

Fixpoint dict_get {V : Type} (k : Z) (d : dict V) : option V :=
  match d with
  | [] => None
  | (k', v') :: d' => if Z.eq_dec k k' then Some v' else dict_get k d'
  end.

Definition keys {V : Type} (d : dict V) : list Z := map fst d.
Definition values {V : Type} (d : dict V) : list V := map snd d.

(** Python's built-in [sum] over floats: a left fold from [0]. *)
Definition py_sum (l : list R) : R := fold_left Rplus l 0.

(** ** MinMaxStats

    [maximum] starts at [-inf] and [minimum] at [+inf]; [update] is only
    ever given node values, which are finite, so a maximum is [-inf] or
    finite and a minimum is [+inf] or finite. *)

Inductive max_bound : Type := NegInf | MaxFin (r : R).
Inductive min_bound : Type := PosInf | MinFin (r : R).

Record MinMaxStats : Type := mkMinMaxStats {
  maximum : max_bound;
  minimum : min_bound
}.

(** [MinMaxStats.__init__] *)
Definition MinMaxStats_init : MinMaxStats :=
  {| maximum := NegInf; minimum := PosInf |}.

(** [max(self.maximum, value)]: Python's [max(a, b)] is [b] when [b > a],
    else [a]. *)
Definition py_max_bound (m : max_bound) (v : R) : max_bound :=
  match m with
  | NegInf => MaxFin v
  | MaxFin r => if Rgt_dec v r then MaxFin v else MaxFin r
  end.

(** [min(self.minimum, value)]: [b] when [b < a], else [a]. *)
Definition py_min_bound (m : min_bound) (v : R) : min_bound :=
  match m with
  | PosInf => MinFin v
  | MinFin r => if Rlt_dec v r then MinFin v else MinFin r
  end.

(** [MinMaxStats.update] *)
Definition update (self : MinMaxStats) (v : R) : MinMaxStats :=
  {| maximum := py_max_bound (maximum self) v;
     minimum := py_min_bound (minimum self) v |}.

(** [self.maximum > self.minimum] *)
Definition spread (self : MinMaxStats) : Prop :=
  match maximum self, minimum self with
  | MaxFin mx, MinFin mn => mx > mn
  | _, _ => False
  end.

(** [MinMaxStats.normalize] *)
Definition normalize (self : MinMaxStats) (v : R) : R :=
  match maximum self, minimum self with
  | MaxFin mx, MinFin mn =>
      if Rgt_dec mx mn then (v - mn) / (mx - mn) else v
  | _, _ => v
  end.

(** ** Python arithmetic that can raise *)

(** Division of Python floats and ints: [ZeroDivisionError] on a zero
    divisor. *)
Definition py_div (a b : R) : result R :=
  if Req_dec_T b 0 then Raise ZeroDivisionError else Ok (a / b).

(** [math.log]: [ValueError] outside the domain. *)
Definition math_log (x : R) : result R :=
  if Rle_dec x 0 then Raise ValueError else Ok (ln x).

(** The range of floats.  Python's floats and numpy's [float64] are
    binary64: a result of [2^1024] or more is infinite, and a positive
    result of [2^-1075] or less is [0.0].  Rounding inside that range is
    outside the model. *)
Definition float_inf : R := 2 ^ 1024.
Definition float_tiny : R := / 2 ^ 1075.

Arguments float_inf : simpl never.
Arguments float_tiny : simpl never.

(** The float that holds a non-negative result [x]; [None] is [+inf]. *)
Definition to_float (x : R) : option R :=
  if Rle_dec float_inf x then None
  else if Rle_dec x float_tiny then Some 0
  else Some x.

(** [math.exp]: [OverflowError] when the result is out of range. *)
Definition math_exp (x : R) : result R :=
  match to_float (exp x) with
  | Some y => Ok y
  | None => Raise OverflowError
  end.

(** ** Configuration and model

    The options of [self.config] that the planning engine reads, and the
    two inference entry points of the network.  A tensor is a vector of
    reals; the policy logits are read only through [policy_logits[0][a]],
    so they are a function of the action. *)

Record Config : Type := mkConfig {
  action_space : list Z;
  discount : R;
  max_moves : nat;
  num_simulations : nat;
  pb_c_base : R;
  pb_c_init : R;
  root_dirichlet_alpha : R;
  root_exploration_fraction : R
}.

Definition tensor : Type := list R.

(** What an inference returns: [(value, reward, policy_logits,
    hidden_state)]. *)
Definition inference : Type := R * R * (Z → R) * tensor.

Record Model : Type := mkModel {
  initial_inference : tensor → inference;
  recurrent_inference : tensor → Z → inference
}.

(** ** Node *)

Abbreviation ref := nat.

Record Node : Type := mkNode {
  visit_count : nat;
  to_play : Z;
  prior : R;
  value_sum : R;
  children : dict ref;
  hidden_state : option tensor;
  reward : R
}.

(** [Node.__init__] *)
Definition Node_init (p : R) : Node :=
  {| visit_count := 0; to_play := (-1)%Z; prior := p; value_sum := 0;
     children := []; hidden_state := None; reward := 0 |}.

#[global] Instance Node_inhabited : Inhabited Node := populate (Node_init 0).

Definition set_visit_count (v : nat) (n : Node) : Node :=
  mkNode v (to_play n) (prior n) (value_sum n) (children n)
         (hidden_state n) (reward n).
Definition set_prior (p : R) (n : Node) : Node :=
  mkNode (visit_count n) (to_play n) p (value_sum n) (children n)
         (hidden_state n) (reward n).
Definition set_value_sum (s : R) (n : Node) : Node :=
  mkNode (visit_count n) (to_play n) (prior n) s (children n)
         (hidden_state n) (reward n).
Definition set_children (c : dict ref) (n : Node) : Node :=
  mkNode (visit_count n) (to_play n) (prior n) (value_sum n) c
         (hidden_state n) (reward n).
Definition set_hidden_state (s : option tensor) (n : Node) : Node :=
  mkNode (visit_count n) (to_play n) (prior n) (value_sum n) (children n)
         s (reward n).
Definition set_reward (r : R) (n : Node) : Node :=
  mkNode (visit_count n) (to_play n) (prior n) (value_sum n) (children n)
         (hidden_state n) r.

(** The store of [Node] objects.  [Node(...)] allocates at the end; a
    reference handed out by an allocation stays valid, the store only
    grows. *)
Abbreviation heap := (list Node).

(** [Node.expanded] *)
Definition expanded (self : Node) : bool :=
  (0 <? length (children self))%nat.

(** [Node.value] *)
Definition value (self : Node) : R :=
  if Nat.eq_dec (visit_count self) 0 then 0
  else value_sum self / INR (visit_count self).

(** The dictionary comprehension of [Node.expand]:
    [{a: math.exp(policy_logits[0][a]) for a in actions}]. *)
Definition policy_of (actions : list Z) (policy_logits : Z → R) : dict R :=
  fold_left (λ d a, dict_set a (exp (policy_logits a)) d) actions [].

(** One turn of the loop of [Node.expand]:
    [self.children[action] = Node(p / policy_sum)]. *)
Definition add_child (self : ref) (policy_sum : R) (h : heap)
    (item : Z * R) : heap :=
  let child := length h in
  alter (λ n, set_children (dict_set item.1 child (children n)) n) self
        (h ++ [Node_init (item.2 / policy_sum)]).

(** [Node.expand] over the reals: the exponentials are exact, so the
    divisor [policy_sum], a sum of exponentials, is not zero when the
    division runs.  This is what [Node.expand] does on logits whose
    exponentials, and their sum, are within the range of floats
    ([expand_float] below, which has the exceptions of the float
    arithmetic, then returns this store); the search is modelled on such
    logits. *)
Definition expand (self : ref) (actions : list Z) (r : R)
    (policy_logits : Z → R) (hidden : tensor) (h : heap) : heap :=
  let h := alter (λ n, set_hidden_state (Some hidden) (set_reward r n))
                 self h in
  let policy := policy_of actions policy_logits in
  let policy_sum := py_sum (values policy) in
  fold_left (add_child self policy_sum) policy h.

(** The dictionary comprehension of [Node.expand] on floats: [math.exp]
    raises [OverflowError] on a logit that is too large, and gives [0.0]
    on one that is too small. *)
Definition policy_of_float (actions : list Z) (policy_logits : Z → R)
    : result (dict R) :=
  fold_left (λ (d : result (dict R)) a,
               d ← d;
               p ← math_exp (policy_logits a);
               Ok (dict_set a p d))
            actions (Ok []).

(** [sum(policy.values())] on floats: [None] is [+inf]. *)
Definition float_sum (l : list R) : option R :=
  if Rle_dec float_inf (py_sum l) then None else Some (py_sum l).

(** [p / policy_sum] on floats: a finite [p] over [+inf] is [0.0], and a
    zero divisor raises. *)
Definition float_div (p : R) (policy_sum : option R) : result R :=
  match policy_sum with
  | Some s => py_div p s
  | None => Ok 0
  end.

(** One turn of the loop of [Node.expand], on floats. *)
Definition add_child_float (self : ref) (policy_sum : option R)
    (h : result heap) (item : Z * R) : result heap :=
  h ← h;
  p ← float_div item.2 policy_sum;
  let child := length h in
  Ok (alter (λ n, set_children (dict_set item.1 child (children n)) n) self
            (h ++ [Node_init p])).

(** [Node.expand] with the range of floats. *)
Definition expand_float (self : ref) (actions : list Z) (r : R)
    (policy_logits : Z → R) (hidden : tensor) (h : heap) : result heap :=
  let h := alter (λ n, set_hidden_state (Some hidden) (set_reward r n))
                 self h in
  policy ← policy_of_float actions policy_logits;
  let policy_sum := float_sum (values policy) in
  fold_left (add_child_float self policy_sum) policy (Ok h).

(** [Node.add_exploration_noise].  [noise] is the vector drawn by
    [numpy.random.dirichlet([dirichlet_alpha] * len(actions))]. *)
Definition add_exploration_noise (self : ref) (noise : list R) (frac : R)
    (h : heap) : heap :=
  let actions := keys (children (h !!! self)) in
  fold_left
    (λ h (an : Z * R),
       match dict_get an.1 (children (h !!! self)) with
       | Some c => alter (λ n, set_prior (prior n * (1 - frac) + an.2 * frac) n) c h
       | None => h
       end)
    (zip actions noise) h.

(** ** MCTS *)

(** [MCTS.ucb_score] *)
Definition ucb_score (config : Config) (parent child : Node)
    (min_max_stats : MinMaxStats) : result R :=
  q ← py_div (INR (visit_count parent) + pb_c_base config + 1)
             (pb_c_base config);
  l ← math_log q;
  let pb_c := l + pb_c_init config in
  let pb_c := pb_c * (sqrt (INR (visit_count parent))
                      / (INR (visit_count child) + 1)) in
  let prior_score := pb_c * prior child in
  let value_score := normalize min_max_stats (value child) in
  Ok (prior_score + value_score).

(** The tuples [(score, action, child)] that [select_child] hands to
    [max]. *)
Definition scored : Type := R * Z * ref.

(** [x > y] on such tuples: the first component where the two differ
    decides.  Two distinct [Node] objects have no order. *)
Definition tuple_gt (x y : scored) : result bool :=
  let '(s1, a1, c1) := x in
  let '(s2, a2, c2) := y in
  if Req_dec_T s1 s2 then
    if Z.eq_dec a1 a2 then
      if Nat.eq_dec c1 c2 then Ok false else Raise TypeError
    else Ok (a1 >? a2)%Z
  else Ok (if Rgt_dec s1 s2 then true else false).

(** The loop of the built-in [max] over the generator of [select_child]:
    each item is scored when it is drawn, and replaces the best so far
    when it is greater. *)
Fixpoint max_scored (config : Config) (parent : Node)
    (min_max_stats : MinMaxStats) (h : heap) (best : scored)
    (items : dict ref) : result scored :=
  match items with
  | [] => Ok best
  | (action, child) :: items' =>
      s ← ucb_score config parent (h !!! child) min_max_stats;
      b ← tuple_gt (s, action, child) best;
      max_scored config parent min_max_stats h
                 (if b : bool then (s, action, child) else best) items'
  end.

(** [MCTS.select_child] *)
Definition select_child (config : Config) (node : ref)
    (min_max_stats : MinMaxStats) (h : heap) : result (Z * ref) :=
  let parent := h !!! node in
  match children parent with
  | [] => Raise ValueError
  | (action, child) :: items =>
      s ← ucb_score config parent (h !!! child) min_max_stats;
      best ← max_scored config parent min_max_stats h (s, action, child) items;
      Ok (best.1.2, best.2)
  end.

(** One turn of the loop of [MCTS.backpropagate]; the state is the store,
    the value tracker and the carried [value]. *)
Definition backpropagate_step (config : Config)
    (st : heap * MinMaxStats * R) (node : ref) : heap * MinMaxStats * R :=
  let '(h, min_max_stats, v) := st in
  let h := alter (λ n, set_value_sum (value_sum n + v) n) node h in
  let h := alter (λ n, set_visit_count (visit_count n + 1) n) node h in
  let min_max_stats := update min_max_stats (value (h !!! node)) in
  (h, min_max_stats, reward (h !!! node) + discount config * v).

(** [MCTS.backpropagate]: [for node in search_path: ...] *)
Definition backpropagate (config : Config) (search_path : list ref) (v : R)
    (min_max_stats : MinMaxStats) (h : heap) : heap * MinMaxStats :=
  (fold_left (backpropagate_step config) search_path (h, min_max_stats, v)).1.

(** The state of one planning call: the tree, the value tracker, and a
    ghost log of the calls to [backpropagate] (search path and value),
    newest last.  The log is not program state; it is there to count the
    calls. *)
Record Search : Type := mkSearch {
  tree : heap;
  stats : MinMaxStats;
  backprops : list (list ref * R)
}.

(** The [while node.expanded()] loop of [MCTS.run]. *)
Fixpoint descend (config : Config) (fuel : nat) (node : ref)
    (search_path : list ref) (last_action : option Z)
    (min_max_stats : MinMaxStats) (h : heap)
    : result (ref * list ref * option Z) :=
  if expanded (h !!! node) then
    match fuel with
    | O => OutOfFuel
    | S fuel' =>
        '(action, child) ← select_child config node min_max_stats h;
        descend config fuel' child (search_path ++ [child]) (Some action)
                min_max_stats h
    end
  else Ok (node, search_path, last_action).

(** [search_path[-2]] *)
Definition penultimate {A : Type} (l : list A) : result A :=
  match rev l with
  | _ :: x :: _ => Ok x
  | _ => Raise IndexError
  end.

(** The body of the [for _ in range(num_simulations)] loop of
    [MCTS.run]. *)
Definition simulate (config : Config) (model : Model) (fuel : nat)
    (root : ref) (s : Search) : result Search :=
  '(node, search_path, last_action) ←
    descend config fuel root [root] None (stats s) (tree s);
  parent ← penultimate search_path;
  action ← match last_action with
           | Some a => Ok a
           | None => Raise UnboundLocalError
           end;
  hidden ← match hidden_state (tree s !!! parent) with
           | Some x => Ok x
           | None => Raise AttributeError
           end;
  let '(v, r, policy_logits, hidden') :=
    recurrent_inference model hidden action in
  let h := expand node (action_space config) r policy_logits hidden'
                  (tree s) in
  let '(h, min_max_stats) := backpropagate config search_path v (stats s) h in
  Ok {| tree := h; stats := min_max_stats;
        backprops := backprops s ++ [(search_path, v)] |}.

(** [for _ in range(n): ...] *)
Fixpoint simulations (config : Config) (model : Model) (fuel : nat)
    (root : ref) (n : nat) (s : Search) : result Search :=
  match n with
  | O => Ok s
  | S n' =>
      s' ← simulate config model fuel root s;
      simulations config model fuel root n' s'
  end.

(** [MCTS.run].  The tree is built in a fresh store, so the root is the
    reference [0].  [noise] is the Dirichlet draw that
    [add_exploration_noise] would make. *)
Definition run (config : Config) (model : Model) (fuel : nat)
    (observation : tensor) (add_noise : bool) (noise : list R)
    : result (ref * Search) :=
  let root := 0%nat in
  let h := [Node_init 0] in
  let '(_, expected_reward, policy_logits, hidden) :=
    initial_inference model observation in
  let h := expand root (action_space config) expected_reward policy_logits
                  hidden h in
  let h := if add_noise
           then add_exploration_noise root noise
                  (root_exploration_fraction config) h
           else h in
  s ← simulations config model fuel root (num_simulations config)
        {| tree := h; stats := MinMaxStats_init; backprops := [] |};
  Ok (root, s).

(** ** Action selection *)

(** The temperature: a Python number, or [float("inf")]. *)
Inductive temperature : Type := Temp (t : R) | TempInf.

(** [numpy.argmax] over a row of counts: the position of the first
    maximum; it raises on an empty row. *)
Fixpoint argmax_from (best_pos best pos : nat) (l : list nat) : nat :=
  match l with
  | [] => best_pos
  | x :: l' =>
      if (best <? x)%nat then argmax_from pos x (S pos) l'
      else argmax_from best_pos best (S pos) l'
  end.

Definition argmax (l : list nat) : result nat :=
  match l with
  | [] => Raise ValueError
  | x :: l' => Ok (argmax_from 0 x 1 l')
  end.

(** [count ** e] in numpy, for a count and a float exponent; [None] is
    [+inf]: zero to a negative power, or a power that overflows. *)
Definition np_power (c : nat) (e : R) : option R :=
  if Req_dec_T e 0 then Some 1
  else if Nat.eq_dec c 0 then (if Rlt_dec 0 e then Some 0 else None)
  else to_float (Rpower (INR c) e).

(** [visit_counts[0] ** e], entry by entry. *)
Fixpoint power_counts (counts : list nat) (e : R) : option (list R) :=
  match counts with
  | [] => Some []
  | c :: counts' =>
      match np_power c e, power_counts counts' e with
      | Some x, Some xs => Some (x :: xs)
      | _, _ => None
      end
  end.

(** [numpy.cumsum] *)
Fixpoint cumsum_from (acc : R) (l : list R) : list R :=
  match l with
  | [] => []
  | x :: l' => (acc + x) :: cumsum_from (acc + x) l'
  end.

Definition cumsum (l : list R) : list R := cumsum_from 0 l.

(** [cdf.searchsorted(u, side="right")] on a nondecreasing [cdf]: the
    number of leading entries that are [<= u]. *)
Fixpoint searchsorted_right (cdf : list R) (u : R) : nat :=
  match cdf with
  | [] => 0
  | x :: cdf' => if Rle_dec x u then S (searchsorted_right cdf' u) else 0
  end.

(** [numpy.random.choice(n, p=p)] once [p] has passed numpy's checks: the
    cumulative sums are scaled by their last entry and the uniform draw
    [u] of [[0,1)] is located among them. *)
Definition random_choice_p (p : list R) (u : R) : nat :=
  let cdf := cumsum p in
  let cdf := match last cdf with
             | Some z => map (λ x, x / z) cdf
             | None => cdf
             end in
  searchsorted_right cdf u.

(** [select_action].  [node.children.items()] gives the rows
    [visit_counts[0]] (the counts) and [visit_counts[1]] (the actions);
    with no child, [visit_counts[0]] is out of bounds.  [u] is the uniform
    draw of [choice(n, p=...)] and [k] the integer drawn by [choice(n)].
    A distribution with an infinite entry, or with sum [0], is all or
    partly NaN once divided by its sum, and one whose sum overflows is
    all [0.0]: [choice] refuses them.  At infinite temperature the sum
    is the number of children. *)
Definition select_action (node : ref) (temp : temperature) (h : heap)
    (u : R) (k : nat) : result Z :=
  let items := children (h !!! node) in
  let counts := map (λ ac : Z * ref, visit_count (h !!! ac.2)) items in
  let actions := keys items in
  match items with
  | [] => Raise IndexError
  | _ :: _ =>
      action_pos ←
        match temp with
        | Temp t =>
            if Req_dec_T t 0 then argmax counts
            else
              match power_counts counts (1 / t) with
              | None => Raise ValueError
              | Some dist =>
                  let total := py_sum dist in
                  if Req_dec_T total 0 then Raise ValueError
                  else if Rle_dec float_inf total then Raise ValueError
                  else Ok (random_choice_p (map (λ x, x / total) dist) u)
              end
        | TempInf =>
            match power_counts counts 0 with
            | None => Raise ValueError
            | Some dist =>
                let total := py_sum dist in
                if Req_dec_T total 0 then Raise ValueError
                else
                  let _ := random_choice_p (map (λ x, x / total) dist) u in
                  Ok (k mod length actions)%nat
            end
        end;
      match actions !! action_pos with
      | Some a => Ok a
      | None => Raise IndexError
      end
  end.

(** ** GameHistory *)

Record GameHistory : Type := mkGameHistory {
  observation_history : list tensor;
  history : list Z;
  rewards : list R;
  child_visits : list (list R);
  root_values : list R;
  gh_discount : R
}.

(** [GameHistory.__init__] *)
Definition GameHistory_init (d : R) : GameHistory :=
  {| observation_history := []; history := []; rewards := [];
     child_visits := []; root_values := []; gh_discount := d |}.

(** The list comprehension of [store_search_statistics]: the division is
    Python's, on ints. *)
Fixpoint visit_fractions (root : Node) (h : heap) (sum_visits : nat)
    (actions : list Z) : result (list R) :=
  match actions with
  | [] => Ok []
  | a :: actions' =>
      x ← match dict_get a (children root) with
          | Some c => py_div (INR (visit_count (h !!! c))) (INR sum_visits)
          | None => Ok 0
          end;
      xs ← visit_fractions root h sum_visits actions';
      Ok (x :: xs)
  end.

(** [GameHistory.store_search_statistics] *)
Definition store_search_statistics (root : ref) (h : heap)
    (actions : list Z) (self : GameHistory) : result GameHistory :=
  let sum_visits :=
    fold_left Nat.add
      (map (λ c, visit_count (h !!! c)) (values (children (h !!! root)))) 0%nat in
  fractions ← visit_fractions (h !!! root) h sum_visits actions;
  Ok {| observation_history := observation_history self;
        history := history self;
        rewards := rewards self;
        child_visits := child_visits self ++ [fractions];
        root_values := root_values self ++ [value (h !!! root)];
        gh_discount := gh_discount self |}.

(** ** Self-play *)

(** The environment: [reset], [step], [render] and [close] over its
    state. *)
Record Game : Type := mkGame {
  env : Type;
  reset : env → env * tensor;
  step : env → Z → env * (tensor * R * bool);
  render : env → env;
  close : env → env
}.

(** The random draws of one move: the Dirichlet noise of the root, and the
    two draws of [select_action]. *)
Record Draws : Type := mkDraws {
  dirichlet_noise : list R;
  choice_u : R;
  choice_k : nat
}.

(** The state of the loop of [play_game]. *)
Record Episode (game : Game) : Type := mkEpisode {
  ep_env : env game;
  ep_observation : tensor;
  ep_done : bool;
  ep_history : GameHistory
}.

Arguments mkEpisode {game}.
Arguments ep_env {game}.
Arguments ep_observation {game}.
Arguments ep_done {game}.
Arguments ep_history {game}.

(** The body of the [while] loop of [play_game]: one move. *)
Definition play_move (config : Config) (model : Model) (game : Game)
    (search_fuel : nat) (draws : Draws) (temp : temperature)
    (do_render : bool) (ep : Episode game) : result (Episode game) :=
  '(root, s) ← run config model search_fuel (ep_observation ep) true
                 (dirichlet_noise draws);
  action ← select_action root temp (tree s) (choice_u draws) (choice_k draws);
  let '(e, (observation, r, done)) := step game (ep_env ep) action in
  let e := if do_render then render game e else e in
  let gh := ep_history ep in
  let gh := {| observation_history := observation_history gh ++ [observation];
               history := history gh;
               rewards := rewards gh;
               child_visits := child_visits gh;
               root_values := root_values gh;
               gh_discount := gh_discount gh |} in
  let gh := {| observation_history := observation_history gh;
               history := history gh;
               rewards := rewards gh ++ [r];
               child_visits := child_visits gh;
               root_values := root_values gh;
               gh_discount := gh_discount gh |} in
  let gh := {| observation_history := observation_history gh;
               history := history gh ++ [action];
               rewards := rewards gh;
               child_visits := child_visits gh;
               root_values := root_values gh;
               gh_discount := gh_discount gh |} in
  gh ← store_search_statistics root (tree s) (action_space config) gh;
  Ok {| ep_env := e; ep_observation := observation; ep_done := done;
        ep_history := gh |}.

(** [while not done and len(game_history.history) < max_moves].  The draws
    of a move are those of its index. *)
Fixpoint play_loop (config : Config) (model : Model) (game : Game)
    (fuel search_fuel : nat) (rng : nat → Draws) (temp : temperature)
    (do_render : bool) (ep : Episode game) : result (Episode game) :=
  if negb (ep_done ep)
     && (length (history (ep_history ep)) <? max_moves config)%nat
  then
    match fuel with
    | O => OutOfFuel
    | S fuel' =>
        ep' ← play_move config model game search_fuel
                (rng (length (history (ep_history ep)))) temp do_render ep;
        play_loop config model game fuel' search_fuel rng temp do_render ep'
    end
  else Ok ep.

(** The state in which [play_game] enters its loop. *)
Definition play_start (config : Config) (game : Game) (e : env game)
    : Episode game :=
  let gh := GameHistory_init (discount config) in
  let '(e, observation) := reset game e in
  {| ep_env := e; ep_observation := observation; ep_done := false;
     ep_history :=
       {| observation_history := observation_history gh ++ [observation];
          history := history gh;
          rewards := rewards gh;
          child_visits := child_visits gh;
          root_values := root_values gh;
          gh_discount := gh_discount gh |} |}.

(** [SelfPlay.play_game] *)
Definition play_game (config : Config) (model : Model) (game : Game)
    (fuel search_fuel : nat) (rng : nat → Draws) (temp : temperature)
    (do_render : bool) (e : env game) : result (env game * GameHistory) :=
  ep ← play_loop config model game fuel search_fuel rng temp do_render
         (play_start config game e);
  Ok (close game (ep_env ep), ep_history ep).

(** The temperatures that self-play uses: [0] in test mode, else what
    [visit_softmax_temperature_fn] gives, a positive number or infinity. *)
Definition temperature_ok (temp : temperature) : Prop :=
  match temp with
  | Temp t => 0 <= t
  | TempInf => True
  end.

(** The invariant of a [GameHistory]. *)
Definition history_inv (gh : GameHistory) : Prop :=
  length (history gh) = length (rewards gh) ∧
  length (rewards gh) = length (child_visits gh) ∧
  length (child_visits gh) = length (root_values gh) ∧
  length (observation_history gh) = (length (history gh) + 1)%nat.

(** The tree of the design's selection scenario: visit counts
    [{0: 3, 1: 7, 2: 0}] under the root. *)
Definition visited_tree : heap :=
  [ set_children [(0%Z, 1%nat); (1%Z, 2%nat); (2%Z, 3%nat)]
      (set_visit_count 10 (Node_init 0));
    set_visit_count 3 (Node_init (1 / 5));
    set_visit_count 7 (Node_init (1 / 2));
    Node_init (3 / 10) ].

(** A root visited ten times over three children: the children of the
    actions [0] and [1] have the same UCB score (priors [3/10] and [3/5],
    visit counts [0] and [1]), the child of action [2] a lower one. *)
Definition tied_tree : heap :=
  [ set_children [(0%Z, 1%nat); (1%Z, 2%nat); (2%Z, 3%nat)]
      (set_visit_count 10 (Node_init 0));
    Node_init (3 / 10);
    set_visit_count 1 (Node_init (3 / 5));
    Node_init (1 / 10) ].

(** ** SafeLifeLevelIterator

    The iterator over levels of [safelife/file_finder.py].  An entry of
    [file_data] is the list [[file_name, data_type, data]] that
    [_load_files] builds; [_game_from_data] makes a game from an entry and
    a seed, and is a parameter here: its body calls the level generator.
    The seed of a level is the child that [self._seed.spawn(1)[0]]
    returns, named by its index among the children spawned so far.
    [rng_choice j] is the position that the [j]-th call of
    [self.rng.choice] draws.  A result queued through the pool is the
    value that its [get()] returns. *)

Inductive data_type : Set := Procgen | Static.

(** The argument [repeat]: ["auto"], a bool or an int. *)
Inductive repeat_arg : Set :=
| RepeatAuto
| RepeatBool (b : bool)
| RepeatInt (n : Z).

Section SafeLifeLevelIterator.
Context {Name Data G : Type}.
Variable _game_from_data : Name → data_type → Data → nat → G.
Variable rng_choice : nat → nat.

Record LevelIterator : Type := mkLevelIterator {
  self_file_data : list (Name * data_type * Data);
  self_repeat : Z;
  self_num_workers : Z;
  self_max_queue : Z;
  self_results : list G;
  self_idx : nat;
  self_spawned : nat;
  self_draws : nat
}.

(** [SafeLifeLevelIterator.__init__], from the list that [_load_files]
    returns.  ["auto"] becomes the bool [auto], a bool becomes
    [-1 * repeat]; [queue.deque] refuses a negative [maxlen]. *)
Definition SafeLifeLevelIterator_init
    (file_data : list (Name * data_type * Data)) (repeat : repeat_arg)
    (num_workers max_queue : Z) : result LevelIterator :=
  let auto :=
    match file_data with
    | [(_, Procgen, _)] => true
    | _ => false
    end in
  let repeat :=
    match repeat with
    | RepeatAuto => (-1 * Z.b2z auto)%Z
    | RepeatBool b => (-1 * Z.b2z b)%Z
    | RepeatInt n => n
    end in
  let max_queue := if (0 <? num_workers)%Z then max_queue else 1%Z in
  if (max_queue <? 0)%Z then Raise ValueError
  else Ok {| self_file_data := file_data; self_repeat := repeat;
             self_num_workers := num_workers; self_max_queue := max_queue;
             self_results := []; self_idx := 0; self_spawned := 0;
             self_draws := 0 |}.

(** The [while len(self.results) < self.max_queue] loop of [__next__].
    [None] is the [break]. *)
Fixpoint fill_queue (fuel : nat) (self : LevelIterator)
    : result LevelIterator :=
  let num_files := length (self_file_data self) in
  if (Z.of_nat (length (self_results self)) <? self_max_queue self)%Z then
    match fuel with
    | O => OutOfFuel
    | S fuel' =>
        data ←
          (if (self_repeat self <? 0)%Z then
             match self_file_data self
                   !! (rng_choice (self_draws self) mod num_files)%nat with
             | Some d => Ok (Some (d, S (self_draws self)))
             | None => Raise ValueError
             end
           else if (Z.of_nat num_files * self_repeat self
                    <=? Z.of_nat (self_idx self))%Z
           then Ok None
           else
             match self_file_data self
                   !! (self_idx self mod num_files)%nat with
             | Some d => Ok (Some (d, self_draws self))
             | None => Raise ZeroDivisionError
             end);
        match data with
        | None => Ok self
        | Some ((file_name, type, data), draws) =>
            let seed := self_spawned self in
            let result := _game_from_data file_name type data seed in
            fill_queue fuel'
              {| self_file_data := self_file_data self;
                 self_repeat := self_repeat self;
                 self_num_workers := self_num_workers self;
                 self_max_queue := self_max_queue self;
                 self_results := self_results self ++ [result];
                 self_idx := S (self_idx self);
                 self_spawned := S (self_spawned self);
                 self_draws := draws |}
        end
    end
  else Ok self.

(** [SafeLifeLevelIterator.__next__]; [None] is [StopIteration]. *)
Definition next (fuel : nat) (self : LevelIterator)
    : result (option G * LevelIterator) :=
  self ← fill_queue fuel self;
  match self_results self with
  | [] => Ok (None, self)
  | result :: rest =>
      Ok (Some result,
          {| self_file_data := self_file_data self;
             self_repeat := self_repeat self;
             self_num_workers := self_num_workers self;
             self_max_queue := self_max_queue self;
             self_results := rest;
             self_idx := self_idx self;
             self_spawned := self_spawned self;
             self_draws := self_draws self |})
  end.

(** At most [k] levels taken from the iterator, as a [for] loop over it
    does: the calls of [next] stop at the first [StopIteration]. *)
Fixpoint take_levels (k fuel : nat) (self : LevelIterator)
    : result (list G * LevelIterator) :=
  match k with
  | O => Ok ([], self)
  | S k' =>
      '(r, self) ← next fuel self;
      match r with
      | None => Ok ([], self)
      | Some g =>
          '(gs, self) ← take_levels k' fuel self;
          Ok (g :: gs, self)
      end
  end.

(** The level that comes [j]-th out of an iterator over [file_data]: the
    file drawn by the [j]-th choice when the iterator repeats forever,
    else the files in turn; the seed is the [j]-th child. *)
Definition level_at (file_data : list (Name * data_type * Data))
    (repeat : Z) (j : nat) : option G :=
  let pos := if (repeat <? 0)%Z then rng_choice j else j in
  match file_data !! (pos mod length file_data)%nat with
  | Some (file_name, type, data) =>
      Some (_game_from_data file_name type data j)
  | None => None
  end.
End SafeLifeLevelIterator.

(** ** Auxiliary notions used in the statements *)

(** A policy dictionary holds, under each action, the exponential of its
    logit. *)
Definition exp_entries (policy_logits : Z → R) (d : dict R) : Prop :=
  Forall (λ x, x.2 = exp (policy_logits x.1)) d.

(** The assignments [self.children[action] = child] of one expansion, as
    a sequence of pairs [(action, child)]. *)
Definition link_children (refs : list (Z * ref)) (d : dict ref) : dict ref :=
  fold_left (λ d kr, dict_set kr.1 kr.2 d) refs d.

(** The UCB score as the design document writes it:
    [pb_c * prior + normalize(value)] with
    [pb_c = (log((N + base + 1) / base) + init) * sqrt(N) / (n + 1)],
    [N] the visit count of the parent and [n] that of the child. *)
Definition ucb_formula (config : Config) (parent child : Node)
    (min_max_stats : MinMaxStats) : R :=
  (ln ((INR (visit_count parent) + pb_c_base config + 1) / pb_c_base config)
   + pb_c_init config)
  * sqrt (INR (visit_count parent)) / (INR (visit_count child) + 1)
  * prior child
  + normalize min_max_stats (value child).

(** The order of the pairs [(score, action)]: by score, then by action. *)
Definition lex_le (x y : R * Z) : Prop :=
  x.1 < y.1 ∨ (x.1 = y.1 ∧ (x.2 <= y.2)%Z).

(** The walk that the docstring of [MCTS.backpropagate] and the design
    document describe: the same loop body, run over the search path from
    the leaf up to the root. *)
Definition backpropagate_leaf_to_root (config : Config)
    (search_path : list ref) (v : R) (min_max_stats : MinMaxStats)
    (h : heap) : heap * MinMaxStats :=
  backpropagate config (rev search_path) v min_max_stats h.

(** The store when [MCTS.run] calls [backpropagate] in a first simulation
    over a single action: the root, its child, just expanded with reward
    [1], and the child of that child. *)
Definition two_node_tree : heap :=
  expand 1%nat [0%Z] 1 (λ _, 0) []
    (expand 0%nat [0%Z] 0 (λ _, 0) [] [Node_init 0]).

Definition half_discount : Config :=
  {| action_space := [0%Z]; discount := 1 / 2; max_moves := 1;
     num_simulations := 1; pb_c_base := 19652; pb_c_init := 5 / 4;
     root_dirichlet_alpha := 1 / 4; root_exploration_fraction := 1 / 4 |}.

(** The keys of a dictionary built over [actions]: each action once, in
    the order of its first occurrence. *)
Definition first_occurrences (actions : list Z) : list Z :=
  fold_left (λ acc a, if decide (a ∈ acc) then acc else acc ++ [a]) actions [].

(** The fields of a node that backpropagation and exploration noise leave
    alone. *)
Definition same_links (n n' : Node) : Prop :=
  children n' = children n ∧ hidden_state n' = hidden_state n ∧
  reward n' = reward n.

(** The shape of the search tree that [MCTS.run] maintains in the store
    over the action list [actions]: a node has no children or one child
    per distinct action; a node with children has its hidden state; the
    children of a node were allocated after it. *)
Record tree_wf (actions : list Z) (h : heap) : Prop := mk_tree_wf {
  wf_keys : ∀ i, (i < length h)%nat →
            children (h !!! i) = [] ∨
            keys (children (h !!! i)) = first_occurrences actions;
  wf_hidden : ∀ i, (i < length h)%nat → children (h !!! i) ≠ [] →
              is_Some (hidden_state (h !!! i));
  wf_refs : ∀ i a c, (i < length h)%nat → (a, c) ∈ children (h !!! i) →
            (i < c < length h)%nat
}.

(** The graph of the [while node.expanded()] loop: from [node], the
    references appended to the search path, the leaf reached, and
    [last_action] before and after. *)
Inductive descent (config : Config) (mms : MinMaxStats) (h : heap)
  : ref → list ref → ref → option Z → option Z → Prop :=
| descent_leaf (n : ref) (la : option Z) :
    expanded (h !!! n) = false →
    descent config mms h n [] n la la
| descent_child (n : ref) (a : Z) (c : ref) (ext : list ref) (leaf : ref)
    (la la' : option Z) :
    expanded (h !!! n) = true →
    select_child config n mms h = Ok (a, c) →
    descent config mms h c ext leaf (Some a) la' →
    descent config mms h n (c :: ext) leaf la la'.

(** The end-to-end scenario of the design document: three actions, one
    simulation, and an initial inference whose softmax is
    [[0.2, 0.5, 0.3]]. *)
Definition scenario_config : Config :=
  {| action_space := [0; 1; 2]%Z; discount := 997 / 1000; max_moves := 3;
     num_simulations := 1; pb_c_base := 19652; pb_c_init := 5 / 4;
     root_dirichlet_alpha := 1 / 4; root_exploration_fraction := 1 / 4 |}.

Definition scenario_logits (a : Z) : R :=
  match a with
  | 0%Z => ln (1 / 5)
  | 1%Z => ln (1 / 2)
  | _ => ln (3 / 10)
  end.

Definition scenario_model : Model :=
  {| initial_inference := λ _, (0, 0, scenario_logits, []);
     recurrent_inference := λ _ _, (1, 0, λ _, 0, []) |}.

(** A small environment for the scenario: the state counts the steps, the
    observation is the count, every step pays [1], and the episode is done
    after two steps. *)
Definition counter_game : Game :=
  {| env := nat;
     reset := λ _, (0%nat, [0]);
     step := λ n _, (S n, ([INR (S n)], 1, (2 <=? S n)%nat));
     render := λ n, n;
     close := λ n, n |}.

(** The same draws at every move. *)
Definition fixed_draws (i : nat) : Draws :=
  {| dirichlet_noise := [1; 0; 0]; choice_u := 1 / 2; choice_k := 0 |}.

(** [v] lies between the two bounds of the tracker, both finite. *)
Definition in_range (s : MinMaxStats) (v : R) : Prop :=
  ∃ mx mn, maximum s = MaxFin mx ∧ minimum s = MinFin mn ∧ mn <= v <= mx.

(** The tracker holds the greatest and the least of the values [vs]. *)
Definition extremes_of (vs : list R) (s : MinMaxStats) : Prop :=
  ∃ mx mn, maximum s = MaxFin mx ∧ minimum s = MinFin mn ∧
           mx ∈ vs ∧ mn ∈ vs ∧ ∀ v, v ∈ vs → mn <= v <= mx.

(** The visits of the children of node [i], added up. *)
Definition child_visit_sum (h : heap) (i : ref) : nat :=
  sum_list (map (λ c, visit_count (h !!! c)) (values (children (h !!! i)))).

(** Every node of the search tree is linked from at most one place: the
    children of a node are distinct nodes, and no node is the child of two
    nodes. *)
Record tree_links (h : heap) : Prop := mk_tree_links {
  links_nodup : ∀ i, (i < length h)%nat →
                NoDup (values (children (h !!! i)));
  links_parent : ∀ i j a b c,
                 (i < length h)%nat → (j < length h)%nat →
                 (a, c) ∈ children (h !!! i) → (b, c) ∈ children (h !!! j) →
                 i = j
}.

(** How the visit counts of a tree add up: a node without children was
    never visited; the visits of the root are those of its children; any
    other node with children was visited once more than its children,
    the time it was expanded. *)
Definition visits_accounted (h : heap) : Prop :=
  ∀ i, (i < length h)%nat →
    if expanded (h !!! i)
    then visit_count (h !!! i)
         = (child_visit_sum h i + (if decide (i = 0%nat) then 0 else 1))%nat
    else visit_count (h !!! i) = 0%nat.

(** A probability vector. *)
Definition distribution (l : list R) : Prop :=
  Forall (λ p, 0 <= p) l ∧ py_sum l = 1.

(** The priors of the children of node [i], in the order of its
    dictionary. *)
Definition child_priors (h : heap) (i : ref) : list R :=
  map (λ c, prior (h !!! c)) (values (children (h !!! i))).

(** Under every node with children the priors are a probability
    vector. *)
Definition priors_distributed (h : heap) : Prop :=
  ∀ i, (i < length h)%nat → children (h !!! i) ≠ [] →
       distribution (child_priors h i).

(** A search path of the tree in [h]: it starts at the root, has at
    least two nodes, none twice, all of them allocated, and each node is
    a child of the one before. *)
Definition tree_path (h : heap) (path : list ref) : Prop :=
  path !! 0%nat = Some 0%nat ∧ (2 <= length path)%nat ∧ NoDup path ∧
  Forall (λ c, c < length h)%nat path ∧
  ∀ k p c, path !! k = Some p → path !! S k = Some c →
           ∃ a, (a, c) ∈ children (h !!! p).

(** [count ** e] for an exponent [e > 0], over the reals. *)
Definition real_power (c : nat) (e : R) : R :=
  if Nat.eq_dec c 0 then 0 else Rpower (INR c) e.

(** The sum of [visit_counts[0] ** e], over the reals. *)
Definition power_sum (counts : list nat) (e : R) : R :=
  py_sum (map (λ c, real_power c e) counts).

(** The float that [math.exp] returns where it does not overflow. *)
Definition float_exp (x : R) : R :=
  if Rle_dec (exp x) float_tiny then 0 else exp x.

(** The dictionary that holds the weight [w a] under each action. *)
Definition weights_dict (w : Z → R) (actions : list Z) : dict R :=
  fold_left (λ d a, dict_set a (w a) d) actions [].

(** A temperature at which the visit counts of a search, each at most
    [num_simulations], cannot overflow when raised to [1 / t]. *)
Definition sampling_in_range (config : Config) (temp : temperature) : Prop :=
  match temp with
  | Temp t =>
      0 < t →
      INR (length (action_space config))
      * Rpower (INR (num_simulations config)) (1 / t) < float_inf
  | TempInf => True
  end.

(** * Properties *)

(** ** MinMaxStats *)

Lemma normalize_no_spread (s : MinMaxStats) (v : R) :
  ¬ spread s → normalize s v = v.
Proof.
  unfold spread, normalize.
  destruct (maximum s) as [|mx], (minimum s) as [|mn]; try reflexivity.
  intros Hn. destruct (Rgt_dec mx mn); [contradiction | reflexivity].
Qed.

Lemma normalize_spread (s : MinMaxStats) (v mx mn : R) :
  maximum s = MaxFin mx → minimum s = MinFin mn → mx > mn →
  normalize s v = (v - mn) / (mx - mn).
Proof.
  intros Hmx Hmn Hgt. unfold normalize. rewrite Hmx, Hmn.
  destruct (Rgt_dec mx mn); [reflexivity | contradiction].
Qed.

Lemma unit_interval_quotient (v mx mn : R) :
  mx > mn → mn <= v <= mx → 0 <= (v - mn) / (mx - mn) <= 1.
Proof.
  intros Hgt [Hlo Hhi].
  assert (Hd : 0 < mx - mn) by lra.
  split.
  - apply Rmult_le_pos; [lra |].
    left. now apply Rinv_0_lt_compat.
  - apply (Rmult_le_reg_r (mx - mn)); [exact Hd |].
    unfold Rdiv. rewrite Rmult_assoc, Rinv_l by lra. lra.
Qed.

Lemma update_in_range (s : MinMaxStats) (x : R) : in_range (update s x) x.
Proof.
  unfold in_range, update. cbn [maximum minimum].
  destruct (maximum s) as [|mx], (minimum s) as [|mn]; cbn;
    repeat match goal with
           | |- context [Rgt_dec ?a ?b] => destruct (Rgt_dec a b)
           | |- context [Rlt_dec ?a ?b] => destruct (Rlt_dec a b)
           end;
    eexists _, _; (split; [reflexivity |]); (split; [reflexivity |]); lra.
Qed.

Lemma update_keeps_range (s : MinMaxStats) (x v : R) :
  in_range s v → in_range (update s x) v.
Proof.
  intros (mx & mn & Hmx & Hmn & Hv). unfold in_range, update.
  cbn [maximum minimum]. rewrite Hmx, Hmn. cbn.
  destruct (Rgt_dec x mx), (Rlt_dec x mn);
    eexists _, _; (split; [reflexivity |]); (split; [reflexivity |]); lra.
Qed.

Lemma updates_in_range (vs : list R) :
  ∀ s v, (in_range s v ∨ v ∈ vs) → in_range (fold_left update vs s) v.
Proof.
  induction vs as [|x vs IH]; intros s v Hv; cbn [fold_left].
  - destruct Hv as [Hv|Hv]; [exact Hv | inversion Hv].
  - apply IH. destruct Hv as [Hv|Hv].
    + left. now apply update_keeps_range.
    + apply elem_of_cons in Hv as [->|Hv]; [left | now right].
      apply update_in_range.
Qed.

(** C8. [normalize] is the identity before any [update] and whenever the
    maximum does not exceed the minimum; once [maximum > minimum] it is
    [(v - minimum) / (maximum - minimum)], a number of [[0,1]] for every
    [v] between the two bounds, hence for every value the tracker has
    observed. *)
Theorem normalize_spec :
  (∀ v, normalize MinMaxStats_init v = v) ∧
  (∀ s v, ¬ spread s → normalize s v = v) ∧
  (∀ s v mx mn,
      maximum s = MaxFin mx → minimum s = MinFin mn → mx > mn →
      normalize s v = (v - mn) / (mx - mn) ∧
      (mn <= v <= mx → 0 <= normalize s v <= 1)) ∧
  (∀ vs v,
      let s := fold_left update vs MinMaxStats_init in
      v ∈ vs → spread s → 0 <= normalize s v <= 1).
Proof.
  split; [| split; [| split]].
  - intros v. reflexivity.
  - apply normalize_no_spread.
  - intros s v mx mn Hmx Hmn Hgt.
    rewrite (normalize_spread s v mx mn Hmx Hmn Hgt).
    split; [reflexivity |].
    now apply unit_interval_quotient.
  - intros vs v s Hin Hspread.
    destruct (updates_in_range vs MinMaxStats_init v (or_intror Hin))
      as (mx & mn & Hmx & Hmn & Hv).
    fold s in Hmx, Hmn. unfold spread in Hspread.
    rewrite Hmx, Hmn in Hspread.
    rewrite (normalize_spread s v mx mn Hmx Hmn Hspread).
    now apply unit_interval_quotient.
Qed.

(** ** Dictionaries *)

Section dict_facts.
Context {V : Type}.
Implicit Types (d : dict V) (k : Z) (v : V).

Lemma keys_dict_set k v d :
  keys (dict_set k v d) = if decide (k ∈ keys d) then keys d else keys d ++ [k].
Proof.
  induction d as [|[k' v'] d IH].
  - reflexivity.
  - cbn [dict_set]. destruct (Z.eq_dec k k') as [->|Hne].
    + rewrite decide_True by left. reflexivity.
    + change (keys ((k', v') :: dict_set k v d))
        with (k' :: keys (dict_set k v d)).
      change (keys ((k', v') :: d)) with (k' :: keys d).
      rewrite IH.
      destruct (decide (k ∈ keys d)) as [Hin|Hni].
      * rewrite decide_True by now right. reflexivity.
      * rewrite decide_False; [reflexivity |].
        intros Hin. apply elem_of_cons in Hin as [?|?]; congruence.
Qed.

Lemma NoDup_keys_dict_set k v d :
  NoDup (keys d) → NoDup (keys (dict_set k v d)).
Proof.
  intros Hnd. rewrite keys_dict_set.
  destruct (decide (k ∈ keys d)) as [Hin|Hni]; [exact Hnd |].
  apply NoDup_app. split; [exact Hnd |]. split.
  - intros x Hx Hx'. apply list_elem_of_singleton in Hx'. congruence.
  - apply NoDup_singleton.
Qed.

Lemma elem_of_keys_dict_set k k' v d :
  k' ∈ keys (dict_set k v d) ↔ k' = k ∨ k' ∈ keys d.
Proof.
  rewrite keys_dict_set.
  destruct (decide (k ∈ keys d)) as [Hin|Hni].
  - split; [now right |]. intros [->|?]; assumption.
  - rewrite elem_of_app, list_elem_of_singleton. tauto.
Qed.

Lemma dict_get_set_eq k v d : dict_get k (dict_set k v d) = Some v.
Proof.
  induction d as [|[k' v'] d IH]; simpl.
  - destruct (Z.eq_dec k k); [reflexivity | contradiction].
  - destruct (Z.eq_dec k k') as [->|Hne]; simpl.
    + destruct (Z.eq_dec k' k'); [reflexivity | contradiction].
    + destruct (Z.eq_dec k k'); [contradiction | exact IH].
Qed.

Lemma dict_get_set_ne k k' v d :
  k ≠ k' → dict_get k' (dict_set k v d) = dict_get k' d.
Proof.
  intros Hne. induction d as [|[k0 v0] d IH]; simpl.
  - destruct (Z.eq_dec k' k); [congruence | reflexivity].
  - destruct (Z.eq_dec k k0) as [->|Hne0]; simpl.
    + destruct (Z.eq_dec k' k0); [congruence | reflexivity].
    + destruct (Z.eq_dec k' k0); [reflexivity | exact IH].
Qed.

Lemma dict_set_fresh k v d : k ∉ keys d → dict_set k v d = d ++ [(k, v)].
Proof.
  induction d as [|[k' v'] d IH]; simpl; intros Hni; [reflexivity |].
  destruct (Z.eq_dec k k') as [->|Hne].
  - exfalso. apply Hni. left.
  - f_equal. apply IH. intros Hin. apply Hni. now right.
Qed.

Lemma elem_of_dict_set k v d (x : Z * V) :
  x ∈ dict_set k v d → x = (k, v) ∨ x ∈ d.
Proof.
  induction d as [|[k' v'] d IH]; simpl.
  - intros Hx. apply list_elem_of_singleton in Hx. now left.
  - destruct (Z.eq_dec k k') as [->|Hne]; intros Hx;
      apply elem_of_cons in Hx as [->|Hx].
    + now left.
    + right. now right.
    + right. left.
    + destruct (IH Hx) as [->|Hd]; [now left | right; now right].
Qed.
End dict_facts.

(** ** Sums *)

Lemma fold_left_Rplus_acc (l : list R) (a : R) :
  fold_left Rplus l a = a + py_sum l.
Proof.
  unfold py_sum. revert a.
  induction l as [|x l IH]; intros a; simpl; [lra |].
  rewrite (IH (a + x)), (IH (0 + x)). lra.
Qed.

Lemma py_sum_cons (x : R) (l : list R) : py_sum (x :: l) = x + py_sum l.
Proof. unfold py_sum at 1. simpl. rewrite fold_left_Rplus_acc. lra. Qed.

Lemma py_sum_nil : py_sum [] = 0.
Proof. reflexivity. Qed.

Lemma py_sum_nonneg (l : list R) : Forall (λ x, 0 <= x) l → 0 <= py_sum l.
Proof.
  induction 1 as [|x l Hx _ IH]; [rewrite py_sum_nil; lra |].
  rewrite py_sum_cons. lra.
Qed.

Lemma py_sum_pos (l : list R) :
  l ≠ [] → Forall (λ x, 0 < x) l → 0 < py_sum l.
Proof.
  intros Hne Hall. destruct Hall as [|x l Hx Hl]; [contradiction |].
  rewrite py_sum_cons.
  assert (0 <= py_sum l); [| lra].
  apply py_sum_nonneg. eapply Forall_impl; [exact Hl |]. simpl. intros; lra.
Qed.

Lemma py_sum_scale (l : list R) (c : R) :
  py_sum (map (λ x, x / c) l) = py_sum l / c.
Proof.
  induction l as [|x l IH]; simpl.
  - rewrite py_sum_nil. unfold Rdiv. lra.
  - rewrite !py_sum_cons, IH. unfold Rdiv. lra.
Qed.

Lemma py_sum_le_elem (l : list R) (x : R) :
  Forall (λ y, 0 <= y) l → x ∈ l → x <= py_sum l.
Proof.
  induction 1 as [|y l Hy Hl IH]; intros Hin; [inversion Hin |].
  rewrite py_sum_cons. apply py_sum_nonneg in Hl as Hs.
  apply elem_of_cons in Hin as [->|Hin]; [lra |].
  specialize (IH Hin). lra.
Qed.

(** ** Expansion *)

Section expand_facts.
Variable policy_logits : Z → R.

#[local] Abbreviation exp_entries := (exp_entries policy_logits).

Lemma policy_fold_inv (actions : list Z) (d : dict R) :
  NoDup (keys d) → exp_entries d →
  let d' := fold_left (λ d a, dict_set a (exp (policy_logits a)) d) actions d in
  NoDup (keys d') ∧ exp_entries d' ∧
  (∀ a, a ∈ keys d' ↔ a ∈ keys d ∨ a ∈ actions).
Proof.
  revert d. induction actions as [|a actions IH]; intros d Hnd He; simpl.
  - split; [exact Hnd |]. split; [exact He |].
    intros a. split; [now left |]. intros [?|Hin]; [assumption | inversion Hin].
  - destruct (IH (dict_set a (exp (policy_logits a)) d)) as (H1 & H2 & H3).
    + now apply NoDup_keys_dict_set.
    + apply Forall_forall. intros x Hx.
      apply elem_of_dict_set in Hx as [->|Hx]; [reflexivity |].
      revert x Hx. now apply Forall_forall.
    + split; [exact H1 |]. split; [exact H2 |].
      intros b. rewrite H3, elem_of_keys_dict_set, elem_of_cons. tauto.
Qed.

Lemma policy_of_spec (actions : list Z) :
  let policy := policy_of actions policy_logits in
  NoDup (keys policy) ∧
  (∀ a, a ∈ keys policy ↔ a ∈ actions) ∧
  policy = map (λ a, (a, exp (policy_logits a))) (keys policy).
Proof.
  destruct (policy_fold_inv actions []) as (H1 & H2 & H3).
  { apply NoDup_nil_2. }
  { apply Forall_nil_2. }
  split; [exact H1 |]. split.
  - intros a. rewrite H3. split; [intros [Hin|?]; [inversion Hin | assumption] | now right].
  - unfold policy_of. revert H2.
    generalize (fold_left (λ d a, dict_set a (exp (policy_logits a)) d) actions []).
    intros d Hd. induction Hd as [|[a p] d Hx _ IH]; [reflexivity |].
    simpl in *. rewrite Hx. f_equal. exact IH.
Qed.

Lemma policy_of_nonempty (actions : list Z) :
  actions ≠ [] → policy_of actions policy_logits ≠ [].
Proof.
  intros Hne Hnil. destruct actions as [|a actions]; [contradiction |].
  destruct (policy_of_spec (a :: actions)) as (_ & Hk & _).
  rewrite Hnil in Hk. specialize (Hk a). simpl in Hk.
  destruct Hk as [_ Hk]. specialize (Hk ltac:(left)). inversion Hk.
Qed.

Lemma policy_sum_pos (actions : list Z) :
  actions ≠ [] → 0 < py_sum (values (policy_of actions policy_logits)).
Proof.
  intros Hne. apply py_sum_pos.
  - intros Hnil. apply (policy_of_nonempty actions Hne).
    unfold values in Hnil. now apply map_eq_nil in Hnil.
  - destruct (policy_of_spec actions) as (_ & _ & Heq).
    rewrite Heq. unfold values. rewrite map_map. simpl.
    apply Forall_forall. intros x Hx.
    apply list_elem_of_fmap in Hx as (a & -> & _). apply exp_pos.
Qed.

Lemma set_children_id (n : Node) : set_children (children n) n = n.
Proof. now destruct n. Qed.

Lemma add_children_closed (self : ref) (denom : R) (policy : dict R) (h : heap) :
  (self < length h)%nat →
  fold_left (add_child self denom) policy h =
  alter (λ n, set_children
                (link_children
                   (zip (keys policy) (seq (length h) (length policy)))
                   (children n)) n)
        self (h ++ map (λ it, Node_init (it.2 / denom)) policy).
Proof.
  revert h. induction policy as [|[a p] policy IH]; intros h Hself.
  - simpl. rewrite app_nil_r.
    symmetry. apply list_alter_id. intros n. apply set_children_id.
  - cbn [fold_left]. unfold add_child at 2. cbn [fst snd].
    rewrite IH by (rewrite length_alter, length_app; simpl; lia).
    rewrite length_alter, length_app, Nat.add_1_r.
    rewrite <- alter_app_l by (rewrite length_app; simpl; lia).
    rewrite <- app_assoc. cbn [app map length seq keys zip zip_with fst snd].
    rewrite list_alter_alter_eq.
    apply list_alter_ext; [| reflexivity].
    intros n _. reflexivity.
Qed.

Lemma expand_closed (self : ref) (actions : list Z) (r : R)
    (hidden : tensor) (h : heap) :
  (self < length h)%nat →
  let policy := policy_of actions policy_logits in
  expand self actions r policy_logits hidden h =
  alter (λ n, set_children
                (link_children
                   (zip (keys policy) (seq (length h) (length policy)))
                   (children n))
                (set_hidden_state (Some hidden) (set_reward r n)))
        self
        (h ++ map (λ it, Node_init (it.2 / py_sum (values policy))) policy).
Proof.
  intros Hself policy. unfold expand. fold policy.
  rewrite add_children_closed by (now rewrite length_alter).
  rewrite length_alter.
  rewrite <- alter_app_l by exact Hself.
  rewrite list_alter_alter_eq.
  apply list_alter_ext; [| reflexivity].
  intros n _. reflexivity.
Qed.
End expand_facts.

Lemma dict_get_link_children_notin (a : Z) (refs : list (Z * ref)) (d : dict ref) :
  a ∉ refs.*1 → dict_get a (link_children refs d) = dict_get a d.
Proof.
  revert d. induction refs as [|[k c] refs IH]; intros d Hni; [reflexivity |].
  simpl in *. rewrite IH.
  - apply dict_get_set_ne. intros ->. apply Hni. left.
  - intros Hin. apply Hni. now right.
Qed.

Lemma dict_get_link_children (ks : list Z) (rs : list ref) (d : dict ref)
    (i : nat) (a : Z) (c : ref) :
  NoDup ks → ks !! i = Some a → rs !! i = Some c →
  dict_get a (link_children (zip ks rs) d) = Some c.
Proof.
  revert rs d i. induction ks as [|k ks IH]; intros rs d i Hnd Hk Hr.
  - destruct i; discriminate.
  - apply NoDup_cons in Hnd as [Hni Hnd].
    destruct rs as [|r rs]; [destruct i; discriminate |].
    destruct i as [|i]; simpl in *.
    + injection Hk as ->. injection Hr as ->.
      rewrite dict_get_link_children_notin; [apply dict_get_set_eq |].
      intros Hin. apply Hni.
      apply list_elem_of_fmap in Hin as ([k' c'] & -> & Hin).
      apply elem_of_zip_l in Hin. exact Hin.
    + now apply (IH rs _ i).
Qed.

Lemma link_children_fresh (ks : list Z) (rs : list ref) (d : dict ref) :
  NoDup ks → (∀ k, k ∈ ks → k ∉ keys d) →
  link_children (zip ks rs) d = d ++ zip ks rs.
Proof.
  revert rs d. induction ks as [|k ks IH]; intros rs d Hnd Hfresh.
  - simpl. now rewrite app_nil_r.
  - destruct rs as [|r rs]; [simpl; now rewrite app_nil_r |].
    apply NoDup_cons in Hnd as [Hni Hnd]. simpl.
    rewrite IH; [| exact Hnd |].
    + rewrite dict_set_fresh by (apply Hfresh; left).
      now rewrite <- app_assoc.
    + intros k' Hk' Hin. apply elem_of_keys_dict_set in Hin as [->|Hin].
      * contradiction.
      * apply (Hfresh k'); [now right | exact Hin].
Qed.

(** What [expand] leaves in the store: the old nodes, [self] with its new
    reward, hidden state and children, and one fresh node per entry of the
    policy dictionary. *)
Section expand_store.
Variables (self : ref) (actions : list Z) (r : R) (policy_logits : Z → R)
          (hidden : tensor) (h : heap).
Hypothesis Hself : (self < length h)%nat.

Let policy := policy_of actions policy_logits.
Let h' := expand self actions r policy_logits hidden h.

Lemma length_expand : length h' = (length h + length (keys policy))%nat.
Proof.
  unfold h'. rewrite expand_closed by exact Hself.
  rewrite length_alter, length_app. unfold keys, policy.
  now rewrite !length_map.
Qed.

Lemma expand_lookup_old (j : ref) :
  (j < length h)%nat → j ≠ self → h' !!! j = h !!! j.
Proof.
  intros Hj Hne. unfold h'. rewrite expand_closed by exact Hself.
  rewrite list_lookup_total_alter_ne by congruence.
  now apply lookup_total_app_l.
Qed.

Lemma expand_lookup_self :
  h' !!! self =
  set_children
    (link_children (zip (keys policy) (seq (length h) (length policy)))
                   (children (h !!! self)))
    (set_hidden_state (Some hidden) (set_reward r (h !!! self))).
Proof.
  unfold h'. rewrite expand_closed by exact Hself.
  rewrite list_lookup_total_alter_eq by (rewrite length_app; lia).
  now rewrite lookup_total_app_l.
Qed.

Lemma expand_lookup_new (i : nat) (a : Z) :
  keys policy !! i = Some a →
  h' !!! (length h + i)%nat =
  Node_init (exp (policy_logits a) / py_sum (values policy)).
Proof.
  intros Hi.
  assert (Hp : policy !! i = Some (a, exp (policy_logits a))).
  { destruct (policy_of_spec policy_logits actions) as (_ & _ & Heq).
    fold policy in Heq. rewrite Heq.
    change (map ?f ?l) with (f <$> l).
    now rewrite list_lookup_fmap, Hi. }
  unfold h'. rewrite expand_closed by exact Hself.
  rewrite list_lookup_total_alter_ne by lia.
  rewrite lookup_total_app_r by lia.
  replace (length h + i - length h)%nat with i by lia.
  apply list_lookup_total_correct.
  change (map ?f ?l) with (f <$> l).
  fold policy. now rewrite list_lookup_fmap, Hp.
Qed.
End expand_store.

Lemma values_policy_of (policy_logits : Z → R) (actions : list Z) :
  values (policy_of actions policy_logits) =
  map (λ a, exp (policy_logits a)) (keys (policy_of actions policy_logits)).
Proof.
  destruct (policy_of_spec policy_logits actions) as (_ & _ & Heq).
  rewrite Heq at 1. unfold values. rewrite map_map. reflexivity.
Qed.

Lemma new_priors (self : ref) (actions : list Z) (r : R)
    (policy_logits : Z → R) (hidden : tensor) (h : heap) :
  (self < length h)%nat →
  let acts := keys (policy_of actions policy_logits) in
  let h' := expand self actions r policy_logits hidden h in
  map (λ c, prior (h' !!! c)) (seq (length h) (length acts)) =
  map (λ a, exp (policy_logits a) / py_sum (map (λ a, exp (policy_logits a)) acts))
      acts.
Proof.
  intros Hself acts h'. apply list_eq. intros i.
  change (map ?f ?l) with (f <$> l).
  rewrite !list_lookup_fmap.
  destruct (acts !! i) as [a|] eqn:Hi; simpl.
  - apply lookup_lt_Some in Hi as Hlt.
    rewrite lookup_seq_lt by exact Hlt. simpl. f_equal.
    unfold h'. rewrite (expand_lookup_new _ _ _ _ _ _ Hself i a Hi).
    simpl. now rewrite values_policy_of.
  - apply lookup_ge_None in Hi.
    rewrite lookup_seq_ge by exact Hi. reflexivity.
Qed.

(** Over the reals, an expansion over a non-empty action list gives every
    new child the softmax weight of its action. *)
Lemma expand_real_softmax (self : ref) (actions : list Z) (r : R)
    (policy_logits : Z → R) (hidden : tensor) (h : heap) :
  (self < length h)%nat → actions ≠ [] →
  let h' := expand self actions r policy_logits hidden h in
  let acts := keys (policy_of actions policy_logits) in
  let denom := py_sum (map (λ a, exp (policy_logits a)) acts) in
  NoDup acts ∧ (∀ a, a ∈ acts ↔ a ∈ actions) ∧
  length h' = (length h + length acts)%nat ∧
  (∀ i a, acts !! i = Some a →
     dict_get a (children (h' !!! self)) = Some (length h + i)%nat ∧
     prior (h' !!! (length h + i)%nat) = exp (policy_logits a) / denom ∧
     0 <= prior (h' !!! (length h + i)%nat) <= 1) ∧
  py_sum (map (λ c, prior (h' !!! c)) (seq (length h) (length acts))) = 1.
Proof.
  intros Hself Hne h' acts denom.
  destruct (policy_of_spec policy_logits actions) as (Hnd & Hin & Heq).
  assert (Hpos : 0 < denom).
  { unfold denom, acts. rewrite <- values_policy_of.
    now apply policy_sum_pos. }
  assert (Hnn : Forall (λ y, 0 <= y) (map (λ a, exp (policy_logits a)) acts)).
  { apply Forall_forall. intros y Hy.
    apply list_elem_of_fmap in Hy as (a & -> & _). left. apply exp_pos. }
  split; [exact Hnd |]. split; [exact Hin |].
  split; [now apply length_expand |]. split.
  - intros i a Hi.
    assert (Hprior : prior (h' !!! (length h + i)%nat)
                     = exp (policy_logits a) / denom).
    { unfold h'. rewrite (expand_lookup_new _ _ _ _ _ _ Hself i a Hi).
      simpl. now rewrite values_policy_of. }
    split; [| split; [exact Hprior |]].
    + unfold h'. rewrite expand_lookup_self by exact Hself. simpl.
      apply (dict_get_link_children _ _ _ i); [exact Hnd | exact Hi |].
      apply lookup_lt_Some in Hi.
      rewrite lookup_seq_lt; [reflexivity |].
      unfold acts, keys in Hi. now rewrite length_map in Hi.
    + rewrite Hprior.
      assert (Hle : exp (policy_logits a) <= denom).
      { apply py_sum_le_elem; [exact Hnn |].
        apply list_elem_of_fmap. exists a. split; [reflexivity |].
        eapply list_elem_of_lookup_2. exact Hi. }
      pose proof (exp_pos (policy_logits a)) as He.
      split.
      * apply Rmult_le_pos; [lra |]. left. now apply Rinv_0_lt_compat.
      * apply (Rmult_le_reg_r denom); [exact Hpos |].
        unfold Rdiv. rewrite Rmult_assoc, Rinv_l by lra. lra.
  - unfold h', acts. rewrite new_priors by exact Hself.
    fold acts. fold denom.
    rewrite <- (map_map (λ a, exp (policy_logits a)) (λ x, x / denom)).
    rewrite py_sum_scale. fold denom. unfold Rdiv. apply Rinv_r. lra.
Qed.

(** ** Selection *)

Lemma lex_le_refl (x : R * Z) : lex_le x x.
Proof. right. split; [reflexivity | lia]. Qed.

Lemma lex_le_trans (x y z : R * Z) : lex_le x y → lex_le y z → lex_le x z.
Proof.
  unfold lex_le. intros [H1|[H1 H1']] [H2|[H2 H2']].
  - left. lra.
  - left. lra.
  - left. lra.
  - right. split; [congruence | lia].
Qed.

Lemma ucb_score_ok (config : Config) (parent child : Node) (mms : MinMaxStats) :
  0 < pb_c_base config →
  ucb_score config parent child mms = Ok (ucb_formula config parent child mms).
Proof.
  intros Hbase. unfold ucb_score, py_div.
  destruct (Req_dec_T (pb_c_base config) 0) as [He|_]; [lra |].
  cbn [mbind result_bind]. unfold math_log.
  set (q := (INR (visit_count parent) + pb_c_base config + 1) / pb_c_base config).
  assert (Hq : 0 < q).
  { unfold q. pose proof (pos_INR (visit_count parent)).
    apply Rdiv_lt_0_compat; lra. }
  destruct (Rle_dec q 0) as [Hle|_]; [lra |].
  cbn [mbind result_bind]. f_equal. unfold ucb_formula. fold q.
  unfold Rdiv. ring.
Qed.

Lemma tuple_gt_ne (s1 s2 : R) (a1 a2 : Z) (c1 c2 : ref) :
  a1 ≠ a2 →
  ∃ b : bool, tuple_gt (s1, a1, c1) (s2, a2, c2) = Ok b ∧
    if b then lex_le (s2, a2) (s1, a1) else lex_le (s1, a1) (s2, a2).
Proof.
  intros Hne. unfold tuple_gt, lex_le. simpl.
  destruct (Req_dec_T s1 s2) as [->|Hs].
  - destruct (Z.eq_dec a1 a2) as [|_]; [contradiction |].
    exists (a1 >? a2)%Z. split; [reflexivity |].
    destruct (Z.gtb_spec a1 a2); right; split; try reflexivity; lia.
  - destruct (Rgt_dec s1 s2) as [Hgt|Hngt].
    + exists true. split; [reflexivity |]. left. lra.
    + exists false. split; [reflexivity |]. left. lra.
Qed.

Section select_child_facts.
Variables (config : Config) (parent : Node) (mms : MinMaxStats) (h : heap).
Hypothesis Hbase : 0 < pb_c_base config.

Let score (c : ref) : R := ucb_formula config parent (h !!! c) mms.

Lemma max_scored_spec (items : dict ref) (ab : Z) (cb : ref) :
  ab ∉ keys items → NoDup (keys items) →
  ∃ a c,
    max_scored config parent mms h (score cb, ab, cb) items
      = Ok (score c, a, c) ∧
    ((a, c) = (ab, cb) ∨ (a, c) ∈ items) ∧
    lex_le (score cb, ab) (score c, a) ∧
    ∀ a' c', (a', c') ∈ items → lex_le (score c', a') (score c, a).
Proof.
  revert ab cb. induction items as [|[a1 c1] items IH]; intros ab cb Hni Hnd.
  - exists ab, cb. split; [reflexivity |]. split; [now left |].
    split; [apply lex_le_refl |]. intros a' c' Hin. inversion Hin.
  - cbn [max_scored]. rewrite ucb_score_ok by exact Hbase.
    cbn [mbind result_bind]. fold (score c1).
    change (keys ((a1, c1) :: items)) with (a1 :: keys items) in *.
    apply NoDup_cons in Hnd as [Hni1 Hnd].
    apply not_elem_of_cons in Hni as [Hne Hni].
    destruct (tuple_gt_ne (score c1) (score cb) a1 ab c1 cb) as (b & -> & Hb);
      [congruence |].
    cbn [mbind result_bind]. destruct b.
    + destruct (IH a1 c1 Hni1 Hnd) as (a & c & Hmax & Hmem & Hle & Hall).
      exists a, c. split; [exact Hmax |]. split.
      { destruct Hmem as [[= -> ->]|Hmem]; right; [left | now right]. }
      split; [eapply lex_le_trans; eassumption |].
      intros a' c' Hin. apply elem_of_cons in Hin as [[= -> ->]|Hin].
      * exact Hle.
      * now apply Hall.
    + destruct (IH ab cb Hni Hnd) as (a & c & Hmax & Hmem & Hle & Hall).
      exists a, c. split; [exact Hmax |]. split.
      { destruct Hmem as [Hmem|Hmem]; [now left | right; now right]. }
      split; [exact Hle |].
      intros a' c' Hin. apply elem_of_cons in Hin as [[= -> ->]|Hin].
      * eapply lex_le_trans; eassumption.
      * now apply Hall.
Qed.
End select_child_facts.

Lemma select_child_spec (config : Config) (node : ref) (mms : MinMaxStats)
    (h : heap) :
  0 < pb_c_base config →
  children (h !!! node) ≠ [] →
  NoDup (keys (children (h !!! node))) →
  let score c := ucb_formula config (h !!! node) (h !!! c) mms in
  ∃ action child,
    select_child config node mms h = Ok (action, child) ∧
    (action, child) ∈ children (h !!! node) ∧
    ∀ a' c', (a', c') ∈ children (h !!! node) →
      lex_le (score c', a') (score child, action).
Proof.
  intros Hbase Hne Hnd score.
  unfold select_child.
  destruct (children (h !!! node)) as [|[a0 c0] items] eqn:Hch; [contradiction |].
  rewrite ucb_score_ok by exact Hbase. cbn [mbind result_bind].
  change (keys ((a0, c0) :: items)) with (a0 :: keys items) in Hnd.
  apply NoDup_cons in Hnd as [Hni Hnd].
  destruct (max_scored_spec config (h !!! node) mms h Hbase items a0 c0 Hni Hnd)
    as (a & c & Hmax & Hmem & Hle & Hall).
  rewrite Hmax. cbn [mbind result_bind fst snd].
  exists a, c. split; [reflexivity |]. split.
  { destruct Hmem as [[= -> ->]|Hmem]; [left | now right]. }
  intros a' c' Hin. apply elem_of_cons in Hin as [[= -> ->]|Hin].
  - exact Hle.
  - now apply Hall.
Qed.

(** C4. [select_child] returns a child of the node whose pair
    [(UCB score, action)] is the greatest: no child has a larger score,
    and among children of the same score it is the one with the largest
    action identifier.  The score is the formula of the design. *)
Theorem select_child_max (config : Config) (node : ref) (mms : MinMaxStats)
    (h : heap) :
  0 < pb_c_base config →
  children (h !!! node) ≠ [] →
  NoDup (keys (children (h !!! node))) →
  let score c := ucb_formula config (h !!! node) (h !!! c) mms in
  (∀ c, ucb_score config (h !!! node) (h !!! c) mms = Ok (score c)) ∧
  ∃ action child,
    select_child config node mms h = Ok (action, child) ∧
    (action, child) ∈ children (h !!! node) ∧
    ∀ a' c', (a', c') ∈ children (h !!! node) →
      score c' < score child ∨ (score c' = score child ∧ (a' <= action)%Z).
Proof.
  intros Hbase Hne Hnd score. split.
  - intros c. now apply ucb_score_ok.
  - exact (select_child_spec config node mms h Hbase Hne Hnd).
Qed.

(** ** Backpropagation *)

Lemma backpropagate_cons (config : Config) (node : ref) (path : list ref)
    (v : R) (mms : MinMaxStats) (h : heap) :
  let h1 := alter (λ n, set_visit_count (visit_count n + 1) n) node
              (alter (λ n, set_value_sum (value_sum n + v) n) node h) in
  backpropagate config (node :: path) v mms h =
  backpropagate config path (reward (h1 !!! node) + discount config * v)
                (update mms (value (h1 !!! node))) h1.
Proof. reflexivity. Qed.

(** C1 (the code walks the other way).  On the path [[root; child]] that
    [run] builds, [backpropagate] gives the carried value [4] to the root
    and the rewritten value [0 + 1/2 * 4 = 2] to the child; walking from
    the leaf to the root gives [4] to the child and [1 + 1/2 * 4 = 3] to
    the root. *)
Theorem backpropagate_walks_root_first :
  let root_first :=
    (backpropagate half_discount [0; 1]%nat 4 MinMaxStats_init two_node_tree).1 in
  let leaf_first :=
    (backpropagate_leaf_to_root half_discount [0; 1]%nat 4 MinMaxStats_init
       two_node_tree).1 in
  (value_sum (root_first !!! 0%nat) = 4 ∧ value_sum (root_first !!! 1%nat) = 2) ∧
  (value_sum (leaf_first !!! 1%nat) = 4 ∧ value_sum (leaf_first !!! 0%nat) = 3).
Proof.
  cbn. repeat split; lra.
Qed.

Lemma keys_policy_fold (policy_logits : Z → R) (actions : list Z) (d : dict R) :
  keys (fold_left (λ d a, dict_set a (exp (policy_logits a)) d) actions d) =
  fold_left (λ acc a, if decide (a ∈ acc) then acc else acc ++ [a]) actions
            (keys d).
Proof.
  revert d. induction actions as [|a actions IH]; intros d; [reflexivity |].
  simpl. rewrite IH, keys_dict_set. reflexivity.
Qed.

Lemma keys_policy_of (policy_logits : Z → R) (actions : list Z) :
  keys (policy_of actions policy_logits) = first_occurrences actions.
Proof. apply keys_policy_fold. Qed.

Lemma first_occurrences_spec (actions : list Z) :
  NoDup (first_occurrences actions) ∧
  (∀ a, a ∈ first_occurrences actions ↔ a ∈ actions).
Proof.
  rewrite <- (keys_policy_of (λ _, 0)).
  destruct (policy_of_spec (λ _, 0) actions) as (H1 & H2 & _). now split.
Qed.

Lemma first_occurrences_nonempty (actions : list Z) :
  actions ≠ [] → first_occurrences actions ≠ [].
Proof.
  intros Hne Hnil. destruct actions as [|a actions]; [contradiction |].
  destruct (first_occurrences_spec (a :: actions)) as [_ H].
  specialize (H a). rewrite Hnil in H. destruct H as [_ H].
  specialize (H ltac:(left)). inversion H.
Qed.

Lemma length_first_occurrences (actions : list Z) :
  (length (first_occurrences actions) <= length actions)%nat.
Proof.
  unfold first_occurrences.
  enough (∀ acc, (length (fold_left
            (λ acc a, if decide (a ∈ acc) then acc else acc ++ [a]) actions acc)
          <= length acc + length actions)%nat) as H by apply (H []).
  induction actions as [|a actions IH]; intros acc; simpl; [lia |].
  specialize (IH (if decide (a ∈ acc) then acc else acc ++ [a])).
  destruct (decide (a ∈ acc)); [lia |].
  rewrite length_app in IH. simpl in IH. lia.
Qed.

(** ** What backpropagation and noise leave alone *)

Lemma same_links_refl (n : Node) : same_links n n.
Proof. now repeat split. Qed.

Lemma same_links_trans (n1 n2 n3 : Node) :
  same_links n1 n2 → same_links n2 n3 → same_links n1 n3.
Proof. unfold same_links. intros (?&?&?) (?&?&?). repeat split; congruence. Qed.

Lemma tree_wf_same_links (actions : list Z) (h h' : heap) :
  tree_wf actions h → length h' = length h →
  (∀ j, same_links (h !!! j) (h' !!! j)) → tree_wf actions h'.
Proof.
  intros [Hk Hh Hr] Hlen Hsame. split.
  - intros i Hi. destruct (Hsame i) as (-> & _ & _). apply Hk. lia.
  - intros i Hi. destruct (Hsame i) as (-> & -> & _). apply Hh. lia.
  - intros i a c Hi. destruct (Hsame i) as (-> & _ & _). rewrite Hlen.
    apply Hr. lia.
Qed.

Lemma backpropagate_step_lookup (config : Config) (h : heap)
    (mms : MinMaxStats) (v : R) (node j : ref) :
  let h' := (backpropagate_step config (h, mms, v) node).1.1 in
  length h' = length h ∧
  same_links (h !!! j) (h' !!! j) ∧
  prior (h' !!! j) = prior (h !!! j) ∧
  visit_count (h' !!! j) =
    if decide (node = j ∧ (node < length h)%nat)
    then (visit_count (h !!! j) + 1)%nat else visit_count (h !!! j).
Proof.
  cbn. rewrite !length_alter. split; [reflexivity |].
  rewrite !list_lookup_total_alter, !length_alter.
  destruct (decide (node = j ∧ (node < length h)%nat)) as [[-> Hlt]|Hn].
  - rewrite decide_True by done. now repeat split.
  - now repeat split.
Qed.

Lemma backpropagate_shape (config : Config) (path : list ref) (v : R)
    (mms : MinMaxStats) (h : heap) :
  let h' := (backpropagate config path v mms h).1 in
  length h' = length h ∧
  (∀ j, same_links (h !!! j) (h' !!! j) ∧ prior (h' !!! j) = prior (h !!! j)) ∧
  (∀ j, (j < length h)%nat →
        visit_count (h' !!! j)
        = (visit_count (h !!! j) + count_occ Nat.eq_dec path j)%nat).
Proof.
  unfold backpropagate. revert v mms h.
  induction path as [|node path IH]; intros v mms h.
  - simpl. split; [reflexivity |]. split.
    + intros j. split; [apply same_links_refl | reflexivity].
    + intros j _. lia.
  - cbn [fold_left].
    destruct (backpropagate_step config (h, mms, v) node) as [[h1 mms1] v1] eqn:Hst.
    assert (Hstep : ∀ j,
      length h1 = length h ∧ same_links (h !!! j) (h1 !!! j) ∧
      prior (h1 !!! j) = prior (h !!! j) ∧
      visit_count (h1 !!! j) =
        if decide (node = j ∧ (node < length h)%nat)
        then (visit_count (h !!! j) + 1)%nat else visit_count (h !!! j)).
    { intros j. pose proof (backpropagate_step_lookup config h mms v node j) as H.
      rewrite Hst in H. exact H. }
    destruct (IH v1 mms1 h1) as (Hlen & Hsame & Hvc).
    split; [destruct (Hstep 0%nat) as [Hl _]; congruence |]. split.
    + intros j. destruct (Hstep j) as (_ & Hs1 & Hp1 & _).
      destruct (Hsame j) as [Hs2 Hp2].
      split; [eapply same_links_trans; eassumption | congruence].
    + intros j Hj. destruct (Hstep j) as (Hl1 & _ & _ & Hv1).
      rewrite Hvc by lia. rewrite Hv1. cbn [count_occ].
      destruct (Nat.eq_dec node j) as [->|Hne].
      * rewrite decide_True by done. lia.
      * rewrite decide_False by tauto. lia.
Qed.

Lemma add_exploration_noise_shape (self : ref) (noise : list R) (frac : R)
    (h : heap) :
  let h' := add_exploration_noise self noise frac h in
  length h' = length h ∧
  ∀ j, same_links (h !!! j) (h' !!! j) ∧
       visit_count (h' !!! j) = visit_count (h !!! j).
Proof.
  unfold add_exploration_noise.
  generalize (zip (keys (children (h !!! self))) noise). intros l.
  revert h. induction l as [|[a n] l IH]; intros h.
  - simpl. split; [reflexivity |]. intros j.
    split; [apply same_links_refl | reflexivity].
  - cbn [fold_left fst snd].
    match goal with |- context [fold_left _ l ?x] => set (h1 := x) end.
    assert (H1 : length h1 = length h ∧
                 ∀ j, same_links (h !!! j) (h1 !!! j) ∧
                      visit_count (h1 !!! j) = visit_count (h !!! j)).
    { unfold h1. destruct (dict_get a (children (h !!! self))) as [c|].
      - rewrite length_alter. split; [reflexivity |]. intros j.
        rewrite list_lookup_total_alter.
        case_decide as Hd; [destruct Hd as [-> _] |]; now repeat split.
      - split; [reflexivity |]. intros j.
        split; [apply same_links_refl | reflexivity]. }
    destruct H1 as [Hl1 Hs1]. destruct (IH h1) as [Hl2 Hs2].
    split; [congruence |]. intros j.
    destruct (Hs1 j) as [? ?], (Hs2 j) as [? ?].
    split; [eapply same_links_trans; eassumption | congruence].
Qed.

(** ** Expansion keeps the tree well formed *)

Section expand_wf.
Variables (self : ref) (actions : list Z) (r : R) (policy_logits : Z → R)
          (hidden : tensor) (h : heap).
Hypothesis Hself : (self < length h)%nat.
Hypothesis Hleaf : children (h !!! self) = [].

Let acts := first_occurrences actions.
Let h' := expand self actions r policy_logits hidden h.

Lemma length_expand_leaf : length h' = (length h + length acts)%nat.
Proof.
  unfold h', acts. rewrite length_expand by exact Hself.
  now rewrite keys_policy_of.
Qed.

Lemma expand_leaf_self :
  h' !!! self =
  set_children (zip acts (seq (length h) (length acts)))
    (set_hidden_state (Some hidden) (set_reward r (h !!! self))).
Proof.
  unfold h'. rewrite expand_lookup_self by exact Hself.
  rewrite Hleaf, keys_policy_of. fold acts.
  replace (length (policy_of actions policy_logits)) with (length acts).
  - rewrite link_children_fresh; [reflexivity | |].
    + apply first_occurrences_spec.
    + intros k _ Hin. inversion Hin.
  - unfold acts. rewrite <- (keys_policy_of policy_logits).
    unfold keys. now rewrite length_map.
Qed.

Lemma expand_leaf_cases (i : ref) :
  (i < length h')%nat →
  i = self ∨
  ((i < length h)%nat ∧ i ≠ self ∧ h' !!! i = h !!! i) ∨
  ((length h <= i)%nat ∧ ∃ p, h' !!! i = Node_init p).
Proof.
  intros Hi. rewrite length_expand_leaf in Hi.
  destruct (decide (i = self)) as [|Hne]; [now left | right].
  destruct (decide (i < length h)%nat) as [Hlt|Hge].
  - left. split; [exact Hlt |]. split; [exact Hne |].
    now apply expand_lookup_old.
  - right. split; [lia |].
    destruct (lookup_lt_is_Some_2 acts (i - length h)) as [a Ha]; [lia |].
    unfold acts in Ha. rewrite <- (keys_policy_of policy_logits) in Ha.
    eexists. unfold h'.
    replace i with (length h + (i - length h))%nat at 1 by lia.
    exact (expand_lookup_new self actions r policy_logits hidden h Hself
             _ a Ha).
Qed.

Lemma expand_tree_wf : tree_wf actions h → tree_wf actions h'.
Proof.
  intros [Hk Hh Hr].
  assert (Hzip : keys (zip acts (seq (length h) (length acts))) = acts).
  { apply fst_zip. now rewrite length_seq. }
  split.
  - intros i Hi.
    destruct (expand_leaf_cases i Hi) as [->|[(Hlt & _ & ->)|(_ & p & ->)]].
    + right. rewrite expand_leaf_self. exact Hzip.
    + now apply Hk.
    + now left.
  - intros i Hi Hne.
    destruct (expand_leaf_cases i Hi) as [->|[(Hlt & _ & Heq)|(_ & p & Heq)]].
    + rewrite expand_leaf_self. now eexists.
    + rewrite Heq in *. now apply Hh.
    + rewrite Heq in Hne. contradiction.
  - intros i a c Hi Hin. rewrite length_expand_leaf.
    destruct (expand_leaf_cases i Hi) as [->|[(Hlt & _ & Heq)|(_ & p & Heq)]].
    + rewrite expand_leaf_self in Hin. cbn in Hin.
      apply elem_of_zip_r in Hin. apply elem_of_seq in Hin. lia.
    + rewrite Heq in Hin. specialize (Hr i a c Hlt Hin). lia.
    + rewrite Heq in Hin. inversion Hin.
Qed.

Lemma expand_visit_count (j : ref) :
  (j < length h)%nat → visit_count (h' !!! j) = visit_count (h !!! j).
Proof.
  intros Hj. destruct (decide (j = self)) as [->|Hne].
  - now rewrite expand_leaf_self.
  - unfold h'. now rewrite expand_lookup_old.
Qed.

End expand_wf.

(** ** The descent to a leaf *)

Lemma expanded_true (n : Node) : expanded n = true ↔ children n ≠ [].
Proof.
  unfold expanded. destruct (children n); simpl; split; try done.
Qed.

Lemma expanded_false (n : Node) : expanded n = false ↔ children n = [].
Proof.
  unfold expanded. destruct (children n); simpl; split; try done.
Qed.

Lemma penultimate_snoc {A : Type} (l : list A) (x y : A) :
  penultimate (l ++ [x; y]) = Ok x.
Proof. unfold penultimate. rewrite rev_app_distr. reflexivity. Qed.

Section descent_facts.
Variables (config : Config) (mms : MinMaxStats) (h : heap).
Hypothesis Hbase : 0 < pb_c_base config.
Hypothesis Hwf : tree_wf (action_space config) h.

Lemma select_child_wf (node : ref) :
  (node < length h)%nat → expanded (h !!! node) = true →
  ∃ a c, select_child config node mms h = Ok (a, c) ∧
         (a, c) ∈ children (h !!! node) ∧ (node < c < length h)%nat.
Proof.
  intros Hlt Hexp. apply expanded_true in Hexp.
  destruct (select_child_spec config node mms h Hbase Hexp)
    as (a & c & Hsel & Hin & _).
  - destruct (wf_keys _ _ Hwf node Hlt) as [Hnil| ->]; [contradiction |].
    apply first_occurrences_spec.
  - exists a, c. split; [exact Hsel |]. split; [exact Hin |].
    exact (wf_refs _ _ Hwf node a c Hlt Hin).
Qed.

Lemma descend_ok (fuel : nat) :
  ∀ node path la,
    (node < length h)%nat → (length h <= fuel + node)%nat →
    ∃ ext leaf la',
      descend config fuel node path la mms h = Ok (leaf, path ++ ext, la') ∧
      descent config mms h node ext leaf la la'.
Proof.
  induction fuel as [|fuel IH]; intros node path la Hlt Hfuel.
  - lia.
  - cbn [descend].
    destruct (expanded (h !!! node)) eqn:Hexp.
    + destruct (select_child_wf node Hlt Hexp) as (a & c & Hsel & Hin & Hc).
      rewrite Hsel. cbn [mbind result_bind].
      destruct (IH c (path ++ [c]) (Some a)) as (ext & leaf & la' & Hd & Hrel);
        [lia | lia |].
      exists (c :: ext), leaf, la'. split.
      * rewrite Hd. now rewrite <- app_assoc.
      * econstructor; eassumption.
    + exists [], node, la. split; [now rewrite app_nil_r |].
      now constructor.
Qed.

Lemma descent_bounds (n : ref) (ext : list ref) (leaf : ref)
    (la la' : option Z) :
  descent config mms h n ext leaf la la' → (n < length h)%nat →
  Forall (λ c, n < c < length h)%nat ext ∧
  (n <= leaf < length h)%nat ∧
  expanded (h !!! leaf) = false ∧
  (ext = [] → leaf = n) ∧
  (n ∈ ext → False) ∧ NoDup ext ∧ (leaf ≠ n → leaf ∈ ext).
Proof.
  induction 1 as [n la Hleaf | n a c ext leaf la la' Hexp Hsel Hd IH];
    intros Hlt.
  - split; [constructor |]. split; [lia |]. split; [exact Hleaf |].
    split; [done |]. split; [intros Hin; inversion Hin |].
    split; [constructor | done].
  - destruct (select_child_wf n Hlt Hexp) as (a' & c' & Hsel' & Hin & Hc).
    rewrite Hsel in Hsel'. injection Hsel' as <- <-.
    destruct (IH ltac:(lia)) as (Hall & Hleaf & Hnexp & Hnil & Hnotin & Hnd & Hmem).
    assert (Hall' : Forall (λ c0, n < c0 < length h)%nat ext).
    { eapply Forall_impl; [exact Hall |]. simpl. intros; lia. }
    split; [constructor; [lia | exact Hall'] |].
    split; [lia |]. split; [exact Hnexp |]. split; [discriminate |].
    split.
    { intros Hn. apply elem_of_cons in Hn as [->|Hn]; [lia |].
      rewrite Forall_forall in Hall'. specialize (Hall' n Hn). lia. }
    split.
    { apply NoDup_cons. split; [exact Hnotin | exact Hnd]. }
    intros _. destruct (decide (leaf = c)) as [->|Hne]; [left |].
    right. now apply Hmem.
Qed.

Lemma descent_parent (n : ref) (ext : list ref) (leaf : ref)
    (la la' : option Z) :
  descent config mms h n ext leaf la la' → (n < length h)%nat →
  ext ≠ [] →
  ∀ pre, ∃ parent a,
    penultimate (pre ++ n :: ext) = Ok parent ∧ la' = Some a ∧
    (parent < length h)%nat ∧ expanded (h !!! parent) = true ∧
    select_child config parent mms h = Ok (a, leaf).
Proof.
  induction 1 as [n la Hleaf | n a c ext leaf la la' Hexp Hsel Hd IH];
    intros Hlt Hne pre; [contradiction |].
  destruct (select_child_wf n Hlt Hexp) as (a' & c' & Hsel' & Hin & Hc).
  rewrite Hsel in Hsel'. injection Hsel' as <- <-.
  destruct ext as [|c2 ext].
  - inversion Hd; subst. exists n, a.
    split; [apply penultimate_snoc |]. now repeat split.
  - destruct (IH ltac:(lia) ltac:(discriminate) (pre ++ [n]))
      as (parent & a2 & Hpen & Hla & Hp & Hpexp & Hpsel).
    exists parent, a2. rewrite <- app_assoc in Hpen. now repeat split.
Qed.
End descent_facts.

(** ** One simulation *)

Lemma root_allocated (h : heap) : children (h !!! 0%nat) ≠ [] → (0 < length h)%nat.
Proof. destruct h; [intros H; now contradiction H | simpl; lia]. Qed.

Section simulate_facts.
Variables (config : Config) (model : Model) (fuel : nat) (s : Search).
Hypothesis Hbase : 0 < pb_c_base config.
Hypothesis Hwf : tree_wf (action_space config) (tree s).
Hypothesis Hroot : children (tree s !!! 0%nat) ≠ [].
Hypothesis Hfuel : (length (tree s) <= fuel)%nat.

Lemma simulate_spec :
  ∃ ext leaf a parent hid,
    descent config (stats s) (tree s) 0%nat ext leaf None (Some a) ∧
    ext ≠ [] ∧
    penultimate (0%nat :: ext) = Ok parent ∧
    hidden_state (tree s !!! parent) = Some hid ∧
    select_child config parent (stats s) (tree s) = Ok (a, leaf) ∧
    simulate config model fuel 0%nat s =
    Ok (let '(v, r, logits, hid') := recurrent_inference model hid a in
        let h1 := expand leaf (action_space config) r logits hid' (tree s) in
        let bp := backpropagate config (0%nat :: ext) v (stats s) h1 in
        {| tree := bp.1; stats := bp.2;
           backprops := backprops s ++ [(0%nat :: ext, v)] |}).
Proof.
  pose proof (root_allocated _ Hroot) as Hlen.
  destruct (descend_ok config (stats s) (tree s) Hbase Hwf fuel 0%nat
              [0%nat] None Hlen ltac:(lia))
    as (ext & leaf & la' & Hd & Hrel).
  assert (Hne : ext ≠ []).
  { intros ->. inversion Hrel as [n la Hleaf|]; subst.
    apply expanded_false in Hleaf. contradiction. }
  destruct (descent_parent config (stats s) (tree s) Hbase Hwf _ _ _ _ _
              Hrel Hlen Hne [])
    as (parent & a & Hpen & -> & Hp & Hpexp & Hpsel).
  destruct (wf_hidden _ _ Hwf parent Hp) as [hid Hhid].
  { now apply expanded_true. }
  exists ext, leaf, a, parent, hid.
  split; [exact Hrel |]. split; [exact Hne |]. split; [exact Hpen |].
  split; [exact Hhid |]. split; [exact Hpsel |].
  unfold simulate. rewrite Hd. cbn [mbind result_bind app].
  simpl in Hpen. rewrite Hpen. cbn [mbind result_bind]. rewrite Hhid.
  cbn [mbind result_bind].
  destruct (recurrent_inference model hid a) as [[[v r] logits] hid'].
  destruct (backpropagate config (0%nat :: ext) v (stats s)
              (expand leaf (action_space config) r logits hid' (tree s)))
    as [h2 mms2]. reflexivity.
Qed.

Lemma simulate_post :
  ∃ s' path v,
    simulate config model fuel 0%nat s = Ok s' ∧
    tree_wf (action_space config) (tree s') ∧
    children (tree s' !!! 0%nat) = children (tree s !!! 0%nat) ∧
    length (tree s') =
      (length (tree s) + length (first_occurrences (action_space config)))%nat ∧
    visit_count (tree s' !!! 0%nat) = (visit_count (tree s !!! 0%nat) + 1)%nat ∧
    backprops s' = backprops s ++ [(path, v)] ∧
    (∀ j, (j < length (tree s))%nat →
          (visit_count (tree s !!! j) <= visit_count (tree s' !!! j))%nat) ∧
    ∃ a c, (a, c) ∈ children (tree s !!! 0%nat) ∧
           (0 < visit_count (tree s' !!! c))%nat.
Proof.
  pose proof (root_allocated _ Hroot) as Hlen.
  destruct simulate_spec
    as (ext & leaf & a & parent & hid & Hrel & Hne & _ & _ & _ & Hsim).
  destruct (descent_bounds config (stats s) (tree s) Hbase Hwf _ _ _ _ _
              Hrel Hlen)
    as (Hall & Hleaf & Hnexp & _ & Hnotin & _ & _).
  apply expanded_false in Hnexp.
  destruct (recurrent_inference model hid a) as [[[v r] logits] hid'].
  cbv zeta in Hsim.
  set (h1 := expand leaf (action_space config) r logits hid' (tree s)) in *.
  destruct (backpropagate_shape config (0%nat :: ext) v (stats s) h1)
    as (Hblen & Hbsame & Hbvc).
  assert (Hl1 : length h1 = (length (tree s)
                  + length (first_occurrences (action_space config)))%nat).
  { exact (length_expand_leaf leaf _ r logits hid' (tree s) ltac:(lia)). }
  assert (Hwf1 : tree_wf (action_space config) h1).
  { exact (expand_tree_wf leaf _ r logits hid' (tree s) ltac:(lia) Hnexp Hwf). }
  assert (Hleaf0 : leaf ≠ 0%nat).
  { intros ->. contradiction. }
  assert (Hold : ∀ j, (j < length (tree s))%nat →
                      visit_count (h1 !!! j) = visit_count (tree s !!! j)).
  { intros j Hj. unfold h1.
    now rewrite expand_visit_count by (lia || exact Hnexp). }
  eexists _, (0%nat :: ext), v. split; [exact Hsim |]. cbn [tree backprops].
  split.
  { eapply tree_wf_same_links; [exact Hwf1 | exact Hblen |].
    intros j. apply Hbsame. }
  split.
  { destruct (Hbsame 0%nat) as [(-> & _) _].
    unfold h1. now rewrite expand_lookup_old by (lia || congruence). }
  split; [congruence |]. split.
  { rewrite Hbvc, Hold by lia.
    cbn [count_occ]. destruct (Nat.eq_dec 0 0) as [_|]; [| done].
    rewrite (proj1 (count_occ_not_In Nat.eq_dec ext 0%nat)); [lia |].
    intros Hin. apply Hnotin. now apply list_elem_of_In. }
  split; [reflexivity |]. split.
  { intros j Hj. rewrite Hbvc, Hold by lia. lia. }
  inversion Hrel as [|n a1 c1 ext' leaf' la la' Hexp Hsel Hrest]; subst.
  destruct (select_child_wf config (stats s) (tree s) Hbase Hwf 0%nat Hlen Hexp)
    as (a2 & c2 & Hsel2 & Hin & Hc).
  rewrite Hsel in Hsel2. injection Hsel2 as <- <-.
  exists a1, c1. split; [exact Hin |].
  rewrite Hbvc by lia.
  assert (0 < count_occ Nat.eq_dec (0%nat :: c1 :: ext') c1)%nat; [| lia].
  apply count_occ_In. right. left. reflexivity.
Qed.
End simulate_facts.

(** ** The planning call *)

Lemma simulations_post (config : Config) (model : Model) (fuel n : nat) :
  0 < pb_c_base config →
  ∀ s,
    tree_wf (action_space config) (tree s) →
    children (tree s !!! 0%nat) ≠ [] →
    (length (tree s)
     + n * length (first_occurrences (action_space config)) <= fuel)%nat →
    ∃ s',
      simulations config model fuel 0%nat n s = Ok s' ∧
      tree_wf (action_space config) (tree s') ∧
      children (tree s' !!! 0%nat) = children (tree s !!! 0%nat) ∧
      length (tree s') =
        (length (tree s)
         + n * length (first_occurrences (action_space config)))%nat ∧
      visit_count (tree s' !!! 0%nat) = (visit_count (tree s !!! 0%nat) + n)%nat ∧
      length (backprops s') = (length (backprops s) + n)%nat ∧
      (∀ j, (j < length (tree s))%nat →
            (visit_count (tree s !!! j) <= visit_count (tree s' !!! j))%nat) ∧
      ((0 < n)%nat →
       ∃ a c, (a, c) ∈ children (tree s !!! 0%nat) ∧
              (0 < visit_count (tree s' !!! c))%nat).
Proof.
  intros Hbase.
  induction n as [|n IH]; intros s Hwf Hroot Hfuel.
  - exists s. cbn [simulations].
    rewrite Nat.mul_0_l, !Nat.add_0_r.
    split; [reflexivity |]. split; [exact Hwf |]. split; [reflexivity |].
    repeat split; try done; lia.
  - cbn [simulations].
    rewrite Nat.mul_succ_l in Hfuel.
    destruct (simulate_post config model fuel s Hbase Hwf Hroot ltac:(lia))
      as (s1 & path & v & Hsim & Hwf1 & Hch1 & Hlen1 & Hvc1 & Hbp1
          & Hmono1 & a & c & Hin & Hvis).
    rewrite Hsim. cbn [mbind result_bind].
    destruct (IH s1 Hwf1 ltac:(congruence) ltac:(lia))
      as (s' & Hsims & Hwf' & Hch' & Hlen' & Hvc' & Hbp' & Hmono' & _).
    exists s'. split; [exact Hsims |]. split; [exact Hwf' |].
    split; [congruence |]. split; [lia |]. split; [lia |].
    split; [rewrite Hbp', Hbp1, length_app; simpl; lia |].
    split.
    { intros j Hj. specialize (Hmono1 j Hj).
      specialize (Hmono' j ltac:(lia)). lia. }
    intros _. exists a, c. split; [exact Hin |].
    pose proof (wf_refs _ _ Hwf 0%nat a c (root_allocated _ Hroot) Hin).
    specialize (Hmono' c ltac:(lia)). lia.
Qed.

Lemma tree_wf_fresh_root (actions : list Z) (p : R) :
  tree_wf actions [Node_init p].
Proof.
  split.
  - intros i Hi. left. destruct i; [reflexivity | simpl in Hi; lia].
  - intros i Hi Hne. destruct i; [contradiction | simpl in Hi; lia].
  - intros i a c Hi Hin. destruct i; [inversion Hin | simpl in Hi; lia].
Qed.

Section run_facts.
Variables (config : Config) (model : Model) (fuel : nat)
          (observation : tensor) (add_noise : bool) (noise : list R).
Hypothesis Hbase : 0 < pb_c_base config.
Hypothesis Hactions : action_space config ≠ [].
Hypothesis Hfuel :
  (1 + (num_simulations config + 1) * length (action_space config)
   <= fuel)%nat.

Lemma run_post :
  ∃ s,
    run config model fuel observation add_noise noise = Ok (0%nat, s) ∧
    tree_wf (action_space config) (tree s) ∧
    children (tree s !!! 0%nat) ≠ [] ∧
    visit_count (tree s !!! 0%nat) = num_simulations config ∧
    length (backprops s) = num_simulations config ∧
    ((0 < num_simulations config)%nat →
     ∃ a c, (a, c) ∈ children (tree s !!! 0%nat) ∧
            (0 < visit_count (tree s !!! c))%nat).
Proof.
  unfold run.
  destruct (initial_inference model observation) as [[[v0 r0] logits] hid].
  set (h0 := expand 0%nat (action_space config) r0 logits hid [Node_init 0]).
  set (h1 := if add_noise
             then add_exploration_noise 0%nat noise
                    (root_exploration_fraction config) h0
             else h0).
  set (m := length (first_occurrences (action_space config))).
  assert (Hm : (m <= length (action_space config))%nat)
    by apply length_first_occurrences.
  assert (Hwf0 : tree_wf (action_space config) h0).
  { apply expand_tree_wf; [simpl; lia | reflexivity |].
    apply tree_wf_fresh_root. }
  assert (Hlen0 : length h0 = (1 + m)%nat).
  { unfold h0. rewrite length_expand_leaf by (simpl; lia). reflexivity. }
  assert (Hroot0 : children (h0 !!! 0%nat) ≠ []).
  { unfold h0. rewrite expand_leaf_self by (simpl; lia || reflexivity).
    cbn [children set_children].
    pose proof (first_occurrences_nonempty _ Hactions) as Hne.
    destruct (first_occurrences (action_space config)); [contradiction |].
    discriminate. }
  assert (Hvc0 : visit_count (h0 !!! 0%nat) = 0%nat).
  { unfold h0. rewrite expand_visit_count by (simpl; lia || reflexivity).
    reflexivity. }
  assert (H1 : length h1 = length h0 ∧
               ∀ j, same_links (h0 !!! j) (h1 !!! j) ∧
                    visit_count (h1 !!! j) = visit_count (h0 !!! j)).
  { unfold h1. destruct add_noise.
    - apply add_exploration_noise_shape.
    - split; [reflexivity |]. intros j.
      split; [apply same_links_refl | reflexivity]. }
  destruct H1 as [Hlen1 Hsame1].
  assert (Hwf1 : tree_wf (action_space config) h1).
  { eapply tree_wf_same_links; [exact Hwf0 | exact Hlen1 |].
    intros j. apply Hsame1. }
  assert (Hroot1 : children (h1 !!! 0%nat) ≠ []).
  { destruct (Hsame1 0%nat) as [(-> & _) _]. exact Hroot0. }
  destruct (simulations_post config model fuel (num_simulations config)
              Hbase
              {| tree := h1; stats := MinMaxStats_init; backprops := [] |}
              Hwf1 Hroot1)
    as (s & Hsims & Hwf & Hch & _ & Hvc & Hbp & _ & Hvis).
  { cbn [tree]. rewrite Hlen1, Hlen0. fold m. nia. }
  rewrite Hsims. cbn [mbind result_bind].
  exists s. split; [reflexivity |]. split; [exact Hwf |].
  cbn [tree backprops] in Hvc, Hbp, Hch, Hvis.
  split; [now rewrite Hch |].
  destruct (Hsame1 0%nat) as [_ Hv]. rewrite Hv, Hvc0 in Hvc.
  split; [exact Hvc |]. split; [exact Hbp |].
  rewrite Hch. exact Hvis.
Qed.
End run_facts.

(** C3. With a non-empty action space and a positive [pb_c_base],
    [MCTS.run] returns; it has called [backpropagate] exactly
    [num_simulations] times, and the visit count of the root, [0] when
    the root is created, is [num_simulations] in the tree returned. *)
Theorem run_counts_simulations (config : Config) (model : Model) (fuel : nat)
    (observation : tensor) (add_noise : bool) (noise : list R) :
  0 < pb_c_base config →
  action_space config ≠ [] →
  (1 + (num_simulations config + 1) * length (action_space config)
   <= fuel)%nat →
  visit_count (Node_init 0) = 0%nat ∧
  ∃ s,
    run config model fuel observation add_noise noise = Ok (0%nat, s) ∧
    length (backprops s) = num_simulations config ∧
    visit_count (tree s !!! 0%nat) = num_simulations config.
Proof.
  intros Hbase Hactions Hfuel. split; [reflexivity |].
  destruct (run_post config model fuel observation add_noise noise
              Hbase Hactions Hfuel) as (s & Hrun & _ & _ & Hvc & Hbp & _).
  exists s. now repeat split.
Qed.

(** C9. Both expansions of [MCTS.run] are given [config.action_space]:
    in the tree returned, a node that has children has exactly one child
    per action of the action space, whatever the game state it stands
    for. *)
Theorem run_expands_full_action_space (config : Config) (model : Model)
    (fuel : nat) (observation : tensor) (add_noise : bool) (noise : list R) :
  0 < pb_c_base config →
  action_space config ≠ [] →
  (1 + (num_simulations config + 1) * length (action_space config)
   <= fuel)%nat →
  ∃ s,
    run config model fuel observation add_noise noise = Ok (0%nat, s) ∧
    expanded (tree s !!! 0%nat) = true ∧
    ∀ i, (i < length (tree s))%nat → expanded (tree s !!! i) = true →
         NoDup (keys (children (tree s !!! i))) ∧
         ∀ a, a ∈ keys (children (tree s !!! i)) ↔ a ∈ action_space config.
Proof.
  intros Hbase Hactions Hfuel.
  destruct (run_post config model fuel observation add_noise noise
              Hbase Hactions Hfuel) as (s & Hrun & Hwf & Hroot & _).
  exists s. split; [exact Hrun |]. split; [now apply expanded_true |].
  intros i Hi Hexp. apply expanded_true in Hexp.
  destruct (wf_keys _ _ Hwf i Hi) as [Hnil| ->]; [contradiction |].
  apply first_occurrences_spec.
Qed.

(** ** The first simulation *)

Lemma ucb_formula_unvisited (config : Config) (parent child : Node) :
  visit_count parent = 0%nat → visit_count child = 0%nat →
  ucb_formula config parent child MinMaxStats_init = 0.
Proof.
  intros Hp Hc. unfold ucb_formula, value. rewrite Hp, Hc.
  destruct (Nat.eq_dec 0 0) as [_|]; [| done].
  cbn [normalize MinMaxStats_init maximum]. simpl INR. rewrite sqrt_0.
  unfold Rdiv. ring.
Qed.

(** At a node that was never visited, before the value tracker has seen
    anything, every child scores [0]: the priors play no part and the
    child under the largest action identifier is selected. *)
Lemma select_child_unvisited (config : Config) (node : ref) (h : heap) :
  0 < pb_c_base config →
  children (h !!! node) ≠ [] →
  NoDup (keys (children (h !!! node))) →
  visit_count (h !!! node) = 0%nat →
  (∀ a c, (a, c) ∈ children (h !!! node) → visit_count (h !!! c) = 0%nat) →
  ∃ action child,
    select_child config node MinMaxStats_init h = Ok (action, child) ∧
    (action, child) ∈ children (h !!! node) ∧
    ∀ a' c', (a', c') ∈ children (h !!! node) → (a' <= action)%Z.
Proof.
  intros Hbase Hne Hnd Hvc Hch.
  destruct (select_child_spec config node MinMaxStats_init h Hbase Hne Hnd)
    as (a & c & Hsel & Hin & Hmax).
  exists a, c. split; [exact Hsel |]. split; [exact Hin |].
  intros a' c' Hin'. specialize (Hmax a' c' Hin').
  unfold lex_le in Hmax. cbn [fst snd] in Hmax.
  rewrite !ucb_formula_unvisited in Hmax by eauto.
  destruct Hmax as [Hlt|[_ Hle]]; [lra | exact Hle].
Qed.

Ltac elem_of_cases H :=
  repeat (apply elem_of_cons in H as [H|H]; [try discriminate |]);
  try (now inversion H).

Lemma single_simulation_run (config : Config) (model : Model) (fuel : nat)
    (observation : tensor) (noise : list R) :
  action_space config = [0; 1; 2]%Z →
  num_simulations config = 1%nat →
  0 < pb_c_base config →
  (1 <= fuel)%nat →
  let '(_, r0, logits, hid) := initial_inference model observation in
  let z := exp (logits 0%Z) + exp (logits 1%Z) + exp (logits 2%Z) in
  let '(v, r, logits', hid') := recurrent_inference model hid 2%Z in
  ∃ s,
    run config model fuel observation false noise = Ok (0%nat, s) ∧
    children (tree s !!! 0%nat) = [(0%Z, 1%nat); (1%Z, 2%nat); (2%Z, 3%nat)] ∧
    (prior (tree s !!! 1%nat) = exp (logits 0%Z) / z ∧
     prior (tree s !!! 2%nat) = exp (logits 1%Z) / z ∧
     prior (tree s !!! 3%nat) = exp (logits 2%Z) / z) ∧
    backprops s = [([0; 3]%nat, v)] ∧
    children (tree s !!! 3%nat) = [(0%Z, 4%nat); (1%Z, 5%nat); (2%Z, 6%nat)] ∧
    (visit_count (tree s !!! 0%nat) = 1%nat ∧
     visit_count (tree s !!! 1%nat) = 0%nat ∧
     visit_count (tree s !!! 2%nat) = 0%nat ∧
     visit_count (tree s !!! 3%nat) = 1%nat) ∧
    reward (tree s !!! 0%nat) = r0 ∧
    value_sum (tree s !!! 0%nat) = v ∧
    value_sum (tree s !!! 3%nat) = r0 + discount config * v.
Proof.
  intros Has Hn Hbase Hfuel.
  unfold run. rewrite Has, Hn.
  destruct (initial_inference model observation) as [[[v0 r0] logits] hid].
  cbv zeta.
  destruct (recurrent_inference model hid 2%Z) as [[[v r] logits'] hid'] eqn:Hrec.
  set (h0 := expand 0%nat [0; 1; 2]%Z r0 logits hid [Node_init 0]).
  assert (Hsel : select_child config 0%nat MinMaxStats_init h0 = Ok (2%Z, 3%nat)).
  { destruct (select_child_unvisited config 0%nat h0 Hbase)
      as (a & c & Hsel & Hin & Hmax).
    - discriminate.
    - cbn. repeat (apply NoDup_cons; split; [intros H; elem_of_cases H |]).
      apply NoDup_nil_2.
    - reflexivity.
    - intros a c Hin. cbn in Hin.
      repeat (apply elem_of_cons in Hin as [[= -> ->]|Hin]; [reflexivity |]).
      inversion Hin.
    - cbn in Hin, Hmax. specialize (Hmax 2%Z 3%nat ltac:(right; right; left)).
      repeat (apply elem_of_cons in Hin as [[= -> ->]|Hin]; [try lia |]).
      + exact Hsel.
      + inversion Hin. }
  cbn in h0.
  cbn [simulations]. unfold simulate.
  destruct fuel as [|fuel]; [lia |].
  cbn [descend tree stats].
  change (expanded (h0 !!! 0%nat)) with true. cbv iota.
  rewrite Hsel. cbn [mbind result_bind].
  assert (Hd : descend config fuel 3 [0%nat; 3%nat] (Some 2%Z)
                 MinMaxStats_init h0
               = Ok (3%nat, [0%nat; 3%nat], Some 2%Z)).
  { destruct fuel; reflexivity. }
  cbn [app]. rewrite Hd. cbn [mbind result_bind].
  change (penultimate [0%nat; 3%nat]) with (@Ok nat 0%nat).
  cbn [mbind result_bind].
  change (hidden_state (h0 !!! 0%nat)) with (Some hid).
  cbn [mbind result_bind]. rewrite Hrec, Has.
  cbn. eexists. split; [reflexivity |]. cbn.
  repeat split; try reflexivity; try lra; f_equal; lra.
Qed.

(** C2 (as the code runs it).  In the scenario, the root has visit count
    [0] during the one simulation, so every child scores [0] whatever its
    prior: the child under action [2], the largest identifier, is
    selected, not the one of the highest prior.  It is expanded, and the
    search path that is backed up is the root and that child, which both
    end with visit count [1]. *)
Theorem single_simulation_scenario (config : Config) (model : Model)
    (fuel : nat) (observation : tensor) (noise : list R) :
  action_space config = [0; 1; 2]%Z →
  num_simulations config = 1%nat →
  0 < pb_c_base config →
  (1 <= fuel)%nat →
  (initial_inference model observation).1.2 0%Z = ln (1 / 5) →
  (initial_inference model observation).1.2 1%Z = ln (1 / 2) →
  (initial_inference model observation).1.2 2%Z = ln (3 / 10) →
  ∃ s v,
    run config model fuel observation false noise = Ok (0%nat, s) ∧
    children (tree s !!! 0%nat) = [(0%Z, 1%nat); (1%Z, 2%nat); (2%Z, 3%nat)] ∧
    (prior (tree s !!! 1%nat) = 1 / 5 ∧
     prior (tree s !!! 2%nat) = 1 / 2 ∧
     prior (tree s !!! 3%nat) = 3 / 10) ∧
    backprops s = [([0; 3]%nat, v)] ∧
    expanded (tree s !!! 3%nat) = true ∧
    visit_count (tree s !!! 0%nat) = 1%nat ∧
    visit_count (tree s !!! 3%nat) = 1%nat ∧
    visit_count (tree s !!! 2%nat) = 0%nat ∧
    visit_count (tree s !!! 1%nat) = 0%nat.
Proof.
  intros Has Hn Hbase Hfuel H0 H1 H2.
  pose proof (single_simulation_run config model fuel observation noise
                Has Hn Hbase Hfuel) as H.
  destruct (initial_inference model observation) as [[[v0 r0] logits] hid].
  cbn [fst snd] in H0, H1, H2. cbv zeta in H.
  destruct (recurrent_inference model hid 2%Z) as [[[v r] logits'] hid'].
  destruct H as (s & Hrun & Hch & (Hp1 & Hp2 & Hp3) & Hbp & Hch3
                 & (Hv0 & Hv1 & Hv2 & Hv3) & _).
  assert (He0 : exp (logits 0%Z) = 1 / 5) by (rewrite H0; apply exp_ln; lra).
  assert (He1 : exp (logits 1%Z) = 1 / 2) by (rewrite H1; apply exp_ln; lra).
  assert (He2 : exp (logits 2%Z) = 3 / 10) by (rewrite H2; apply exp_ln; lra).
  rewrite He0, He1, He2 in Hp1, Hp2, Hp3.
  exists s, v.
  split; [exact Hrun |]. split; [exact Hch |].
  split; [repeat split; lra |].
  split; [exact Hbp |]. split; [now apply expanded_true; rewrite Hch3 |].
  now repeat split.
Qed.

(** The scenario run on the code: the search path goes through the child
    under action [2]; the root ends with visit count [1], not [2], and
    the child under action [1] with visit count [0], not [1]. *)
Lemma scenario_selects_last_action :
  ∃ s,
    run scenario_config scenario_model 1 [] false [] = Ok (0%nat, s) ∧
    dict_get 1%Z (children (tree s !!! 0%nat)) = Some 2%nat ∧
    dict_get 2%Z (children (tree s !!! 0%nat)) = Some 3%nat ∧
    (prior (tree s !!! 1%nat) = 1 / 5 ∧
     prior (tree s !!! 2%nat) = 1 / 2 ∧
     prior (tree s !!! 3%nat) = 3 / 10) ∧
    backprops s = [([0; 3]%nat, 1)] ∧
    visit_count (tree s !!! 0%nat) ≠ 2%nat ∧
    visit_count (tree s !!! 2%nat) ≠ 1%nat.
Proof.
  pose proof (single_simulation_run scenario_config scenario_model 1 [] []
                eq_refl eq_refl) as H.
  cbn [initial_inference recurrent_inference scenario_model] in H.
  destruct H as (s & Hrun & Hch & (Hp1 & Hp2 & Hp3) & Hbp & _
                 & (Hv0 & _ & Hv2 & _) & _).
  { simpl. lra. }
  { lia. }
  exists s. split; [exact Hrun |]. rewrite Hch, Hv0, Hv2.
  split; [reflexivity |]. split; [reflexivity |].
  split.
  { rewrite Hp1, Hp2, Hp3. cbn [scenario_logits].
    rewrite !exp_ln by lra. repeat split; lra. }
  split; [exact Hbp |]. split; discriminate.
Qed.

(** ** Action selection *)

Lemma argmax_from_spec (l : list nat) :
  ∀ (pre : list nat) (best_pos best : nat),
    pre !! best_pos = Some best →
    (∀ i y, pre !! i = Some y → (y <= best)%nat) →
    (∀ i y, (i < best_pos)%nat → pre !! i = Some y → (y < best)%nat) →
    let r := argmax_from best_pos best (length pre) l in
    ∃ m, (pre ++ l) !! r = Some m ∧
         (∀ i y, (pre ++ l) !! i = Some y → (y <= m)%nat) ∧
         (∀ i y, (i < r)%nat → (pre ++ l) !! i = Some y → (y < m)%nat).
Proof.
  induction l as [|x l IH]; intros pre best_pos best Hbest Hle Hlt.
  - cbn [argmax_from]. rewrite app_nil_r. exists best. now repeat split.
  - cbn [argmax_from].
    replace (pre ++ x :: l) with ((pre ++ [x]) ++ l) by now rewrite <- app_assoc.
    replace (S (length pre)) with (length (pre ++ [x]))
      by (rewrite length_app; simpl; lia).
    destruct (Nat.ltb_spec best x) as [Hbx|Hxb].
    + apply IH.
      * now apply list_lookup_middle.
      * intros i y Hi. apply lookup_app_Some in Hi as [Hi|[_ Hi]].
        -- specialize (Hle i y Hi). lia.
        -- apply list_lookup_singleton_Some in Hi as [_ ->]. lia.
      * intros i y Hi Hy. rewrite lookup_app_l in Hy by exact Hi.
        specialize (Hle i y Hy). lia.
    + apply lookup_lt_Some in Hbest as Hbp. apply IH.
      * now apply lookup_app_l_Some.
      * intros i y Hi. apply lookup_app_Some in Hi as [Hi|[_ Hi]].
        -- now apply (Hle i).
        -- apply list_lookup_singleton_Some in Hi as [_ ->]. lia.
      * intros i y Hi Hy. rewrite lookup_app_l in Hy by lia.
        now apply (Hlt i).
Qed.

Lemma argmax_spec (l : list nat) :
  l ≠ [] →
  ∃ r m, argmax l = Ok r ∧ l !! r = Some m ∧
         (∀ i y, l !! i = Some y → (y <= m)%nat) ∧
         (∀ i y, (i < r)%nat → l !! i = Some y → (y < m)%nat).
Proof.
  intros Hne. destruct l as [|x l]; [contradiction |].
  destruct (argmax_from_spec l [x] 0%nat x) as (m & H1 & H2 & H3).
  - reflexivity.
  - intros i y Hi. apply list_lookup_singleton_Some in Hi as [_ ->]. lia.
  - intros i y Hi. lia.
  - exists (argmax_from 0 x 1 l), m. split; [reflexivity |].
    split; [exact H1 |]. split; [exact H2 | exact H3].
Qed.

Lemma greedy_selection (node : ref) (h : heap) :
  children (h !!! node) ≠ [] →
  ∃ pos a c,
    children (h !!! node) !! pos = Some (a, c) ∧
    (∀ u k, select_action node (Temp 0) h u k = Ok a) ∧
    (∀ i a' c', children (h !!! node) !! i = Some (a', c') →
                (visit_count (h !!! c') <= visit_count (h !!! c))%nat) ∧
    (∀ i a' c', (i < pos)%nat →
                children (h !!! node) !! i = Some (a', c') →
                (visit_count (h !!! c') < visit_count (h !!! c))%nat).
Proof.
  intros Hne.
  set (items := children (h !!! node)) in *.
  set (counts := map (λ ac : Z * ref, visit_count (h !!! ac.2)) items).
  assert (Hcounts : ∀ i y, counts !! i = Some y ↔
            ∃ a c, items !! i = Some (a, c) ∧ y = visit_count (h !!! c)).
  { intros i y. unfold counts. change (map ?f ?l) with (f <$> l).
    rewrite list_lookup_fmap. destruct (items !! i) as [[a c]|]; simpl.
    - split.
      + intros [= <-]. now exists a, c.
      + intros (a' & c' & [= <- <-] & ->). reflexivity.
    - split; [discriminate |]. now intros (a' & c' & Hx & _). }
  destruct (argmax_spec counts) as (r & m & Harg & Hr & Hmax & Hfirst).
  { unfold counts. destruct items; [contradiction | discriminate]. }
  apply Hcounts in Hr as (a & c & Hitem & ->).
  exists r, a, c. split; [exact Hitem |]. split.
  - intros u k. unfold select_action. fold items. fold counts.
    destruct items as [|it items'] eqn:Hitems; [contradiction |].
    destruct (Req_dec_T 0 0) as [_|Hn]; [| lra].
    rewrite Harg. cbn [mbind result_bind].
    unfold keys. change (map ?f ?l) with (f <$> l).
    rewrite list_lookup_fmap, Hitem. reflexivity.
  - split.
    + intros i a' c' Hi. apply (Hmax i). apply Hcounts. now exists a', c'.
    + intros i a' c' Hlt Hi. apply (Hfirst i); [exact Hlt |].
      apply Hcounts. now exists a', c'.
Qed.

(** C7. With temperature [0], [select_action] returns the action of the
    first child, in the order of the dictionary, whose visit count is the
    largest; no random draw takes part.  On visit counts
    [{0: 3, 1: 7, 2: 0}] it returns action [1]. *)
Theorem select_action_greedy :
  (∀ (node : ref) (h : heap),
     children (h !!! node) ≠ [] →
     ∃ pos a c,
       children (h !!! node) !! pos = Some (a, c) ∧
       (∀ u k, select_action node (Temp 0) h u k = Ok a) ∧
       (∀ i a' c', children (h !!! node) !! i = Some (a', c') →
                   (visit_count (h !!! c') <= visit_count (h !!! c))%nat) ∧
       (∀ i a' c', (i < pos)%nat →
                   children (h !!! node) !! i = Some (a', c') →
                   (visit_count (h !!! c') < visit_count (h !!! c))%nat)) ∧
  (∀ u k, select_action 0%nat (Temp 0) visited_tree u k = Ok 1%Z).
Proof.
  split; [exact greedy_selection |].
  intros u k. unfold select_action. cbn.
  destruct (Req_dec_T 0 0) as [_|Hn]; [reflexivity | lra].
Qed.

(** ** Sampling from the visit counts *)

Lemma py_sum_zero (l : list R) : Forall (λ x, x = 0) l → py_sum l = 0.
Proof.
  induction 1 as [|x l -> _ IH]; [reflexivity |].
  rewrite py_sum_cons, IH. lra.
Qed.

Lemma float_inf_gt_1 : 1 < float_inf.
Proof. unfold float_inf. apply Rlt_pow_R1; [lra | lia]. Qed.

Lemma float_tiny_bounds : 0 < float_tiny < 1.
Proof.
  unfold float_tiny.
  assert (H : 1 < 2 ^ 1075) by (apply Rlt_pow_R1; [lra | lia]).
  split.
  - apply Rinv_0_lt_compat. lra.
  - rewrite <- Rinv_1. apply Rinv_lt_contravar; [lra | exact H].
Qed.

Lemma to_float_in_range (x : R) :
  float_tiny < x → x < float_inf → to_float x = Some x.
Proof.
  intros Hlo Hhi. unfold to_float.
  destruct (Rle_dec float_inf x); [lra |].
  destruct (Rle_dec x float_tiny); [lra | reflexivity].
Qed.

Lemma to_float_overflow (x : R) : float_inf <= x → to_float x = None.
Proof.
  intros Hx. unfold to_float. destruct (Rle_dec float_inf x); [reflexivity | lra].
Qed.

Lemma to_float_Some (x y : R) :
  to_float x = Some y → x < float_inf ∧ (y = x ∨ (y = 0 ∧ x <= float_tiny)).
Proof.
  unfold to_float. destruct (Rle_dec float_inf x); [discriminate |].
  destruct (Rle_dec x float_tiny); intros [= <-].
  - split; [lra | now right].
  - split; [lra | now left].
Qed.

Lemma Rpower_count_ge_1 (c : nat) (e : R) :
  (0 < c)%nat → 0 < e → 1 <= Rpower (INR c) e.
Proof.
  intros Hc He.
  assert (H1 : 1 <= INR c).
  { change 1 with (INR 1). apply le_INR. lia. }
  replace 1 with (Rpower 1 e) at 1.
  - apply Rle_Rpower_l; lra.
  - unfold Rpower. now rewrite ln_1, Rmult_0_r, exp_0.
Qed.

Lemma real_power_nonneg (c : nat) (e : R) : 0 <= real_power c e.
Proof.
  unfold real_power. destruct (Nat.eq_dec c 0); [lra |].
  left. apply exp_pos.
Qed.

Lemma real_power_pos (c : nat) (e : R) : (0 < c)%nat → 0 < real_power c e.
Proof.
  intros Hc. unfold real_power. destruct (Nat.eq_dec c 0); [lia |].
  apply exp_pos.
Qed.

Lemma np_power_pos_exponent (c : nat) (e : R) :
  0 < e → real_power c e < float_inf →
  np_power c e = Some (real_power c e).
Proof.
  intros He Hr. unfold np_power, real_power in *.
  destruct (Req_dec_T e 0) as [->|_]; [lra |].
  destruct (Nat.eq_dec c 0) as [->|Hc].
  - destruct (Rlt_dec 0 e) as [_|Hn]; [reflexivity | contradiction].
  - apply to_float_in_range; [| exact Hr].
    pose proof (Rpower_count_ge_1 c e ltac:(lia) He).
    pose proof float_tiny_bounds. lra.
Qed.

Lemma np_power_overflow (c : nat) (e : R) :
  0 < e → float_inf <= real_power c e → np_power c e = None.
Proof.
  intros He Hr. unfold np_power, real_power in *.
  destruct (Req_dec_T e 0) as [->|_]; [lra |].
  destruct (Nat.eq_dec c 0) as [->|Hc].
  - pose proof float_inf_gt_1. lra.
  - now apply to_float_overflow.
Qed.

Lemma np_power_Some (c : nat) (e x : R) :
  0 < e → np_power c e = Some x →
  x = real_power c e ∧ real_power c e < float_inf.
Proof.
  intros He Hx.
  destruct (Rlt_dec (real_power c e) float_inf) as [Hlt|Hge].
  - rewrite (np_power_pos_exponent c e He Hlt) in Hx. injection Hx as <-.
    now split.
  - rewrite (np_power_overflow c e He) in Hx by lra. discriminate.
Qed.

Lemma power_counts_Some (counts : list nat) (e : R) :
  0 < e →
  ∀ dist, power_counts counts e = Some dist →
          dist = map (λ c, real_power c e) counts ∧
          Forall (λ c, real_power c e < float_inf) counts.
Proof.
  intros He. induction counts as [|c counts IH]; intros dist Hd.
  - injection Hd as <-. split; [reflexivity | constructor].
  - cbn [power_counts] in Hd.
    destruct (np_power c e) as [x|] eqn:Hx; [| discriminate].
    destruct (power_counts counts e) as [dist'|]; [| discriminate].
    injection Hd as <-.
    destruct (np_power_Some c e x He Hx) as [-> Hlt].
    destruct (IH dist' eq_refl) as [-> Hall].
    split; [reflexivity | now constructor].
Qed.

Lemma power_counts_in_range (counts : list nat) (e : R) :
  0 < e → Forall (λ c, real_power c e < float_inf) counts →
  power_counts counts e = Some (map (λ c, real_power c e) counts).
Proof.
  intros He. induction 1 as [|c counts Hc _ IH]; [reflexivity |].
  cbn [power_counts map]. now rewrite (np_power_pos_exponent c e He Hc), IH.
Qed.

Lemma power_counts_overflow (counts : list nat) (e : R) :
  0 < e → Exists (λ c, float_inf <= real_power c e) counts →
  power_counts counts e = None.
Proof.
  intros He. induction 1 as [c counts Hc|c counts _ IH]; cbn [power_counts].
  - now rewrite (np_power_overflow c e He Hc).
  - rewrite IH. now destruct (np_power c e).
Qed.

Lemma power_sum_terms (counts : list nat) (e : R) :
  power_sum counts e < float_inf →
  Forall (λ c, real_power c e < float_inf) counts.
Proof.
  intros Hsum. apply Forall_forall. intros c Hc.
  assert (real_power c e <= power_sum counts e); [| lra].
  apply py_sum_le_elem.
  - apply Forall_forall. intros x Hx.
    apply list_elem_of_fmap in Hx as (c' & -> & _). apply real_power_nonneg.
  - apply list_elem_of_fmap. now exists c.
Qed.

Lemma power_counts_pos_exponent (counts : list nat) (e : R) :
  0 < e → power_sum counts e < float_inf →
  ∃ dist,
    power_counts counts e = Some dist ∧
    length dist = length counts ∧
    Forall (λ x, 0 <= x) dist ∧
    (∀ i c, counts !! i = Some c → (0 < c)%nat →
            ∃ x, dist !! i = Some x ∧ 0 < x) ∧
    (Forall (λ c, c = 0%nat) counts → Forall (λ x, x = 0) dist) ∧
    py_sum dist = power_sum counts e.
Proof.
  intros He Hsum. exists (map (λ c, real_power c e) counts).
  split; [apply power_counts_in_range, power_sum_terms; assumption |].
  split; [apply length_map |]. split.
  { apply Forall_forall. intros x Hx.
    apply list_elem_of_fmap in Hx as (c & -> & _). apply real_power_nonneg. }
  split.
  { intros i c Hi Hc. exists (real_power c e).
    split; [| now apply real_power_pos].
    change (map ?f ?l) with (f <$> l). now rewrite list_lookup_fmap, Hi. }
  split; [| reflexivity].
  intros Hall. apply Forall_forall. intros x Hx.
  apply list_elem_of_fmap in Hx as (c & -> & Hc).
  rewrite (proj1 (Forall_forall _ _) Hall c Hc). reflexivity.
Qed.

Lemma power_sum_unvisited (counts : list nat) (e : R) :
  Forall (λ c, c = 0%nat) counts → power_sum counts e = 0.
Proof.
  intros Hall. apply py_sum_zero. apply Forall_forall. intros x Hx.
  apply list_elem_of_fmap in Hx as (c & -> & Hc).
  rewrite (proj1 (Forall_forall _ _) Hall c Hc). reflexivity.
Qed.

Lemma pow2_lt_float_inf (n : nat) : (n < 1024)%nat → 2 ^ n < float_inf.
Proof. intros Hn. unfold float_inf. apply Rlt_pow; [lra | exact Hn]. Qed.

Lemma pow2_ge_float_inf (n : nat) : (1024 <= n)%nat → float_inf <= 2 ^ n.
Proof. intros Hn. unfold float_inf. apply Rle_pow; [lra | exact Hn]. Qed.

Lemma real_power_one (c : nat) : real_power c 1 = INR c.
Proof.
  unfold real_power. destruct (Nat.eq_dec c 0) as [->|Hc]; [reflexivity |].
  apply Rpower_1. apply lt_0_INR. lia.
Qed.

Lemma power_sum_one (counts : list nat) :
  power_sum counts 1 = INR (sum_list counts).
Proof.
  unfold power_sum. induction counts as [|c counts IH]; [reflexivity |].
  cbn [map sum_list]. rewrite py_sum_cons, IH, real_power_one, plus_INR.
  reflexivity.
Qed.

Lemma real_power_nat (c n : nat) :
  (0 < c)%nat → real_power c (INR n) = INR c ^ n.
Proof.
  intros Hc. unfold real_power. destruct (Nat.eq_dec c 0); [lia |].
  apply Rpower_pow. apply lt_0_INR. lia.
Qed.

Lemma power_sum_ge (counts : list nat) (e : R) (c : nat) :
  c ∈ counts → real_power c e <= power_sum counts e.
Proof.
  intros Hc. apply py_sum_le_elem.
  - apply Forall_forall. intros x Hx.
    apply list_elem_of_fmap in Hx as (c' & -> & _). apply real_power_nonneg.
  - apply list_elem_of_fmap. now exists c.
Qed.

Lemma exp_nat_mult (n : nat) (x : R) : exp (INR n * x) = exp x ^ n.
Proof.
  induction n as [|n IH].
  - simpl. rewrite Rmult_0_l. apply exp_0.
  - rewrite S_INR, Rmult_plus_distr_r, Rmult_1_l, exp_plus, IH.
    simpl. ring.
Qed.

(** [math.exp(1000)] is out of range, and [math.exp(-1000)] is [0.0]. *)
Lemma exp_1000_large : 2 ^ 1250 <= exp 1000.
Proof.
  assert (H4 : 2 ^ 5 <= exp 4).
  { replace 4 with (INR 16 * (1 / 4)) by (simpl; lra).
    rewrite exp_nat_mult.
    apply Rle_trans with ((5 / 4) ^ 16); [simpl; lra |].
    apply pow_incr. pose proof (exp_ineq1 (1 / 4) ltac:(lra)). lra. }
  replace 1000 with (INR 250 * 4).
  - rewrite exp_nat_mult. change 1250%nat with (5 * 250)%nat.
    rewrite pow_mult. apply pow_incr. split; [| exact H4].
    apply pow_le. lra.
  - rewrite INR_IZR_INZ. change (Z.of_nat 250) with 250%Z. lra.
Qed.

Lemma exp_1000_overflows : float_inf <= exp 1000.
Proof.
  eapply Rle_trans; [| exact exp_1000_large].
  unfold float_inf. apply Rle_pow; [lra | lia].
Qed.

Lemma exp_minus_1000_underflows : exp (- 1000) <= float_tiny.
Proof.
  change (IZR (-1000)) with (Ropp (IZR 1000)).
  rewrite exp_Ropp. unfold float_tiny.
  apply Rinv_le_contravar; [apply pow_lt; lra |].
  eapply Rle_trans; [| exact exp_1000_large].
  apply Rle_pow; [lra | lia].
Qed.

(** [3 ** 1000.0] is out of range. *)
Lemma real_power_3_1000_overflows : float_inf <= real_power 3 (1 / (1 / 1000)).
Proof.
  replace (1 / (1 / 1000)) with (INR 1000).
  - rewrite real_power_nat by lia.
    apply Rle_trans with (2 ^ 1500); [apply pow2_ge_float_inf; lia |].
    change 1500%nat with (3 * 500)%nat. change 1000%nat with (2 * 500)%nat.
    rewrite !pow_mult. apply pow_incr. simpl. lra.
  - rewrite INR_IZR_INZ. change (Z.of_nat 1000) with 1000%Z. lra.
Qed.


Lemma length_cumsum_from (acc : R) (l : list R) :
  length (cumsum_from acc l) = length l.
Proof. revert acc. induction l; intros acc; simpl; [reflexivity | now rewrite IHl]. Qed.

Lemma last_cumsum_from (acc : R) (l : list R) :
  l ≠ [] → last (cumsum_from acc l) = Some (acc + py_sum l).
Proof.
  revert acc. induction l as [|x l IH]; intros acc Hne; [contradiction |].
  destruct l as [|y l].
  - simpl. rewrite py_sum_cons, py_sum_nil. f_equal. lra.
  - cbn [cumsum_from] in *. rewrite py_sum_cons.
    specialize (IH (acc + x) ltac:(discriminate)).
    cbn [cumsum_from] in IH. cbn [last] in *. rewrite IH.
    f_equal. lra.
Qed.

Lemma searchsorted_right_lt (cdf : list R) (u x : R) :
  last cdf = Some x → u < x → (searchsorted_right cdf u < length cdf)%nat.
Proof.
  induction cdf as [|y cdf IH]; intros Hlast Hu; [discriminate |].
  cbn [searchsorted_right length].
  destruct (Rle_dec y u) as [Hyu|_]; [| lia].
  destruct cdf as [|z cdf].
  - injection Hlast as ->. lra.
  - specialize (IH Hlast Hu). lia.
Qed.

Lemma random_choice_p_lt (p : list R) (u : R) :
  p ≠ [] → py_sum p ≠ 0 → u < 1 → (random_choice_p p u < length p)%nat.
Proof.
  intros Hne Hsum Hu. unfold random_choice_p, cumsum.
  rewrite (last_cumsum_from 0 p Hne).
  replace (0 + py_sum p) with (py_sum p) by lra.
  rewrite <- (length_cumsum_from 0 p).
  rewrite <- (length_map (λ x, x / py_sum p) (cumsum_from 0 p)).
  apply (searchsorted_right_lt _ u 1); [| exact Hu].
  change (map ?f ?l) with (f <$> l).
  rewrite fmap_last, (last_cumsum_from 0 p Hne). simpl. f_equal.
  replace (0 + py_sum p) with (py_sum p) by lra.
  unfold Rdiv. now apply Rinv_r.
Qed.

Section sampling.
Variables (node : ref) (t : R) (h : heap) (u : R) (k : nat).
Hypothesis Ht : 0 < t.

Let items := children (h !!! node).
Let counts := map (λ ac : Z * ref, visit_count (h !!! ac.2)) items.

Lemma select_action_visited :
  u < 1 →
  (∃ a c, (a, c) ∈ items ∧ (0 < visit_count (h !!! c))%nat) →
  power_sum counts (1 / t) < float_inf →
  ∃ dist,
    power_counts counts (1 / t) = Some dist ∧
    0 < py_sum dist < float_inf ∧
    ∃ a, select_action node (Temp t) h u k = Ok a ∧ a ∈ keys items.
Proof.
  intros Hu (a0 & c0 & Hin & Hvis) Hrange.
  assert (He : 0 < 1 / t) by (apply Rdiv_lt_0_compat; lra).
  destruct (power_counts_pos_exponent counts (1 / t) He Hrange)
    as (dist & Hd & Hlen & Hnn & Hpos & _ & Hsum).
  apply list_elem_of_lookup in Hin as [i Hi].
  destruct (Hpos i (visit_count (h !!! c0))) as (x & Hx & Hx0).
  { unfold counts. change (map ?f ?l) with (f <$> l).
    now rewrite list_lookup_fmap, Hi. }
  { exact Hvis. }
  assert (Htotal : 0 < py_sum dist).
  { apply list_elem_of_lookup_2 in Hx.
    pose proof (py_sum_le_elem dist x Hnn Hx). lra. }
  exists dist. split; [exact Hd |]. split; [lra |].
  unfold select_action. fold items. fold counts.
  destruct items as [|it items'] eqn:Hitems; [destruct i; discriminate |].
  destruct (Req_dec_T t 0) as [->|_]; [lra |].
  rewrite Hd. cbv zeta.
  destruct (Req_dec_T (py_sum dist) 0) as [Hz|_]; [lra |].
  destruct (Rle_dec float_inf (py_sum dist)) as [Hinf|_]; [lra |].
  cbn [mbind result_bind].
  set (p := map (λ x, x / py_sum dist) dist).
  assert (Hp : (random_choice_p p u < length (keys (it :: items')))%nat).
  { replace (length (keys (it :: items'))) with (length p).
    - apply random_choice_p_lt; [| | exact Hu].
      + unfold p. destruct dist; [discriminate | discriminate].
      + unfold p. rewrite py_sum_scale. unfold Rdiv.
        rewrite Rinv_r by lra. lra.
    - unfold p, keys. rewrite !length_map, Hlen. unfold counts.
      now rewrite length_map. }
  destruct (lookup_lt_is_Some_2 _ _ Hp) as [a Ha].
  rewrite Ha. exists a. split; [reflexivity |].
  eapply list_elem_of_lookup_2. exact Ha.
Qed.

Lemma select_action_unvisited :
  (∀ a c, (a, c) ∈ items → visit_count (h !!! c) = 0%nat) →
  (∀ dist, power_counts counts (1 / t) = Some dist → py_sum dist = 0) ∧
  ∃ e, select_action node (Temp t) h u k = Raise e.
Proof.
  intros Hall.
  assert (He : 0 < 1 / t) by (apply Rdiv_lt_0_compat; lra).
  assert (Hcounts : Forall (λ c, c = 0%nat) counts).
  { unfold counts. apply Forall_forall. intros c Hc.
    apply list_elem_of_fmap in Hc as ([a c'] & -> & Hin).
    now apply (Hall a c'). }
  destruct (power_counts_pos_exponent counts (1 / t) He)
    as (dist & Hd & _ & _ & _ & Hzero & _).
  { rewrite (power_sum_unvisited counts (1 / t) Hcounts).
    pose proof float_inf_gt_1. lra. }
  assert (Hsum : py_sum dist = 0) by (apply py_sum_zero, Hzero, Hcounts).
  split.
  { intros dist' Hd'. rewrite Hd in Hd'. now injection Hd' as <-. }
  unfold select_action. fold items. fold counts.
  destruct items as [|it items'].
  - now exists IndexError.
  - destruct (Req_dec_T t 0) as [->|_]; [lra |].
    rewrite Hd. cbv zeta.
    destruct (Req_dec_T (py_sum dist) 0) as [_|Hn]; [| contradiction].
    now exists ValueError.
Qed.

Lemma select_action_overflow :
  float_inf <= power_sum counts (1 / t) →
  select_action node (Temp t) h u k = Raise ValueError.
Proof.
  intros Hover.
  assert (He : 0 < 1 / t) by (apply Rdiv_lt_0_compat; lra).
  unfold select_action. fold items. fold counts.
  destruct items as [|it items'] eqn:Hitems.
  { exfalso. change (float_inf <= 0) in Hover.
    pose proof float_inf_gt_1. lra. }
  destruct (Req_dec_T t 0) as [->|_]; [lra |].
  destruct (power_counts counts (1 / t)) as [dist|] eqn:Hd; [| reflexivity].
  destruct (power_counts_Some counts (1 / t) He dist Hd) as [-> _].
  cbv zeta. fold (power_sum counts (1 / t)).
  destruct (Req_dec_T (power_sum counts (1 / t)) 0); [reflexivity |].
  destruct (Rle_dec float_inf (power_sum counts (1 / t)));
    [reflexivity | contradiction].
Qed.
End sampling.

(** C10. For a finite temperature [t > 0] at which the powers
    [visit_count ** (1/t)] and their sum stay within the range of floats:
    when some child of the root was visited, the sum that normalises the
    powers is positive and [select_action] returns a key of
    [root.children]; when no child was visited that sum is [0], the
    distribution is [0/0], and [select_action] raises instead of returning
    an action.  When a power or the sum overflows, [select_action] raises
    [ValueError]. *)
Theorem select_action_sampling (node : ref) (t : R) (h : heap) (u : R)
    (k : nat) :
  0 < t → 0 <= u < 1 →
  let items := children (h !!! node) in
  let counts := map (λ ac : Z * ref, visit_count (h !!! ac.2)) items in
  ((∃ a c, (a, c) ∈ items ∧ (0 < visit_count (h !!! c))%nat) →
   power_sum counts (1 / t) < float_inf →
   ∃ dist,
     power_counts counts (1 / t) = Some dist ∧
     0 < py_sum dist < float_inf ∧
     ∃ a, select_action node (Temp t) h u k = Ok a ∧ a ∈ keys items) ∧
  ((∀ a c, (a, c) ∈ items → visit_count (h !!! c) = 0%nat) →
   (∀ dist, power_counts counts (1 / t) = Some dist → py_sum dist = 0) ∧
   ∃ e, select_action node (Temp t) h u k = Raise e) ∧
  (float_inf <= power_sum counts (1 / t) →
   select_action node (Temp t) h u k = Raise ValueError).
Proof.
  intros Ht [_ Hu] items counts. split; [| split].
  - now apply select_action_visited.
  - now apply select_action_unvisited.
  - now apply select_action_overflow.
Qed.

(** Without the condition on the range: at temperature
    [0.001] on the visit counts [{0: 3, 1: 7, 2: 0}] a child was visited,
    and yet no action is returned, because [3 ** 1000] overflows. *)
Lemma select_action_small_temperature :
  (∃ a c, (a, c) ∈ children (visited_tree !!! 0%nat) ∧
          (0 < visit_count (visited_tree !!! c))%nat) ∧
  select_action 0%nat (Temp (1 / 1000)) visited_tree (1 / 2) 0
  = Raise ValueError.
Proof.
  split.
  - exists 0%Z, 1%nat. split; [left | cbn; lia].
  - apply select_action_overflow; [lra |].
    eapply Rle_trans; [exact real_power_3_1000_overflows |].
    apply power_sum_ge. cbn. left.
Qed.

(** ** The episode record *)

Lemma store_search_statistics_fields (root : ref) (h : heap)
    (actions : list Z) (gh gh' : GameHistory) :
  store_search_statistics root h actions gh = Ok gh' →
  observation_history gh' = observation_history gh ∧
  history gh' = history gh ∧
  rewards gh' = rewards gh ∧
  length (child_visits gh') = S (length (child_visits gh)) ∧
  length (root_values gh') = S (length (root_values gh)).
Proof.
  unfold store_search_statistics.
  destruct (visit_fractions _ _ _ _) as [fr| |]; try discriminate.
  cbn [mbind result_bind]. intros [= <-]. cbn.
  rewrite !length_app. simpl. repeat split; lia.
Qed.

Lemma play_start_inv (config : Config) (game : Game) (e : env game) :
  history_inv (ep_history (play_start config game e)).
Proof.
  unfold play_start. destruct (reset game e) as [e' obs].
  cbn. now repeat split.
Qed.

Lemma play_move_inv (config : Config) (model : Model) (game : Game)
    (search_fuel : nat) (draws : Draws) (temp : temperature)
    (do_render : bool) (ep ep' : Episode game) :
  history_inv (ep_history ep) →
  play_move config model game search_fuel draws temp do_render ep = Ok ep' →
  history_inv (ep_history ep') ∧
  length (history (ep_history ep')) = S (length (history (ep_history ep))).
Proof.
  intros (H1 & H2 & H3 & H4). unfold play_move.
  destruct (run _ _ _ _ _ _) as [[root s]| |]; try discriminate.
  cbn [mbind result_bind].
  destruct (select_action _ _ _ _ _) as [action| |]; try discriminate.
  cbn [mbind result_bind].
  destruct (step game (ep_env ep) action) as [e [[obs r] done]].
  destruct (store_search_statistics _ _ _ _) as [gh| |] eqn:Hstore;
    try discriminate.
  cbn [mbind result_bind]. intros [= <-]. cbn [ep_history].
  apply store_search_statistics_fields in Hstore
    as (Ho & Hh & Hr & Hc & Hv).
  cbn in Ho, Hh, Hr, Hc, Hv.
  unfold history_inv. rewrite Ho, Hh, Hr, Hc, Hv, !length_app. simpl.
  repeat split; lia.
Qed.

Lemma play_loop_inv (config : Config) (model : Model) (game : Game)
    (fuel search_fuel : nat) (rng : nat → Draws) (temp : temperature)
    (do_render : bool) :
  ∀ ep ep',
    history_inv (ep_history ep) →
    play_loop config model game fuel search_fuel rng temp do_render ep = Ok ep' →
    history_inv (ep_history ep').
Proof.
  induction fuel as [|fuel IH]; intros ep ep' Hinv; cbn [play_loop];
    destruct (negb (ep_done ep)
              && (length (history (ep_history ep)) <? max_moves config)%nat);
    try discriminate; try (intros [= <-]; exact Hinv).
  destruct (play_move _ _ _ _ _ _ _ _) as [ep1| |] eqn:Hmove; try discriminate.
  cbn [mbind result_bind]. intros Hloop.
  apply (IH ep1 ep'); [| exact Hloop].
  eapply play_move_inv; eassumption.
Qed.

(** C6. The lists of a [GameHistory] keep their lengths in step: the
    invariant holds when [play_game] enters its loop, every move keeps it
    (and adds one action), and it holds for the history that [play_game]
    returns. *)
Theorem game_history_invariant (config : Config) (model : Model)
    (game : Game) (fuel search_fuel : nat) (rng : nat → Draws)
    (temp : temperature) (do_render : bool) :
  (∀ e, history_inv (ep_history (play_start config game e))) ∧
  (∀ draws ep ep',
     history_inv (ep_history ep) →
     play_move config model game search_fuel draws temp do_render ep = Ok ep' →
     history_inv (ep_history ep') ∧
     length (history (ep_history ep'))
       = S (length (history (ep_history ep)))) ∧
  (∀ e e' gh,
     play_game config model game fuel search_fuel rng temp do_render e
       = Ok (e', gh) →
     history_inv gh).
Proof.
  split; [apply play_start_inv |]. split.
  - intros draws ep ep'. apply play_move_inv.
  - intros e e' gh. unfold play_game.
    destruct (play_loop _ _ _ _ _ _ _ _ _) as [ep| |] eqn:Hloop;
      try discriminate.
    cbn [mbind result_bind]. intros [= _ <-].
    eapply play_loop_inv; [| exact Hloop]. apply play_start_inv.
Qed.

(** ** Self-play returns *)

Lemma power_counts_zero_exponent (counts : list nat) :
  power_counts counts 0 = Some (map (λ _, 1) counts).
Proof.
  induction counts as [|c counts IH]; [reflexivity |].
  cbn [power_counts map]. rewrite IH. unfold np_power.
  destruct (Req_dec_T 0 0) as [_|Hn]; [reflexivity | lra].
Qed.

Lemma py_sum_ones {A : Type} (l : list A) : py_sum (map (λ _, 1) l) = INR (length l).
Proof.
  induction l as [|x l IH]; [reflexivity |].
  cbn [map]. rewrite py_sum_cons, IH.
  change (length (x :: l)) with (S (length l)). rewrite S_INR. lra.
Qed.

Lemma select_action_returns (node : ref) (temp : temperature) (h : heap)
    (u : R) (k : nat) :
  temperature_ok temp → u < 1 →
  (∃ a c, (a, c) ∈ children (h !!! node) ∧ (0 < visit_count (h !!! c))%nat) →
  (∀ t, temp = Temp t → 0 < t →
        power_sum (map (λ ac : Z * ref, visit_count (h !!! ac.2))
                       (children (h !!! node))) (1 / t) < float_inf) →
  ∃ a, select_action node temp h u k = Ok a ∧ a ∈ keys (children (h !!! node)).
Proof.
  intros Htemp Hu Hvis Hrange.
  assert (Hne : children (h !!! node) ≠ []).
  { destruct Hvis as (a & c & Hin & _). intros Hnil. rewrite Hnil in Hin.
    inversion Hin. }
  destruct temp as [t|].
  - destruct (Req_dec_T t 0) as [->|Hnz].
    + destruct (greedy_selection node h Hne)
        as (pos & a & c & Hpos & Hsel & _).
      exists a. split; [apply Hsel |].
      apply list_elem_of_fmap. exists (a, c). split; [reflexivity |].
      eapply list_elem_of_lookup_2. exact Hpos.
    + simpl in Htemp.
      destruct (select_action_visited node t h u k ltac:(lra) Hu Hvis)
        as (dist & _ & _ & Ha).
      { apply (Hrange t eq_refl). lra. }
      exact Ha.
  - unfold select_action.
    destruct (children (h !!! node)) as [|it items] eqn:Hitems; [contradiction |].
    rewrite power_counts_zero_exponent, py_sum_ones. cbv zeta.
    destruct (Req_dec_T _ 0) as [Hz|_].
    { rewrite length_map in Hz. simpl length in Hz.
      rewrite S_INR in Hz. pose proof (pos_INR (length items)). lra. }
    cbn [mbind result_bind].
    assert (Hk : (k mod length (keys (it :: items))
                  < length (keys (it :: items)))%nat).
    { apply Nat.mod_upper_bound. unfold keys. simpl. lia. }
    destruct (lookup_lt_is_Some_2 _ _ Hk) as [a Ha].
    rewrite Ha. exists a. split; [reflexivity |].
    eapply list_elem_of_lookup_2. exact Ha.
Qed.

Lemma fold_left_add_mono (l : list nat) (b : nat) :
  (b <= fold_left Nat.add l b)%nat.
Proof.
  revert b. induction l as [|z l IH]; intros b; simpl; [lia |].
  specialize (IH (b + z)%nat). lia.
Qed.

Lemma fold_left_add_ge (l : list nat) (acc x : nat) :
  x ∈ l → (x <= fold_left Nat.add l acc)%nat.
Proof.
  revert acc. induction l as [|y l IH]; intros acc Hin; [inversion Hin |].
  cbn [fold_left]. apply elem_of_cons in Hin as [->|Hin].
  - pose proof (fold_left_add_mono l (acc + y)%nat). lia.
  - now apply IH.
Qed.

Lemma visit_fractions_returns (root : Node) (h : heap) (sum_visits : nat)
    (actions : list Z) :
  (0 < sum_visits)%nat →
  ∃ fr, visit_fractions root h sum_visits actions = Ok fr.
Proof.
  intros Hpos. induction actions as [|a actions [fr IH]].
  - now exists [].
  - cbn [visit_fractions]. rewrite IH.
    destruct (dict_get a (children root)) as [c|].
    + unfold py_div. destruct (Req_dec_T (INR sum_visits) 0) as [Hz|_].
      * change 0 with (INR 0) in Hz. apply INR_eq in Hz. lia.
      * now eexists.
    + now eexists.
Qed.

Lemma store_search_statistics_returns (root : ref) (h : heap)
    (actions : list Z) (gh : GameHistory) :
  (∃ a c, (a, c) ∈ children (h !!! root) ∧ (0 < visit_count (h !!! c))%nat) →
  ∃ gh1, store_search_statistics root h actions gh = Ok gh1.
Proof.
  intros (a & c & Hin & Hvis). unfold store_search_statistics.
  match goal with
  | |- context [visit_fractions ?r ?hh ?sv ?acts] =>
      destruct (visit_fractions_returns r hh sv acts) as [fr ->]
  end.
  - eapply Nat.lt_le_trans; [exact Hvis |].
    apply fold_left_add_ge.
    apply list_elem_of_fmap. exists c. split; [reflexivity |].
    apply list_elem_of_fmap. now exists (a, c).
  - now eexists.
Qed.

Section play_returns.
Variables (config : Config) (model : Model) (game : Game)
          (search_fuel : nat) (rng : nat → Draws) (temp : temperature)
          (do_render : bool).
Hypothesis Hbase : 0 < pb_c_base config.
Hypothesis Hactions : action_space config ≠ [].
Hypothesis Hsims : (0 < num_simulations config)%nat.
Hypothesis Hsearch :
  (1 + (num_simulations config + 1) * length (action_space config)
   <= search_fuel)%nat.
Hypothesis Htemp : temp = Temp 0 ∨ temp = TempInf.
Hypothesis Hrng : ∀ i, choice_u (rng i) < 1.

Lemma play_move_returns (i : nat) (ep : Episode game) :
  ∃ ep1, play_move config model game search_fuel (rng i) temp do_render ep
         = Ok ep1.
Proof.
  unfold play_move.
  destruct (run_post config model search_fuel (ep_observation ep) true
              (dirichlet_noise (rng i)) Hbase Hactions Hsearch)
    as (s & -> & _ & _ & _ & _ & Hvis).
  specialize (Hvis Hsims). cbn [mbind result_bind].
  destruct (select_action_returns 0%nat temp (tree s) (choice_u (rng i))
              (choice_k (rng i))) as (a & -> & _).
  { destruct Htemp as [->| ->]; simpl; [lra | exact I]. }
  { apply Hrng. }
  { exact Hvis. }
  { intros t Ht Hpos. destruct Htemp as [Heq|Heq]; rewrite Heq in Ht;
      [injection Ht as <-; lra | discriminate]. }
  cbn [mbind result_bind].
  destruct (step game (ep_env ep) a) as [e [[obs r] done]].
  match goal with
  | |- context [store_search_statistics ?r ?h ?acts ?gh] =>
      destruct (store_search_statistics_returns r h acts gh Hvis) as [gh1 ->]
  end.
  now eexists.
Qed.

Lemma play_loop_returns (fuel : nat) :
  ∀ ep,
    history_inv (ep_history ep) →
    (max_moves config <= fuel + length (history (ep_history ep)))%nat →
    ∃ ep1,
      play_loop config model game fuel search_fuel rng temp do_render ep
        = Ok ep1 ∧
      history_inv (ep_history ep1) ∧
      (length (history (ep_history ep)) <= length (history (ep_history ep1)))%nat ∧
      (ep_done ep1 = true ∨
       (max_moves config <= length (history (ep_history ep1)))%nat).
Proof.
  induction fuel as [|fuel IH]; intros ep Hinv Hfuel; cbn [play_loop].
  - destruct (Nat.ltb_spec (length (history (ep_history ep))) (max_moves config));
      [lia |].
    rewrite andb_false_r. exists ep. split; [reflexivity |].
    split; [exact Hinv |]. split; [lia | now right].
  - destruct (ep_done ep) eqn:Hdone; cbn [negb andb].
    { exists ep. split; [reflexivity |]. split; [exact Hinv |].
      split; [lia | now left]. }
    destruct (Nat.ltb_spec (length (history (ep_history ep))) (max_moves config))
      as [Hlt|Hge].
    + destruct (play_move_returns (length (history (ep_history ep))) ep)
        as [ep1 Hmove].
      rewrite Hmove. cbn [mbind result_bind].
      destruct (play_move_inv _ _ _ _ _ _ _ _ _ Hinv Hmove) as [Hinv1 Hlen1].
      destruct (IH ep1 Hinv1 ltac:(lia)) as (ep2 & Hloop & Hinv2 & Hle & Hend).
      exists ep2. split; [exact Hloop |]. split; [exact Hinv2 |].
      split; [lia | exact Hend].
    + exists ep. split; [reflexivity |]. split; [exact Hinv |].
      split; [lia | now right].
Qed.

Lemma play_game_returns (fuel : nat) (e : env game) :
  (max_moves config <= fuel)%nat →
  ∃ e1 gh,
    play_game config model game fuel search_fuel rng temp do_render e
      = Ok (e1, gh).
Proof.
  intros Hfuel. unfold play_game.
  destruct (play_loop_returns fuel (play_start config game e))
    as (ep & -> & Hinv & _).
  - apply play_start_inv.
  - lia.
  - cbn [mbind result_bind]. now eexists _, _.
Qed.
End play_returns.

(** ** Outside the preconditions *)

(** With an empty action space the root is never expanded: the first
    simulation stops at [search_path[-2]]. *)
Lemma run_empty_action_space (config : Config) (model : Model) (fuel : nat)
    (observation : tensor) (add_noise : bool) (noise : list R) :
  action_space config = [] → (0 < num_simulations config)%nat →
  run config model fuel observation add_noise noise = Raise IndexError.
Proof.
  intros Has Hn. unfold run. rewrite Has.
  destruct (initial_inference model observation) as [[[v0 r0] logits] hid].
  destruct (num_simulations config) as [|n]; [lia |].
  destruct add_noise, fuel; reflexivity.
Qed.

(** ** Instances

    The theorems above at concrete inputs: their hypotheses can be met. *)

(** The tracker after [update(0)] and [update(2)] normalises [1] to [1/2]. *)
Lemma normalize_spec_witness :
  normalize (update (update MinMaxStats_init 0) 2) 1 = (1 - 0) / (2 - 0) ∧
  0 <= normalize (update (update MinMaxStats_init 0) 2) 1 <= 1.
Proof.
  assert (Hmx : maximum (update (update MinMaxStats_init 0) 2) = MaxFin 2).
  { cbn. destruct (Rgt_dec 2 0); [reflexivity | lra]. }
  assert (Hmn : minimum (update (update MinMaxStats_init 0) 2) = MinFin 0).
  { cbn. destruct (Rlt_dec 2 0); [lra | reflexivity]. }
  destruct normalize_spec as (_ & _ & H & _).
  destruct (H (update (update MinMaxStats_init 0) 2) 1 2 0 Hmx Hmn ltac:(lra))
    as [Heq Hrange].
  split; [exact Heq | apply Hrange; lra].
Defined.

(** Selection among three children: the children of the actions [0] and
    [1] tie for the largest score and the larger action wins; the child
    of action [2] has a smaller score and loses. *)
Lemma select_child_max_witness :
  ∃ child,
    select_child scenario_config 0%nat MinMaxStats_init tied_tree
      = Ok (1%Z, child).
Proof.
  destruct (select_child_max scenario_config 0%nat MinMaxStats_init tied_tree)
    as [_ (a & c & Hsel & Hin & Hmax)].
  - simpl. lra.
  - discriminate.
  - cbn. repeat constructor; intros H;
      repeat (apply elem_of_cons in H as [H|H]; [discriminate |]);
      inversion H.
  - exists c. rewrite Hsel. do 2 f_equal.
    pose proof (Hmax 0%Z 1%nat ltac:(left)) as H0.
    pose proof (Hmax 1%Z 2%nat ltac:(right; left)) as H1.
    unfold ucb_formula in H0, H1.
    cbn [tied_tree lookup_total list_lookup_total visit_count prior value
         value_sum set_children set_visit_count Node_init scenario_config
         pb_c_base pb_c_init normalize maximum minimum MinMaxStats_init]
      in H0, H1.
    set (A := (ln ((INR 10 + 19652 + 1) / 19652) + 5 / 4) * sqrt (INR 10))
      in H0, H1.
    assert (HA : 0 < A).
    { unfold A. apply Rmult_lt_0_compat.
      - assert (0 < ln ((INR 10 + 19652 + 1) / 19652)); [| lra].
        rewrite <- ln_1. apply ln_increasing; [lra |]. simpl. lra.
      - apply sqrt_lt_R0. simpl. lra. }
    cbn in Hin.
    repeat (apply elem_of_cons in Hin as [[= -> ->]|Hin]);
      [| reflexivity | | inversion Hin].
    + exfalso. revert H1. cbn. intros [H1|[_ H1]]; [lra | lia].
    + exfalso. revert H0. cbn. intros [H0|[H0 _]]; lra.
Defined.

(** The scenario with the example configuration and model. *)
Lemma single_simulation_scenario_witness :
  ∃ s, run scenario_config scenario_model 1 [] false [] = Ok (0%nat, s) ∧
       visit_count (tree s !!! 0%nat) = 1%nat ∧
       visit_count (tree s !!! 3%nat) = 1%nat.
Proof.
  destruct (single_simulation_scenario scenario_config scenario_model 1 [] [])
    as (s & v & Hrun & _ & _ & _ & _ & Hv0 & Hv3 & _);
    [reflexivity | reflexivity | simpl; lra | lia
     | reflexivity | reflexivity | reflexivity |].
  exists s. split; [exact Hrun |]. split; assumption.
Defined.

(** One simulation, with exploration noise. *)
Lemma run_counts_simulations_witness :
  ∃ s, run scenario_config scenario_model 7 [] true [1; 0; 0] = Ok (0%nat, s) ∧
       length (backprops s) = 1%nat ∧
       visit_count (tree s !!! 0%nat) = 1%nat.
Proof.
  destruct (run_counts_simulations scenario_config scenario_model 7 []
              true [1; 0; 0]) as [_ H].
  - simpl. lra.
  - discriminate.
  - simpl. lia.
  - exact H.
Defined.

(** The scenario tree: its root is expanded over the three actions. *)
Lemma run_expands_full_action_space_witness :
  ∃ s, run scenario_config scenario_model 7 [] false [] = Ok (0%nat, s) ∧
       expanded (tree s !!! 0%nat) = true.
Proof.
  destruct (run_expands_full_action_space scenario_config scenario_model 7 []
              false []) as (s & Hrun & Hroot & _).
  - simpl. lra.
  - discriminate.
  - simpl. lia.
  - exists s. split; assumption.
Defined.

(** Greedy selection on the visited tree. *)
Lemma select_action_greedy_witness :
  ∃ a, ∀ u k, select_action 0%nat (Temp 0) visited_tree u k = Ok a.
Proof.
  destruct select_action_greedy as [H _].
  destruct (H 0%nat visited_tree ltac:(discriminate))
    as (pos & a & c & _ & Hsel & _).
  exists a. exact Hsel.
Defined.

(** Sampling at temperature [1] on the visited tree. *)
Lemma select_action_sampling_witness :
  ∃ a, select_action 0%nat (Temp 1) visited_tree (1 / 2) 0 = Ok a ∧
       a ∈ keys (children (visited_tree !!! 0%nat)).
Proof.
  destruct (select_action_sampling 0%nat 1 visited_tree (1 / 2) 0%nat
              ltac:(lra) ltac:(lra)) as [H _].
  destruct H as (dist & _ & _ & Ha).
  - exists 0%Z, 1%nat. split; [left | cbn; lia].
  - replace (1 / 1) with 1 by lra. rewrite power_sum_one.
    change (INR 10 < float_inf).
    pose proof (pow2_lt_float_inf 4 ltac:(lia)) as H4.
    simpl in H4 |- *. lra.
  - exact Ha.
Defined.

(** An episode of the counter game, played greedily. *)
Lemma game_history_invariant_witness :
  ∃ e gh,
    play_game scenario_config scenario_model counter_game 3 7 fixed_draws
              (Temp 0) false 0%nat = Ok (e, gh) ∧
    history_inv gh.
Proof.
  destruct (play_game_returns scenario_config scenario_model counter_game 7
              fixed_draws (Temp 0) false) with (fuel := 3%nat) (e := 0%nat)
    as (e & gh & Hplay).
  - simpl. lra.
  - discriminate.
  - simpl. lia.
  - simpl. lia.
  - now left.
  - intros i. simpl. lra.
  - simpl. lia.
  - exists e, gh. split; [exact Hplay |].
    destruct (game_history_invariant scenario_config scenario_model
                counter_game 3 7 fixed_draws (Temp 0) false) as (_ & _ & H).
    exact (H _ _ _ Hplay).
Defined.

(** * Further properties of the code *)

(** ** The value tracker holds the extremes *)

Lemma update_extremes_first (x : R) :
  extremes_of [x] (update MinMaxStats_init x).
Proof.
  exists x, x. cbn.
  split; [reflexivity |]. split; [reflexivity |].
  split; [left |]. split; [left |].
  intros v Hv. apply list_elem_of_singleton in Hv. subst v. lra.
Qed.

Lemma update_extremes_next (seen : list R) (s : MinMaxStats) (x : R) :
  extremes_of seen s → extremes_of (seen ++ [x]) (update s x).
Proof.
  intros (mx & mn & Hmx & Hmn & Hmxin & Hmnin & Hb).
  unfold extremes_of, update. cbn [maximum minimum]. rewrite Hmx, Hmn. cbn.
  assert (Hold : ∀ y, y ∈ seen → y ∈ seen ++ [x])
    by (intros y Hy; apply elem_of_app; now left).
  assert (Hnew : x ∈ seen ++ [x])
    by (apply elem_of_app; right; left).
  destruct (Rgt_dec x mx) as [Hgt|Hle], (Rlt_dec x mn) as [Hlt|Hge];
    eexists _, _; (split; [reflexivity |]); (split; [reflexivity |]);
    (split; [auto |]); (split; [auto |]);
    intros v Hv; apply elem_of_app in Hv as [Hv|Hv];
    try (apply list_elem_of_singleton in Hv; subst v);
    try specialize (Hb v Hv); lra.
Qed.

Lemma updates_extremes (vs seen : list R) (s : MinMaxStats) :
  extremes_of seen s → extremes_of (seen ++ vs) (fold_left update vs s).
Proof.
  revert seen s. induction vs as [|x vs IH]; intros seen s Hs.
  - now rewrite app_nil_r.
  - cbn [fold_left]. rewrite (cons_middle x seen vs), app_assoc.
    apply IH. now apply update_extremes_next.
Qed.

(** X1. After any non-empty sequence of [update] calls the tracker holds
    the greatest and the least value it was given, so [maximum >= minimum];
    [normalize] rescales exactly when two different values were seen. *)
Theorem tracker_holds_extremes (vs : list R) :
  vs ≠ [] →
  let s := fold_left update vs MinMaxStats_init in
  extremes_of vs s ∧
  (spread s ↔ ∃ v w, v ∈ vs ∧ w ∈ vs ∧ v ≠ w).
Proof.
  intros Hne s. destruct vs as [|x vs]; [contradiction |].
  assert (Hs : extremes_of (x :: vs) s).
  { unfold s. cbn [fold_left].
    apply (updates_extremes vs [x]). apply update_extremes_first. }
  split; [exact Hs |].
  destruct Hs as (mx & mn & Hmx & Hmn & Hmxin & Hmnin & Hb).
  unfold spread. rewrite Hmx, Hmn. split.
  - intros Hgt. exists mx, mn. repeat split; try assumption. lra.
  - intros (v & w & Hv & Hw & Hvw).
    pose proof (Hb v Hv). pose proof (Hb w Hw).
    destruct (Rtotal_order v w) as [?|[?|?]]; [lra | contradiction | lra].
Qed.

(** Two values: the tracker holds [3] and [1] and rescales. *)
Lemma tracker_holds_extremes_witness :
  spread (fold_left update [1; 3] MinMaxStats_init).
Proof.
  destruct (tracker_holds_extremes [1; 3] ltac:(discriminate)) as [_ H].
  apply H. exists 1, 3. repeat split; [left | right; left | lra].
Defined.

(** ** What backpropagation and expansion touch *)

Lemma backpropagate_off_path (config : Config) (path : list ref) (v : R)
    (mms : MinMaxStats) (h : heap) (j : ref) :
  j ∉ path → (backpropagate config path v mms h).1 !!! j = h !!! j.
Proof.
  unfold backpropagate. revert v mms h.
  induction path as [|node path IH]; intros v mms h Hj; [reflexivity |].
  apply not_elem_of_cons in Hj as [Hne Hj].
  cbn [fold_left backpropagate_step]. rewrite IH by exact Hj.
  now rewrite !list_lookup_total_alter_ne by congruence.
Qed.

(** X2. Backpropagation along a path without repetition adds exactly one
    visit to every node of the path, leaves every other node as it was,
    and never changes the shape of the tree: the store keeps its size and
    every node its children, prior, reward and hidden state. *)
Theorem backpropagate_touches_path (config : Config) (path : list ref)
    (v : R) (mms : MinMaxStats) (h : heap) :
  NoDup path → Forall (λ j, (j < length h)%nat) path →
  let h' := (backpropagate config path v mms h).1 in
  length h' = length h ∧
  (∀ j, j ∉ path → h' !!! j = h !!! j) ∧
  (∀ j, j ∈ path →
     visit_count (h' !!! j) = S (visit_count (h !!! j)) ∧
     children (h' !!! j) = children (h !!! j) ∧
     prior (h' !!! j) = prior (h !!! j) ∧
     reward (h' !!! j) = reward (h !!! j) ∧
     hidden_state (h' !!! j) = hidden_state (h !!! j)).
Proof.
  intros Hnd Hin h'.
  destruct (backpropagate_shape config path v mms h) as (Hlen & Hsame & Hvc).
  split; [exact Hlen |]. split.
  - intros j Hj. now apply backpropagate_off_path.
  - intros j Hj. destruct (Hsame j) as [(Hc & Hh & Hr) Hp].
    split; [| now repeat split].
    rewrite Forall_forall in Hin. fold h'. unfold h'.
    rewrite Hvc by now apply Hin.
    apply list_elem_of_In in Hj as Hj'.
    apply NoDup_ListNoDup in Hnd.
    rewrite (proj1 (NoDup_count_occ' Nat.eq_dec path) Hnd j Hj'). lia.
Qed.

(** The path [[0; 1]] in the three-node tree. *)
Lemma backpropagate_touches_path_witness :
  visit_count
    ((backpropagate half_discount [0; 1]%nat 4 MinMaxStats_init two_node_tree).1
       !!! 1%nat) = 1%nat.
Proof.
  destruct (backpropagate_touches_path half_discount [0; 1]%nat 4
              MinMaxStats_init two_node_tree) as (_ & _ & H).
  - apply NoDup_cons. split; [| apply NoDup_singleton].
    intros Hin. apply list_elem_of_singleton in Hin. discriminate.
  - repeat constructor; cbn; lia.
  - destruct (H 1%nat ltac:(right; left)) as [Hv _]. exact Hv.
Defined.

(** X3. Expanding a node only appends to the store: every other node
    that was there is unchanged, the expanded node keeps its statistics
    and its prior and takes the reward and the hidden state given, and
    every node that is added is a fresh leaf that was never visited. *)
Theorem expand_frame (self : ref) (actions : list Z) (r : R)
    (policy_logits : Z → R) (hidden : tensor) (h : heap) :
  (self < length h)%nat →
  let h' := expand self actions r policy_logits hidden h in
  (length h <= length h')%nat ∧
  (∀ j, (j < length h)%nat → j ≠ self → h' !!! j = h !!! j) ∧
  (visit_count (h' !!! self) = visit_count (h !!! self) ∧
   value_sum (h' !!! self) = value_sum (h !!! self) ∧
   prior (h' !!! self) = prior (h !!! self) ∧
   reward (h' !!! self) = r ∧
   hidden_state (h' !!! self) = Some hidden) ∧
  (∀ j, (length h <= j < length h')%nat →
     children (h' !!! j) = [] ∧ visit_count (h' !!! j) = 0%nat ∧
     value_sum (h' !!! j) = 0).
Proof.
  intros Hself h'. split.
  { unfold h'. rewrite length_expand by exact Hself. lia. }
  split.
  { intros j Hj Hne. now apply expand_lookup_old. }
  split.
  { unfold h'. rewrite expand_lookup_self by exact Hself. now repeat split. }
  intros j [Hge Hlt].
  destruct (expand_leaf_cases self actions r policy_logits hidden h Hself j Hlt)
    as [->|[(Hj & _)|(_ & p & Hp)]]; [lia | lia |].
  unfold h'. rewrite Hp. now repeat split.
Qed.

(** Expanding the root of a one-node store over two actions. *)
Lemma expand_frame_witness :
  children (expand 0%nat [0; 1]%Z 0 (λ _, 0) [] [Node_init 0] !!! 2%nat) = [].
Proof.
  destruct (expand_frame 0%nat [0; 1]%Z 0 (λ _, 0) [] [Node_init 0])
    as (_ & _ & _ & H).
  - simpl. lia.
  - destruct (H 2%nat) as [Hc _]; [cbn; lia | exact Hc].
Defined.

(** ** How the visit counts add up *)

Lemma tree_links_same_links (h h' : heap) :
  tree_links h → length h' = length h →
  (∀ j, same_links (h !!! j) (h' !!! j)) → tree_links h'.
Proof.
  intros [Hnd Hpar] Hlen Hsame. split.
  - intros i Hi. destruct (Hsame i) as (-> & _). apply Hnd. lia.
  - intros i j a b c Hi Hj.
    destruct (Hsame i) as (-> & _), (Hsame j) as (-> & _).
    apply Hpar; lia.
Qed.

Lemma tree_links_fresh_root (p : R) : tree_links [Node_init p].
Proof.
  split.
  - intros i Hi. destruct i; [apply NoDup_nil_2 | simpl in Hi; lia].
  - intros i j a b c Hi Hj Hin.
    destruct i; [inversion Hin | simpl in Hi; lia].
Qed.

Lemma expand_tree_links (self : ref) (actions : list Z) (r : R)
    (policy_logits : Z → R) (hidden : tensor) (h : heap) :
  (self < length h)%nat → children (h !!! self) = [] →
  tree_wf actions h → tree_links h →
  tree_links (expand self actions r policy_logits hidden h).
Proof.
  intros Hself Hleaf Hwf [Hnd Hpar].
  set (h' := expand self actions r policy_logits hidden h).
  set (acts := first_occurrences actions).
  assert (Hcases := expand_leaf_cases self actions r policy_logits hidden h Hself).
  assert (Hselfc : children (h' !!! self)
                   = zip acts (seq (length h) (length acts))).
  { unfold h'. now rewrite expand_leaf_self. }
  assert (Hnew : ∀ a c, (a, c) ∈ children (h' !!! self) →
                        (length h <= c)%nat).
  { intros a c Hin. rewrite Hselfc in Hin.
    apply elem_of_zip_r, elem_of_seq in Hin. lia. }
  assert (Hold : ∀ i a c, (i < length h')%nat → i ≠ self →
                   (a, c) ∈ children (h' !!! i) →
                   (i < length h)%nat ∧ (c < length h)%nat ∧
                   (a, c) ∈ children (h !!! i)).
  { intros i a c Hi Hne Hin.
    destruct (Hcases i Hi) as [->|[(Hlt & _ & Heq)|(_ & p & Heq)]];
      [contradiction | |].
    - fold h' in Heq. rewrite Heq in Hin. split; [exact Hlt |].
      split; [| exact Hin].
      apply (wf_refs _ _ Hwf i a c Hlt Hin).
    - fold h' in Heq. rewrite Heq in Hin. inversion Hin. }
  split.
  - intros i Hi. destruct (decide (i = self)) as [->|Hne].
    + rewrite Hselfc. unfold values.
      change (map snd ?l) with (l.*2). rewrite snd_zip.
      * apply NoDup_seq.
      * rewrite length_seq. lia.
    + destruct (Hcases i Hi) as [->|[(Hlt & _ & Heq)|(_ & p & Heq)]];
        [contradiction | |]; fold h' in Heq; rewrite Heq.
      * now apply Hnd.
      * apply NoDup_nil_2.
  - intros i j a b c Hi Hj Hini Hinj.
    destruct (decide (i = self)) as [->|Hni], (decide (j = self)) as [->|Hnj].
    + reflexivity.
    + apply Hnew in Hini. destruct (Hold j b c Hj Hnj Hinj) as (_ & Hc & _). lia.
    + apply Hnew in Hinj. destruct (Hold i a c Hi Hni Hini) as (_ & Hc & _). lia.
    + destruct (Hold i a c Hi Hni Hini) as (Hi' & _ & Hini').
      destruct (Hold j b c Hj Hnj Hinj) as (Hj' & _ & Hinj').
      exact (Hpar i j a b c Hi' Hj' Hini' Hinj').
Qed.

Section descent_chain.
Variables (config : Config) (mms : MinMaxStats) (h : heap).
Hypothesis Hbase : 0 < pb_c_base config.
Hypothesis Hwf : tree_wf (action_space config) h.

Lemma descent_chain (n : ref) (ext : list ref) (leaf : ref)
    (la la' : option Z) :
  descent config mms h n ext leaf la la' → (n < length h)%nat →
  last (n :: ext) = Some leaf ∧
  ∀ k p c, (n :: ext) !! k = Some p → (n :: ext) !! S k = Some c →
           expanded (h !!! p) = true ∧ ∃ a, (a, c) ∈ children (h !!! p).
Proof.
  induction 1 as [n la Hleaf | n a c ext leaf la la' Hexp Hsel Hd IH];
    intros Hlt.
  - split; [reflexivity |]. intros k p c _ Hc. destruct k; discriminate.
  - destruct (select_child_wf config mms h Hbase Hwf n Hlt Hexp)
      as (a' & c' & Hsel' & Hin & Hc).
    rewrite Hsel in Hsel'. injection Hsel' as <- <-.
    destruct (IH ltac:(lia)) as [Hlast Hadj].
    split; [exact Hlast |].
    intros [|k] p c0 Hp Hc0.
    + cbn in Hp, Hc0. injection Hp as <-. injection Hc0 as <-.
      split; [exact Hexp | now exists a].
    + cbn in Hp, Hc0. exact (Hadj k p c0 Hp Hc0).
Qed.
End descent_chain.

Lemma sum_list_map_ext (l : list ref) (f g : ref → nat) :
  (∀ c, c ∈ l → g c = f c) → sum_list (map g l) = sum_list (map f l).
Proof.
  induction l as [|y l IH]; intros Hfg; [reflexivity |].
  simpl. rewrite (Hfg y) by left.
  rewrite IH; [reflexivity |]. intros c Hc. apply Hfg. now right.
Qed.

Lemma sum_list_map_one_more (l : list ref) (f g : ref → nat) (x : ref) :
  NoDup l → x ∈ l →
  (∀ c, c ∈ l → g c = (f c + (if decide (c = x) then 1 else 0))%nat) →
  sum_list (map g l) = S (sum_list (map f l)).
Proof.
  induction l as [|y l IH]; intros Hnd Hx Hfg; [inversion Hx |].
  apply NoDup_cons in Hnd as [Hy Hnd]. simpl.
  rewrite (Hfg y) by left.
  apply elem_of_cons in Hx as [->|Hx].
  - rewrite decide_True by reflexivity.
    rewrite (sum_list_map_ext l f g); [lia |].
    intros c Hc. rewrite (Hfg c) by now right.
    rewrite decide_False; [lia |]. intros ->. contradiction.
  - rewrite decide_False by (intros ->; contradiction).
    rewrite IH; [lia | exact Hnd | exact Hx |].
    intros c Hc. apply Hfg. now right.
Qed.

Lemma elem_of_values {V : Type} (d : dict V) (v : V) :
  v ∈ values d ↔ ∃ k, (k, v) ∈ d.
Proof.
  unfold values. change (map snd d) with (d.*2).
  rewrite list_elem_of_fmap. split.
  - intros ([k v'] & -> & Hin). now exists k.
  - intros (k & Hin). now exists (k, v).
Qed.

(** The children of a node that lie on a search path. *)
Section path_children.
Variables (h : heap) (path : list ref) (leaf : ref).
Hypothesis Hlinks : tree_links h.
Hypothesis Hrefs : ∀ i a c, (i < length h)%nat →
                     (a, c) ∈ children (h !!! i) → (i < c < length h)%nat.
Hypothesis Hpnd : NoDup path.
Hypothesis Hpb : Forall (λ j, (j < length h)%nat) path.
Hypothesis Hp0 : path !! 0%nat = Some 0%nat.
Hypothesis Hlast : last path = Some leaf.
Hypothesis Hadj :
  ∀ k p c, path !! k = Some p → path !! S k = Some c →
           expanded (h !!! p) = true ∧ ∃ a, (a, c) ∈ children (h !!! p).

Lemma path_bound (j : ref) : j ∈ path → (j < length h)%nat.
Proof. intros Hj. rewrite Forall_forall in Hpb. now apply Hpb. Qed.

Lemma child_on_path_parent (i : ref) (b : Z) (c : ref) :
  (i < length h)%nat → (b, c) ∈ children (h !!! i) → c ∈ path →
  ∃ k, path !! k = Some i ∧ path !! S k = Some c.
Proof.
  intros Hi Hin Hc. apply list_elem_of_lookup in Hc as [k Hk].
  destruct k as [|k].
  - rewrite Hp0 in Hk. injection Hk as <-.
    specialize (Hrefs _ _ _ Hi Hin). lia.
  - destruct (lookup_lt_is_Some_2 path k) as [p Hp].
    { apply lookup_lt_Some in Hk. lia. }
    destruct (Hadj k p c Hp Hk) as [_ [a Ha]].
    assert (Hpl : (p < length h)%nat)
      by (apply path_bound; eapply list_elem_of_lookup_2; exact Hp).
    rewrite (links_parent h Hlinks i p b a c Hi Hpl Hin Ha).
    now exists k.
Qed.

Lemma off_path_children (i : ref) (b : Z) (c : ref) :
  (i < length h)%nat → i ∉ path → (b, c) ∈ children (h !!! i) → c ∉ path.
Proof.
  intros Hi Hni Hin Hc.
  destruct (child_on_path_parent i b c Hi Hin Hc) as (k & Hk & _).
  apply Hni. eapply list_elem_of_lookup_2. exact Hk.
Qed.

Lemma inner_node_successor (i : ref) :
  i ∈ path → i ≠ leaf →
  expanded (h !!! i) = true ∧
  ∃ a x, (a, x) ∈ children (h !!! i) ∧ x ∈ path ∧
         ∀ b c, (b, c) ∈ children (h !!! i) → c ∈ path → c = x.
Proof.
  intros Hip Hil. pose proof (path_bound i Hip) as Hi.
  apply list_elem_of_lookup in Hip as [k Hk].
  destruct (lookup_lt_is_Some_2 path (S k)) as [x Hx].
  { apply lookup_lt_Some in Hk as Hlt.
    destruct (decide (S k < length path)%nat) as [|Hge]; [assumption |].
    exfalso. apply Hil. rewrite last_lookup in Hlast.
    replace (pred (length path)) with k in Hlast by lia. congruence. }
  destruct (Hadj k i x Hk Hx) as [Hexp [a Ha]].
  split; [exact Hexp |]. exists a, x. split; [exact Ha |].
  split; [eapply list_elem_of_lookup_2; exact Hx |].
  intros b c Hin Hc.
  destruct (child_on_path_parent i b c Hi Hin Hc) as (k' & Hk' & Hc').
  assert (k' = k) as -> by (eapply NoDup_lookup; eassumption).
  congruence.
Qed.

(** The visits of the children of [i] once every node of the path got one
    more visit. *)
Lemma child_visit_sum_step (h2 : heap) (i : ref) :
  (i < length h)%nat → i ≠ leaf →
  children (h2 !!! i) = children (h !!! i) →
  (∀ j, (j < length h)%nat →
        visit_count (h2 !!! j)
        = (visit_count (h !!! j) + (if decide (j ∈ path) then 1 else 0))%nat) →
  child_visit_sum h2 i
  = (child_visit_sum h i + (if decide (i ∈ path) then 1 else 0))%nat.
Proof.
  intros Hi Hil Hch Hvis. unfold child_visit_sum. rewrite Hch.
  assert (Hcb : ∀ c, c ∈ values (children (h !!! i)) → (c < length h)%nat).
  { intros c Hc. apply elem_of_values in Hc as [b Hin].
    specialize (Hrefs _ _ _ Hi Hin). lia. }
  destruct (decide (i ∈ path)) as [Hip|Hnip].
  - destruct (inner_node_successor i Hip Hil) as (_ & a & x & Hax & Hxp & Huniq).
    rewrite (sum_list_map_one_more _ (λ c, visit_count (h !!! c)) _ x); [lia | | |].
    + now apply (links_nodup h Hlinks).
    + apply elem_of_values. now exists a.
    + intros c Hc. rewrite Hvis by now apply Hcb.
      apply elem_of_values in Hc as [b Hin].
      destruct (decide (c ∈ path)) as [Hcp|Hncp].
      * rewrite (Huniq b c Hin Hcp). now rewrite decide_True.
      * rewrite decide_False; [reflexivity |]. intros ->. contradiction.
  - rewrite (sum_list_map_ext _ (λ c, visit_count (h !!! c))); [lia |].
    intros c Hc. rewrite Hvis by now apply Hcb.
    apply elem_of_values in Hc as [b Hin].
    rewrite decide_False; [lia |]. now apply (off_path_children i b c).
Qed.
End path_children.

Lemma sum_list_map_zero (l : list ref) (f : ref → nat) :
  (∀ c, c ∈ l → f c = 0%nat) → sum_list (map f l) = 0%nat.
Proof.
  induction l as [|y l IH]; intros Hf; [reflexivity |].
  simpl. rewrite (Hf y) by left. rewrite IH; [reflexivity |].
  intros c Hc. apply Hf. now right.
Qed.

Section simulate_accounting.
Variables (config : Config) (model : Model) (fuel : nat) (s : Search).
Hypothesis Hbase : 0 < pb_c_base config.
Hypothesis Hwf : tree_wf (action_space config) (tree s).
Hypothesis Hroot : children (tree s !!! 0%nat) ≠ [].
Hypothesis Hfuel : (length (tree s) <= fuel)%nat.
Hypothesis Hlinks : tree_links (tree s).
Hypothesis Hacc : visits_accounted (tree s).

Lemma simulate_accounts :
  ∃ s', simulate config model fuel 0%nat s = Ok s' ∧
        tree_links (tree s') ∧ visits_accounted (tree s').
Proof.
  pose proof (root_allocated _ Hroot) as Hlen.
  destruct (simulate_spec config model fuel s Hbase Hwf Hroot Hfuel)
    as (ext & leaf & a & parent & hid & Hrel & Hne & _ & _ & _ & Hsim).
  destruct (descent_bounds config (stats s) (tree s) Hbase Hwf _ _ _ _ _
              Hrel Hlen)
    as (Hall & Hleaf & Hnexp & _ & Hnotin & Hndext & Hmem).
  destruct (descent_chain config (stats s) (tree s) Hbase Hwf _ _ _ _ _
              Hrel Hlen) as [Hlast Hadj].
  apply expanded_false in Hnexp.
  destruct (recurrent_inference model hid a) as [[[v r] logits] hid'].
  cbv zeta in Hsim. eexists. split; [exact Hsim |]. cbn [tree].
  set (h := tree s) in *.
  set (acts := first_occurrences (action_space config)).
  set (h1 := expand leaf (action_space config) r logits hid' h).
  set (path := 0%nat :: ext).
  set (h2 := (backpropagate config path v (stats s) h1).1).
  destruct (backpropagate_shape config path v (stats s) h1)
    as (Hblen & Hbsame & Hbvc). fold h2 in Hblen, Hbsame, Hbvc.
  assert (Hleafb : (leaf < length h)%nat) by lia.
  assert (Hl1 : length h1 = (length h + length acts)%nat)
    by exact (length_expand_leaf leaf _ r logits hid' h Hleafb).
  assert (Hleaf0 : leaf ≠ 0%nat) by (intros ->; contradiction).
  assert (Hpnd : NoDup path).
  { apply NoDup_cons. split; [exact Hnotin | exact Hndext]. }
  assert (Hpb : Forall (λ j, (j < length h)%nat) path).
  { constructor; [exact Hlen |].
    eapply Forall_impl; [exact Hall |]. simpl. intros; lia. }
  assert (Hleafp : leaf ∈ path) by (right; now apply Hmem).
  assert (Hacts : acts ≠ []).
  { destruct (wf_keys _ _ Hwf 0%nat Hlen) as [Hnil|Hk]; [contradiction |].
    fold acts in Hk. intros Hnil. rewrite Hnil in Hk.
    fold h in Hroot. destruct (children (h !!! 0%nat)); [contradiction | discriminate]. }
  assert (Hvis : ∀ j, (j < length h1)%nat →
            visit_count (h2 !!! j)
            = (visit_count (h1 !!! j) + (if decide (j ∈ path) then 1 else 0))%nat).
  { intros j Hj. rewrite Hbvc by exact Hj. f_equal.
    destruct (decide (j ∈ path)) as [Hin|Hnin].
    - apply list_elem_of_In in Hin. apply NoDup_ListNoDup in Hpnd.
      exact (proj1 (NoDup_count_occ' Nat.eq_dec path) Hpnd j Hin).
    - apply count_occ_not_In. intros Hin. apply Hnin.
      now apply list_elem_of_In. }
  assert (Hvis0 : ∀ j, (j < length h)%nat →
            visit_count (h2 !!! j)
            = (visit_count (h !!! j) + (if decide (j ∈ path) then 1 else 0))%nat).
  { intros j Hj. rewrite Hvis by lia. unfold h1.
    now rewrite expand_visit_count by (assumption || lia). }
  assert (Hch2 : ∀ j, children (h2 !!! j) = children (h1 !!! j)).
  { intros j. now destruct (Hbsame j) as [(-> & _) _]. }
  assert (Hcases := expand_leaf_cases leaf (action_space config) r logits hid'
                      h Hleafb).
  fold h1 in Hcases.
  split.
  { eapply tree_links_same_links; [| exact Hblen | intros j; apply Hbsame].
    now apply expand_tree_links. }
  intros i Hi. rewrite Hblen in Hi. unfold expanded. rewrite Hch2.
  destruct (Hcases i Hi) as [->|[(Hlt & Hnl & Heq)|(Hge & p & Heq)]].
  - (* the leaf that was expanded *)
    unfold h1 at 1. rewrite expand_leaf_self by assumption.
    cbn [children set_children]. fold acts.
    replace (0 <? length (zip acts (seq (length h) (length acts))))%nat
      with true.
    2: { symmetry. apply Nat.ltb_lt. rewrite length_zip_with, length_seq.
         destruct acts; [contradiction | simpl; lia]. }
    rewrite Hvis0 by exact Hleafb.
    rewrite decide_True by exact Hleafp.
    rewrite (decide_False (P := leaf = 0%nat)) by exact Hleaf0.
    specialize (Hacc leaf Hleafb). fold h in Hacc.
    unfold expanded in Hacc. rewrite Hnexp in Hacc. cbn in Hacc.
    rewrite Hacc. unfold child_visit_sum. rewrite Hch2.
    unfold h1 at 1. rewrite expand_leaf_self by assumption.
    cbn [children set_children]. fold acts.
    rewrite sum_list_map_zero; [lia |].
    intros c Hc. apply elem_of_values in Hc as [k Hin].
    apply elem_of_zip_r, elem_of_seq in Hin.
    rewrite Hvis by lia.
    rewrite decide_False.
    2: { intros Hcp. rewrite Forall_forall in Hpb. specialize (Hpb c Hcp). lia. }
    destruct (Hcases c ltac:(lia)) as [->|[(Hlt & _)|(_ & p & ->)]];
      [lia | lia | reflexivity].
  - (* a node that was there and is not the leaf *)
    rewrite Heq. specialize (Hacc i Hlt). fold h in Hacc.
    unfold expanded in Hacc.
    rewrite Hvis0 by exact Hlt.
    assert (Hsum : child_visit_sum h2 i
                   = (child_visit_sum h i
                      + (if decide (i ∈ path) then 1 else 0))%nat).
    { apply (child_visit_sum_step h path leaf); try assumption.
      - intros i' a' c'. apply (wf_refs _ _ Hwf).
      - reflexivity.
      - now rewrite Hch2, Heq. }
    destruct (0 <? length (children (h !!! i)))%nat eqn:Hexp.
    + rewrite Hsum, Hacc. lia.
    + rewrite Hacc. rewrite decide_False; [reflexivity |].
      intros Hip.
      destruct (inner_node_successor h path leaf Hlinks) with (i := i)
        as [Hex _]; try assumption.
      * intros i' a' c'. apply (wf_refs _ _ Hwf).
      * reflexivity.
      * unfold expanded in Hex. congruence.
  - (* a node that the expansion added *)
    rewrite Heq. cbn. rewrite Hvis by lia. rewrite Heq. cbn.
    rewrite decide_False; [reflexivity |].
    intros Hip. rewrite Forall_forall in Hpb. specialize (Hpb i Hip). lia.
Qed.
End simulate_accounting.

Lemma visits_accounted_same (h h' : heap) :
  length h' = length h →
  (∀ j, children (h' !!! j) = children (h !!! j) ∧
        visit_count (h' !!! j) = visit_count (h !!! j)) →
  visits_accounted h → visits_accounted h'.
Proof.
  intros Hlen Hsame Hacc i Hi. rewrite Hlen in Hi. specialize (Hacc i Hi).
  unfold expanded, child_visit_sum in *.
  destruct (Hsame i) as [-> ->].
  rewrite (sum_list_map_ext _ (λ c, visit_count (h !!! c)));
    [exact Hacc |].
  intros c _. now destruct (Hsame c) as [_ ->].
Qed.

Lemma simulations_accounts (config : Config) (model : Model) (fuel n : nat) :
  0 < pb_c_base config →
  ∀ s,
    tree_wf (action_space config) (tree s) →
    children (tree s !!! 0%nat) ≠ [] →
    tree_links (tree s) → visits_accounted (tree s) →
    (length (tree s)
     + n * length (first_occurrences (action_space config)) <= fuel)%nat →
    ∃ s',
      simulations config model fuel 0%nat n s = Ok s' ∧
      tree_wf (action_space config) (tree s') ∧
      children (tree s' !!! 0%nat) = children (tree s !!! 0%nat) ∧
      tree_links (tree s') ∧ visits_accounted (tree s') ∧
      length (tree s') =
        (length (tree s)
         + n * length (first_occurrences (action_space config)))%nat ∧
      visit_count (tree s' !!! 0%nat) = (visit_count (tree s !!! 0%nat) + n)%nat.
Proof.
  intros Hbase.
  induction n as [|n IH]; intros s Hwf Hroot Hlinks Hacc Hfuel.
  - exists s. cbn [simulations]. rewrite Nat.mul_0_l, !Nat.add_0_r.
    now repeat (split; [assumption || reflexivity |]).
  - cbn [simulations]. rewrite Nat.mul_succ_l in Hfuel.
    destruct (simulate_post config model fuel s Hbase Hwf Hroot ltac:(lia))
      as (s1 & path & v & Hsim & Hwf1 & Hch1 & Hlen1 & Hvc1 & _).
    destruct (simulate_accounts config model fuel s Hbase Hwf Hroot
                ltac:(lia) Hlinks Hacc) as (s1' & Hsim' & Hlinks1 & Hacc1).
    rewrite Hsim in Hsim'. injection Hsim' as <-.
    rewrite Hsim. cbn [mbind result_bind].
    destruct (IH s1 Hwf1 ltac:(congruence) Hlinks1 Hacc1 ltac:(lia))
      as (s' & Hsims & Hwf' & Hch' & Hlinks' & Hacc' & Hlen' & Hvc').
    exists s'. split; [exact Hsims |]. split; [exact Hwf' |].
    split; [congruence |]. split; [exact Hlinks' |].
    split; [exact Hacc' |]. split; lia.
Qed.

Section run_accounting.
Variables (config : Config) (model : Model) (fuel : nat)
          (observation : tensor) (add_noise : bool) (noise : list R).
Hypothesis Hbase : 0 < pb_c_base config.
Hypothesis Hactions : action_space config ≠ [].
Hypothesis Hfuel :
  (1 + (num_simulations config + 1) * length (action_space config)
   <= fuel)%nat.

Lemma run_accounts :
  ∃ s,
    run config model fuel observation add_noise noise = Ok (0%nat, s) ∧
    tree_wf (action_space config) (tree s) ∧
    tree_links (tree s) ∧ visits_accounted (tree s) ∧
    children (tree s !!! 0%nat) ≠ [] ∧
    visit_count (tree s !!! 0%nat) = num_simulations config ∧
    length (tree s) =
      (1 + (num_simulations config + 1)
           * length (first_occurrences (action_space config)))%nat.
Proof.
  unfold run.
  destruct (initial_inference model observation) as [[[v0 r0] logits] hid].
  set (h0 := expand 0%nat (action_space config) r0 logits hid [Node_init 0]).
  set (h1 := if add_noise
             then add_exploration_noise 0%nat noise
                    (root_exploration_fraction config) h0
             else h0).
  set (m := length (first_occurrences (action_space config))).
  assert (Hm : (m <= length (action_space config))%nat)
    by apply length_first_occurrences.
  assert (H0 : (0 < length [Node_init 0])%nat) by (simpl; lia).
  assert (Hwf0 : tree_wf (action_space config) h0).
  { apply expand_tree_wf; [exact H0 | reflexivity |].
    apply tree_wf_fresh_root. }
  assert (Hlinks0 : tree_links h0).
  { apply expand_tree_links with (actions := action_space config);
      [exact H0 | reflexivity | apply tree_wf_fresh_root
       | apply tree_links_fresh_root]. }
  assert (Hlen0 : length h0 = (1 + m)%nat).
  { unfold h0. rewrite length_expand_leaf by exact H0. reflexivity. }
  assert (Hroot0 : children (h0 !!! 0%nat) ≠ []).
  { unfold h0. rewrite expand_leaf_self by (exact H0 || reflexivity).
    cbn [children set_children].
    pose proof (first_occurrences_nonempty _ Hactions) as Hne.
    destruct (first_occurrences (action_space config)); [contradiction |].
    discriminate. }
  assert (Hzero : ∀ j, visit_count (h0 !!! j) = 0%nat).
  { intros j. destruct (decide (j < length h0)%nat) as [Hj|Hj].
    - destruct (expand_leaf_cases 0%nat (action_space config) r0 logits hid
                  [Node_init 0] H0 j Hj) as [->|[(Hlt & Hne & _)|(_ & p & Hp)]].
      + unfold h0. now rewrite expand_leaf_self by (exact H0 || reflexivity).
      + simpl in Hlt. lia.
      + fold h0 in Hp. now rewrite Hp.
    - rewrite list_lookup_total_alt, lookup_ge_None_2 by lia. reflexivity. }
  assert (Hacc0 : visits_accounted h0).
  { intros i Hi.
    destruct (expand_leaf_cases 0%nat (action_space config) r0 logits hid
                [Node_init 0] H0 i Hi) as [->|[(Hlt & Hne & _)|(_ & p & Hp)]].
    - rewrite Hzero. unfold child_visit_sum.
      rewrite sum_list_map_zero by (intros c _; apply Hzero).
      now destruct (expanded (h0 !!! 0%nat)).
    - simpl in Hlt. lia.
    - fold h0 in Hp. rewrite Hp. reflexivity. }
  assert (H1 : length h1 = length h0 ∧
               ∀ j, same_links (h0 !!! j) (h1 !!! j) ∧
                    visit_count (h1 !!! j) = visit_count (h0 !!! j)).
  { unfold h1. destruct add_noise.
    - apply add_exploration_noise_shape.
    - split; [reflexivity |]. intros j.
      split; [apply same_links_refl | reflexivity]. }
  destruct H1 as [Hlen1 Hsame1].
  assert (Hwf1 : tree_wf (action_space config) h1).
  { eapply tree_wf_same_links; [exact Hwf0 | exact Hlen1 |].
    intros j. apply Hsame1. }
  assert (Hlinks1 : tree_links h1).
  { eapply tree_links_same_links; [exact Hlinks0 | exact Hlen1 |].
    intros j. apply Hsame1. }
  assert (Hacc1 : visits_accounted h1).
  { apply (visits_accounted_same h0); [exact Hlen1 | | exact Hacc0].
    intros j. destruct (Hsame1 j) as [(Hc & _) Hv]. now split. }
  assert (Hroot1 : children (h1 !!! 0%nat) ≠ []).
  { destruct (Hsame1 0%nat) as [(-> & _) _]. exact Hroot0. }
  destruct (simulations_accounts config model fuel (num_simulations config)
              Hbase
              {| tree := h1; stats := MinMaxStats_init; backprops := [] |}
              Hwf1 Hroot1 Hlinks1 Hacc1)
    as (s & Hsims & Hwf & Hch & Hlinks & Hacc & Hlen & Hvc).
  { cbn [tree]. rewrite Hlen1, Hlen0. fold m. nia. }
  rewrite Hsims. cbn [mbind result_bind].
  exists s. split; [reflexivity |]. split; [exact Hwf |].
  split; [exact Hlinks |]. split; [exact Hacc |].
  cbn [tree] in Hch, Hlen, Hvc.
  split; [now rewrite Hch |]. split.
  - destruct (Hsame1 0%nat) as [_ Hv]. rewrite Hvc, Hv, Hzero. reflexivity.
  - rewrite Hlen, Hlen1, Hlen0. fold m. lia.
Qed.
End run_accounting.

(** X4. In the tree that [run] returns the visit counts add up: the
    visits of the children of the root are the [num_simulations]
    simulations, one each; a node without children was never visited; any
    other node was visited once, when it was expanded, plus the visits of
    its children. *)
Theorem run_visits_add_up (config : Config) (model : Model) (fuel : nat)
    (observation : tensor) (add_noise : bool) (noise : list R) :
  0 < pb_c_base config →
  action_space config ≠ [] →
  (1 + (num_simulations config + 1) * length (action_space config)
   <= fuel)%nat →
  ∃ s,
    run config model fuel observation add_noise noise = Ok (0%nat, s) ∧
    child_visit_sum (tree s) 0%nat = num_simulations config ∧
    ∀ i, (i < length (tree s))%nat →
      (expanded (tree s !!! i) = false → visit_count (tree s !!! i) = 0%nat) ∧
      (expanded (tree s !!! i) = true → i ≠ 0%nat →
       visit_count (tree s !!! i) = S (child_visit_sum (tree s) i)).
Proof.
  intros Hbase Hactions Hfuel.
  destruct (run_accounts config model fuel observation add_noise noise
              Hbase Hactions Hfuel)
    as (s & Hrun & Hwf & _ & Hacc & Hroot & Hvc & _).
  exists s. split; [exact Hrun |]. split.
  - specialize (Hacc 0%nat (root_allocated _ Hroot)).
    apply expanded_true in Hroot. rewrite Hroot in Hacc.
    rewrite decide_True in Hacc by reflexivity. lia.
  - intros i Hi. specialize (Hacc i Hi). split.
    + intros Hexp. now rewrite Hexp in Hacc.
    + intros Hexp Hne. rewrite Hexp, decide_False in Hacc by exact Hne. lia.
Qed.

(** The scenario: one simulation, one visit among the children of the
    root. *)
Lemma run_visits_add_up_witness :
  ∃ s, run scenario_config scenario_model 7 [] false [] = Ok (0%nat, s) ∧
       child_visit_sum (tree s) 0%nat = 1%nat.
Proof.
  destruct (run_visits_add_up scenario_config scenario_model 7 [] false [])
    as (s & Hrun & Hsum & _).
  - simpl. lra.
  - discriminate.
  - simpl. lia.
  - exists s. split; assumption.
Defined.

(** X5. [run] builds a tree: the store holds the root and, for the root
    and for each simulation, one node per distinct action; the children
    of a node are distinct nodes allocated after it, and no node is the
    child of two nodes. *)
Theorem run_builds_tree (config : Config) (model : Model) (fuel : nat)
    (observation : tensor) (add_noise : bool) (noise : list R) :
  0 < pb_c_base config →
  action_space config ≠ [] →
  (1 + (num_simulations config + 1) * length (action_space config)
   <= fuel)%nat →
  ∃ s,
    run config model fuel observation add_noise noise = Ok (0%nat, s) ∧
    length (tree s) =
      (1 + (num_simulations config + 1)
           * length (first_occurrences (action_space config)))%nat ∧
    (∀ i a c, (i < length (tree s))%nat →
              (a, c) ∈ children (tree s !!! i) →
              (i < c < length (tree s))%nat) ∧
    (∀ i, (i < length (tree s))%nat →
          NoDup (values (children (tree s !!! i)))) ∧
    (∀ i j a b c, (i < length (tree s))%nat → (j < length (tree s))%nat →
                  (a, c) ∈ children (tree s !!! i) →
                  (b, c) ∈ children (tree s !!! j) → i = j).
Proof.
  intros Hbase Hactions Hfuel.
  destruct (run_accounts config model fuel observation add_noise noise
              Hbase Hactions Hfuel)
    as (s & Hrun & Hwf & Hlinks & _ & _ & _ & Hlen).
  exists s. split; [exact Hrun |]. split; [exact Hlen |].
  split; [apply (wf_refs _ _ Hwf) |].
  split; [apply (links_nodup _ Hlinks) | apply (links_parent _ Hlinks)].
Qed.

(** The scenario tree has [1 + 2 * 3] nodes. *)
Lemma run_builds_tree_witness :
  ∃ s, run scenario_config scenario_model 7 [] false [] = Ok (0%nat, s) ∧
       length (tree s) = 7%nat.
Proof.
  destruct (run_builds_tree scenario_config scenario_model 7 [] false [])
    as (s & Hrun & Hlen & _).
  - simpl. lra.
  - discriminate.
  - simpl. lia.
  - exists s. split; [exact Hrun | exact Hlen].
Defined.

(** ** The search statistics of a move *)

Lemma dict_get_elem {V : Type} (d : dict V) (a : Z) (c : V) :
  NoDup (keys d) → (a, c) ∈ d → dict_get a d = Some c.
Proof.
  induction d as [|[k v] d IH]; intros Hnd Hin; [inversion Hin |].
  unfold keys in Hnd. cbn [map fst] in Hnd. apply NoDup_cons in Hnd as [Hk Hnd].
  cbn [dict_get]. apply elem_of_cons in Hin as [[= -> ->]|Hin].
  - destruct (Z.eq_dec k k); [reflexivity | contradiction].
  - destruct (Z.eq_dec a k) as [->|_]; [| now apply IH].
    exfalso. apply Hk. apply list_elem_of_fmap. now exists (k, c).
Qed.

Lemma dict_get_Some {V : Type} (d : dict V) (a : Z) (c : V) :
  dict_get a d = Some c → (a, c) ∈ d.
Proof.
  induction d as [|[k v] d IH]; [discriminate |].
  cbn [dict_get]. destruct (Z.eq_dec a k) as [->|_].
  - intros [= ->]. left.
  - intros H. right. now apply IH.
Qed.

Lemma dict_get_key {V : Type} (d : dict V) (a : Z) :
  a ∈ keys d → is_Some (dict_get a d).
Proof.
  induction d as [|[k v] d IH]; intros Hin; [inversion Hin |].
  cbn [dict_get]. destruct (Z.eq_dec a k) as [->|Hne]; [now eexists |].
  apply IH. unfold keys in Hin. cbn [map fst] in Hin.
  apply elem_of_cons in Hin as [->|Hin]; [contradiction | exact Hin].
Qed.

Lemma fold_left_add_sum_list (l : list nat) (acc : nat) :
  fold_left Nat.add l acc = (acc + sum_list l)%nat.
Proof.
  revert acc. induction l as [|x l IH]; intros acc; simpl; [lia |].
  rewrite IH. lia.
Qed.

(** The row that the list comprehension builds, entry by entry. *)
Lemma visit_fractions_spec (root : Node) (h : heap) (sum_visits : nat)
    (actions : list Z) :
  (0 < sum_visits)%nat →
  visit_fractions root h sum_visits actions =
  Ok (map (λ a, match dict_get a (children root) with
                | Some c => INR (visit_count (h !!! c)) / INR sum_visits
                | None => 0
                end) actions).
Proof.
  intros Hpos. induction actions as [|a actions IH]; [reflexivity |].
  cbn [visit_fractions map]. rewrite IH.
  destruct (dict_get a (children root)) as [c|]; [| reflexivity].
  unfold py_div. destruct (Req_dec_T (INR sum_visits) 0) as [Hz|_];
    [| reflexivity].
  change 0 with (INR 0) in Hz. apply INR_eq in Hz. lia.
Qed.

Lemma py_sum_fractions {A : Type} (f : A → nat) (l : list A) (n : nat) :
  py_sum (map (λ x, INR (f x) / INR n) l) = INR (sum_list (map f l)) / INR n.
Proof.
  induction l as [|v l IH].
  - simpl. rewrite py_sum_nil. unfold Rdiv. now rewrite Rmult_0_l.
  - cbn [map]. rewrite py_sum_cons, IH. simpl sum_list.
    rewrite plus_INR. unfold Rdiv. ring.
Qed.

(** Over the keys of the dictionary, in their order, the row holds the
    visit counts of the children divided by their sum. *)
Lemma fractions_over_keys (d : dict ref) (f : ref → R) :
  NoDup (keys d) →
  map (λ a, match dict_get a d with Some c => f c | None => 0 end) (keys d)
  = map (λ ac : Z * ref, f ac.2) d.
Proof.
  intros Hnd. unfold keys. rewrite map_map. apply map_ext_in.
  intros [a c] Hin. apply list_elem_of_In in Hin. cbn [fst snd].
  now rewrite (dict_get_elem d a c Hnd Hin).
Qed.

Lemma first_occurrences_NoDup (actions : list Z) :
  NoDup actions → first_occurrences actions = actions.
Proof.
  unfold first_occurrences.
  enough (∀ acc, NoDup (acc ++ actions) →
            fold_left (λ acc a, if decide (a ∈ acc) then acc else acc ++ [a])
                      actions acc = acc ++ actions) as H
    by (intros Hnd; apply (H [] Hnd)).
  induction actions as [|a actions IH]; intros acc Hnd.
  - simpl. now rewrite app_nil_r.
  - cbn [fold_left]. destruct (decide (a ∈ acc)) as [Hin|_].
    + apply NoDup_app in Hnd as (_ & Hdis & _). exfalso.
      apply (Hdis a Hin). left.
    + rewrite IH; rewrite <- app_assoc; [reflexivity | exact Hnd].
Qed.

Section search_statistics.
Variables (actions : list Z) (h : heap) (gh : GameHistory).
Hypothesis Hwf : tree_wf actions h.
Hypothesis Hroot : children (h !!! 0%nat) ≠ [].
Hypothesis Hvisited : (0 < child_visit_sum h 0%nat)%nat.

Let fraction (a : Z) : R :=
  match dict_get a (children (h !!! 0%nat)) with
  | Some c => INR (visit_count (h !!! c)) / INR (child_visit_sum h 0%nat)
  | None => 0
  end.

Lemma store_search_statistics_spec :
  store_search_statistics 0%nat h actions gh =
  Ok {| observation_history := observation_history gh;
        history := history gh;
        rewards := rewards gh;
        child_visits := child_visits gh ++ [map fraction actions];
        root_values := root_values gh ++ [value (h !!! 0%nat)];
        gh_discount := gh_discount gh |}.
Proof.
  unfold store_search_statistics.
  rewrite fold_left_add_sum_list, Nat.add_0_l. fold (child_visit_sum h 0%nat).
  rewrite visit_fractions_spec by exact Hvisited. reflexivity.
Qed.

Lemma fraction_bounds (a : Z) : 0 <= fraction a <= 1.
Proof.
  unfold fraction.
  destruct (dict_get a (children (h !!! 0%nat))) as [c|] eqn:Hget; [| lra].
  apply dict_get_Some in Hget.
  assert (Hle : (visit_count (h !!! c) <= child_visit_sum h 0%nat)%nat).
  { unfold child_visit_sum.
    pose proof (fold_left_add_ge
                  (map (λ c, visit_count (h !!! c))
                       (values (children (h !!! 0%nat))))
                  0%nat (visit_count (h !!! c))) as Hge.
    rewrite fold_left_add_sum_list, Nat.add_0_l in Hge. apply Hge.
    apply list_elem_of_fmap. exists c. split; [reflexivity |].
    apply list_elem_of_fmap. now exists (a, c). }
  assert (Hs : 0 < INR (child_visit_sum h 0%nat)) by now apply lt_0_INR.
  apply le_INR in Hle. pose proof (pos_INR (visit_count (h !!! c))).
  split.
  - apply Rmult_le_pos; [lra |]. left. now apply Rinv_0_lt_compat.
  - apply (Rmult_le_reg_r (INR (child_visit_sum h 0%nat))); [exact Hs |].
    unfold Rdiv. rewrite Rmult_assoc, Rinv_l by lra. lra.
Qed.

Lemma fractions_sum : NoDup actions → py_sum (map fraction actions) = 1.
Proof.
  intros Hnd.
  assert (Hkeys : keys (children (h !!! 0%nat)) = actions).
  { destruct (wf_keys _ _ Hwf 0%nat (root_allocated _ Hroot)) as [H|H];
      [contradiction |].
    now rewrite H, first_occurrences_NoDup. }
  rewrite <- Hkeys. unfold fraction.
  rewrite (fractions_over_keys (children (h !!! 0%nat))
             (λ c, INR (visit_count (h !!! c)) / INR (child_visit_sum h 0%nat)))
    by now rewrite Hkeys.
  rewrite (py_sum_fractions (λ ac : Z * ref, visit_count (h !!! ac.2))).
  replace (sum_list (map (λ ac : Z * ref, visit_count (h !!! ac.2))
                         (children (h !!! 0%nat))))
    with (child_visit_sum h 0%nat)
    by (unfold child_visit_sum, values; now rewrite map_map).
  unfold Rdiv. apply Rinv_r.
  apply lt_0_INR in Hvisited. lra.
Qed.
End search_statistics.

Lemma run_root_visits (config : Config) (model : Model) (fuel : nat)
    (observation : tensor) (add_noise : bool) (noise : list R) :
  0 < pb_c_base config →
  action_space config ≠ [] →
  (1 + (num_simulations config + 1) * length (action_space config)
   <= fuel)%nat →
  ∃ s,
    run config model fuel observation add_noise noise = Ok (0%nat, s) ∧
    tree_wf (action_space config) (tree s) ∧
    children (tree s !!! 0%nat) ≠ [] ∧
    child_visit_sum (tree s) 0%nat = num_simulations config.
Proof.
  intros Hbase Hactions Hfuel.
  destruct (run_accounts config model fuel observation add_noise noise
              Hbase Hactions Hfuel)
    as (s & Hrun & Hwf & _ & Hacc & Hroot & Hvc & _).
  exists s. split; [exact Hrun |]. split; [exact Hwf |].
  split; [exact Hroot |].
  specialize (Hacc 0%nat (root_allocated _ Hroot)).
  apply expanded_true in Hroot. rewrite Hroot in Hacc.
  rewrite decide_True in Hacc by reflexivity. lia.
Qed.

Lemma root_child_of_action (actions : list Z) (h : heap) (a : Z) :
  tree_wf actions h → children (h !!! 0%nat) ≠ [] → a ∈ actions →
  ∃ c, dict_get a (children (h !!! 0%nat)) = Some c ∧
       (a, c) ∈ children (h !!! 0%nat).
Proof.
  intros Hwf Hroot Hin.
  destruct (wf_keys _ _ Hwf 0%nat (root_allocated _ Hroot)) as [H|Hkeys];
    [contradiction |].
  destruct (dict_get_key (children (h !!! 0%nat)) a) as [c Hc].
  { rewrite Hkeys. now apply first_occurrences_spec. }
  exists c. split; [exact Hc | now apply dict_get_Some].
Qed.

(** X6. After a search of at least one simulation,
    [store_search_statistics] appends to [child_visits] one row with an
    entry per action of the action space: the visit count of the child of
    that action divided by [num_simulations].  The entries lie in
    [[0, 1]], and they sum to [1] when no action is listed twice.  The
    value of the root is appended to [root_values]. *)
Theorem search_statistics_distribution (config : Config) (model : Model)
    (fuel : nat) (observation : tensor) (add_noise : bool) (noise : list R)
    (gh : GameHistory) :
  0 < pb_c_base config →
  action_space config ≠ [] →
  (0 < num_simulations config)%nat →
  (1 + (num_simulations config + 1) * length (action_space config)
   <= fuel)%nat →
  ∃ s row,
    run config model fuel observation add_noise noise = Ok (0%nat, s) ∧
    store_search_statistics 0%nat (tree s) (action_space config) gh =
      Ok {| observation_history := observation_history gh;
            history := history gh;
            rewards := rewards gh;
            child_visits := child_visits gh ++ [row];
            root_values := root_values gh ++ [value (tree s !!! 0%nat)];
            gh_discount := gh_discount gh |} ∧
    length row = length (action_space config) ∧
    (∀ i a, action_space config !! i = Some a →
       ∃ c, (a, c) ∈ children (tree s !!! 0%nat) ∧
            row !! i = Some (INR (visit_count (tree s !!! c))
                             / INR (num_simulations config))) ∧
    Forall (λ x, 0 <= x <= 1) row ∧
    (NoDup (action_space config) → py_sum row = 1).
Proof.
  intros Hbase Hactions Hsims Hfuel.
  destruct (run_root_visits config model fuel observation add_noise noise
              Hbase Hactions Hfuel) as (s & Hrun & Hwf & Hroot & Hsum).
  assert (Hvis : (0 < child_visit_sum (tree s) 0%nat)%nat) by lia.
  exists s. eexists. split; [exact Hrun |].
  split; [apply store_search_statistics_spec; exact Hvis |].
  split; [apply length_map |]. split; [| split].
  - intros i a Hi.
    destruct (root_child_of_action _ _ a Hwf Hroot) as (c & Hget & Hin).
    { eapply list_elem_of_lookup_2. exact Hi. }
    exists c. split; [exact Hin |].
    change (map ?f ?l) with (f <$> l).
    rewrite list_lookup_fmap, Hi. cbn [fmap option_fmap option_map].
    now rewrite Hget, Hsum.
  - apply Forall_forall. intros x Hx.
    apply list_elem_of_fmap in Hx as (a & -> & _).
    apply (fraction_bounds (tree s) Hvis a).
  - intros Hnd. now apply (fractions_sum _ _ Hwf Hroot Hvis).
Qed.

(** The scenario: the one simulation visited the child of action [2]. *)
Lemma search_statistics_distribution_witness :
  ∃ s row,
    run scenario_config scenario_model 7 [] false [] = Ok (0%nat, s) ∧
    (∃ gh, store_search_statistics 0%nat (tree s) [0; 1; 2]%Z
             (GameHistory_init 1) = Ok gh ∧ child_visits gh = [row]) ∧
    py_sum row = 1.
Proof.
  destruct (search_statistics_distribution scenario_config scenario_model 7
              [] false [] (GameHistory_init 1))
    as (s & row & Hrun & Hstore & _ & _ & _ & Hsum).
  - simpl. lra.
  - discriminate.
  - simpl. lia.
  - simpl. lia.
  - exists s, row. split; [exact Hrun |]. split.
    + change (action_space scenario_config) with [0; 1; 2]%Z in Hstore.
      eexists. split; [exact Hstore | reflexivity].
    + apply Hsum. simpl. repeat constructor; intros H;
        repeat (apply elem_of_cons in H as [H|H]; [discriminate |]);
        inversion H.
Defined.

(** ** The priors stay a probability vector *)

Lemma values_key_unique {V : Type} (d : dict V) (a a' : Z) (c : V) :
  NoDup (values d) → (a, c) ∈ d → (a', c) ∈ d → a = a'.
Proof.
  induction d as [|[k v] d IH]; intros Hnd H1 H2; [inversion H1 |].
  unfold values in Hnd. cbn [map snd] in Hnd.
  apply NoDup_cons in Hnd as [Hv Hnd].
  assert (Hnot : ∀ b, (b, v) ∉ d).
  { intros b Hb. apply Hv. apply list_elem_of_fmap. now exists (b, v). }
  apply elem_of_cons in H1 as [H1|H1]; apply elem_of_cons in H2 as [H2|H2].
  - congruence.
  - injection H1 as -> ->. now apply Hnot in H2.
  - injection H2 as -> ->. now apply Hnot in H1.
  - now apply IH.
Qed.

Section noise_fold.
Variables (self : ref) (frac : R) (d : dict ref).
Hypothesis Hkeys : NoDup (keys d).
Hypothesis Hvalues : NoDup (values d).

Let step (h : heap) (an : Z * R) : heap :=
  match dict_get an.1 (children (h !!! self)) with
  | Some c => alter (λ n, set_prior (prior n * (1 - frac) + an.2 * frac) n) c h
  | None => h
  end.

Lemma noise_step (h : heap) (a : Z) (n : R) :
  children (h !!! self) = d →
  let h1 := step h (a, n) in
  length h1 = length h ∧
  children (h1 !!! self) = d ∧
  ∀ c, prior (h1 !!! c) =
       if decide ((a, c) ∈ d ∧ (c < length h)%nat)
       then prior (h !!! c) * (1 - frac) + n * frac
       else prior (h !!! c).
Proof.
  intros Hd. unfold step. cbn [fst snd]. rewrite Hd.
  destruct (dict_get a d) as [c0|] eqn:Hget.
  - apply dict_get_Some in Hget as Hin. rewrite length_alter.
    split; [reflexivity |]. split.
    + rewrite list_lookup_total_alter. case_decide as Hc; [| exact Hd].
      destruct Hc as [-> _]. cbn [children set_prior]. exact Hd.
    + intros c. rewrite list_lookup_total_alter.
      destruct (decide (c0 = c ∧ (c0 < length h)%nat)) as [[-> Hlt]|Hn].
      * rewrite decide_True by done. reflexivity.
      * rewrite decide_False; [reflexivity |].
        intros [Hin' Hlt]. apply Hn. split; [| ].
        -- pose proof (dict_get_elem d a c Hkeys Hin') as Hc. congruence.
        -- pose proof (dict_get_elem d a c Hkeys Hin') as Hc.
           assert (c0 = c) by congruence. now subst.
  - split; [reflexivity |]. split; [exact Hd |].
    intros c. rewrite decide_False; [reflexivity |].
    intros [Hin _]. rewrite (dict_get_elem d a c Hkeys Hin) in Hget.
    discriminate.
Qed.

Lemma noise_fold (l : list (Z * R)) :
  NoDup l.*1 →
  ∀ h, children (h !!! self) = d →
       (∀ a c, (a, c) ∈ d → (c < length h)%nat) →
       let h' := fold_left step l h in
       (∀ a c n, (a, c) ∈ d → (a, n) ∈ l →
          prior (h' !!! c) = prior (h !!! c) * (1 - frac) + n * frac) ∧
       (∀ c, (∀ a n, (a, n) ∈ l → (a, c) ∉ d) →
          prior (h' !!! c) = prior (h !!! c)).
Proof.
  induction l as [|[a0 n0] l IH]; intros Hnd h Hd Hrange.
  - cbn [fold_left]. split.
    + intros a c n _ Hin. inversion Hin.
    + reflexivity.
  - cbn [fmap list_fmap fst] in Hnd. apply NoDup_cons in Hnd as [Ha0 Hnd].
    cbn [fold_left].
    destruct (noise_step h a0 n0 Hd) as (Hlen1 & Hd1 & Hp1).
    destruct (IH Hnd (step h (a0, n0)) Hd1) as [IH1 IH2].
    { intros a c Hin. rewrite Hlen1. now apply (Hrange a c). }
    split.
    + intros a c n Hin Hl. apply elem_of_cons in Hl as [[= -> ->]|Hl].
      * rewrite IH2.
        -- rewrite Hp1, decide_True; [reflexivity |].
           split; [exact Hin | now apply (Hrange a0 c)].
        -- intros a' n' Hl' Hin'. apply Ha0.
           rewrite (values_key_unique d a0 a' c Hvalues Hin Hin').
           apply list_elem_of_fmap. now exists (a', n').
      * rewrite (IH1 a c n Hin Hl), Hp1, decide_False; [reflexivity |].
        intros [Hin0 _]. apply Ha0.
        rewrite (values_key_unique d a0 a c Hvalues Hin0 Hin).
        apply list_elem_of_fmap. now exists (a, n).
    + intros c Hc. rewrite IH2.
      * rewrite Hp1, decide_False; [reflexivity |].
        intros [Hin0 _]. apply (Hc a0 n0); [left | exact Hin0].
      * intros a n Hl. apply (Hc a n). now right.
Qed.
End noise_fold.

Lemma py_sum_mix (frac : R) (ps ns : list R) :
  length ps = length ns →
  py_sum (zip_with (λ p n, p * (1 - frac) + n * frac) ps ns)
  = py_sum ps * (1 - frac) + py_sum ns * frac.
Proof.
  revert ns. induction ps as [|p ps IH]; intros [|n ns] Hlen;
    try discriminate.
  - cbn [zip_with]. rewrite py_sum_nil. lra.
  - cbn [zip_with]. rewrite !py_sum_cons, IH by (simpl in Hlen; lia). lra.
Qed.

Lemma mix_nonneg (frac : R) (ps ns : list R) :
  0 <= frac <= 1 →
  Forall (λ p, 0 <= p) ps → Forall (λ p, 0 <= p) ns →
  Forall (λ p, 0 <= p) (zip_with (λ p n, p * (1 - frac) + n * frac) ps ns).
Proof.
  intros Hf Hps. revert ns.
  induction Hps as [|p ps Hp _ IH]; intros ns Hns; [constructor |].
  destruct Hns as [|n ns Hn Hns]; [constructor |].
  cbn [zip_with]. constructor; [| now apply IH].
  assert (0 <= p * (1 - frac)) by (apply Rmult_le_pos; lra).
  assert (0 <= n * frac) by (apply Rmult_le_pos; lra). lra.
Qed.

Lemma distribution_mix (frac : R) (ps ns : list R) :
  0 <= frac <= 1 → length ps = length ns →
  distribution ps → distribution ns →
  distribution (zip_with (λ p n, p * (1 - frac) + n * frac) ps ns).
Proof.
  intros Hf Hlen [Hp1 Hp2] [Hn1 Hn2]. split.
  - now apply mix_nonneg.
  - rewrite py_sum_mix, Hp2, Hn2 by exact Hlen. lra.
Qed.

Section noise_priors.
Variables (self : ref) (noise : list R) (frac : R) (h : heap).
Hypothesis Hkeys : NoDup (keys (children (h !!! self))).
Hypothesis Hvalues : NoDup (values (children (h !!! self))).
Hypothesis Hrange :
  ∀ a c, (a, c) ∈ children (h !!! self) → (c < length h)%nat.
Hypothesis Hlen : length noise = length (children (h !!! self)).

Let h' := add_exploration_noise self noise frac h.

Lemma noise_child_priors :
  child_priors h' self =
  zip_with (λ p n, p * (1 - frac) + n * frac) (child_priors h self) noise.
Proof.
  destruct (add_exploration_noise_shape self noise frac h) as [_ Hsame].
  destruct (Hsame self) as [(Hch & _) _]. fold h' in Hch.
  pose proof (noise_fold self frac (children (h !!! self)) Hkeys Hvalues
                (zip (keys (children (h !!! self))) noise)) as Hfold.
  destruct (Hfold ltac:(rewrite fst_zip; [exact Hkeys |];
                         unfold keys; rewrite length_map; lia)
              h eq_refl Hrange) as [Hmix _].
  unfold child_priors. rewrite Hch. apply list_eq. intros i.
  rewrite lookup_zip_with. unfold values.
  change (map ?f ?l) with (f <$> l).
  rewrite !list_lookup_fmap.
  destruct (children (h !!! self) !! i) as [[a c]|] eqn:Hi;
    cbn [fmap option_fmap option_map mbind option_bind snd]; [| reflexivity].
  destruct (lookup_lt_is_Some_2 noise i) as [n Hn].
  { rewrite Hlen. eapply lookup_lt_Some. exact Hi. }
  rewrite Hn. cbn [mbind option_bind]. f_equal.
  apply (Hmix a c n).
  - eapply list_elem_of_lookup_2. exact Hi.
  - apply (list_elem_of_lookup_2 _ i). apply lookup_zip_with_Some.
    exists a, n. split; [reflexivity |]. split; [| exact Hn].
    unfold keys. change (map ?f ?l) with (f <$> l).
    now rewrite list_lookup_fmap, Hi.
Qed.

Lemma noise_other_priors (c : ref) :
  c ∉ values (children (h !!! self)) → prior (h' !!! c) = prior (h !!! c).
Proof.
  intros Hc.
  pose proof (noise_fold self frac (children (h !!! self)) Hkeys Hvalues
                (zip (keys (children (h !!! self))) noise)) as Hfold.
  destruct (Hfold ltac:(rewrite fst_zip; [exact Hkeys |];
                         unfold keys; rewrite length_map; lia)
              h eq_refl Hrange) as [_ Hkeep].
  apply Hkeep. intros a n _ Hin. apply Hc.
  apply list_elem_of_fmap. now exists (a, c).
Qed.
End noise_priors.

(** X7. [add_exploration_noise] on a node whose children are distinct,
    allocated nodes, with one noise entry per child: the prior of the
    [i]-th child becomes [prior * (1 - frac) + noise[i] * frac], no other
    prior changes and the links are kept.  When the priors and the noise
    are probability vectors and [0 <= frac <= 1], the new priors are a
    probability vector again. *)
Theorem exploration_noise_mixes_priors (self : ref) (noise : list R)
    (frac : R) (h : heap) :
  NoDup (keys (children (h !!! self))) →
  NoDup (values (children (h !!! self))) →
  (∀ a c, (a, c) ∈ children (h !!! self) → (c < length h)%nat) →
  length noise = length (children (h !!! self)) →
  let h' := add_exploration_noise self noise frac h in
  length h' = length h ∧
  children (h' !!! self) = children (h !!! self) ∧
  child_priors h' self =
    zip_with (λ p n, p * (1 - frac) + n * frac) (child_priors h self) noise ∧
  (∀ c, c ∉ values (children (h !!! self)) →
        prior (h' !!! c) = prior (h !!! c)) ∧
  (0 <= frac <= 1 → distribution (child_priors h self) →
   distribution noise → distribution (child_priors h' self)).
Proof.
  intros Hkeys Hvalues Hrange Hlen h'.
  destruct (add_exploration_noise_shape self noise frac h) as [Hl Hsame].
  split; [exact Hl |]. split; [apply (Hsame self) |].
  pose proof (noise_child_priors self noise frac h Hkeys Hvalues Hrange Hlen)
    as Hmix.
  split; [exact Hmix |]. split.
  - intros c. now apply noise_other_priors.
  - intros Hf Hp Hn. unfold h'. rewrite Hmix.
    apply distribution_mix; [exact Hf | | exact Hp | exact Hn].
    unfold child_priors, values. now rewrite !length_map.
Qed.

(** Uniform noise on the priors [[1/5, 1/2, 3/10]]. *)
Lemma exploration_noise_mixes_priors_witness :
  child_priors
    (add_exploration_noise 0%nat [1 / 3; 1 / 3; 1 / 3] (1 / 4) visited_tree)
    0%nat
  = [1 / 5 * (1 - 1 / 4) + 1 / 3 * (1 / 4);
     1 / 2 * (1 - 1 / 4) + 1 / 3 * (1 / 4);
     3 / 10 * (1 - 1 / 4) + 1 / 3 * (1 / 4)].
Proof.
  destruct (exploration_noise_mixes_priors 0%nat [1 / 3; 1 / 3; 1 / 3]
              (1 / 4) visited_tree) as (_ & _ & Hmix & _).
  - cbn. repeat constructor; intros H;
      repeat (apply elem_of_cons in H as [H|H]; [discriminate |]);
      inversion H.
  - cbn. repeat constructor; intros H;
      repeat (apply elem_of_cons in H as [H|H]; [discriminate |]);
      inversion H.
  - cbn. intros a c H.
    repeat (apply elem_of_cons in H as [[= _ <-]|H]; [lia |]).
    inversion H.
  - reflexivity.
  - exact Hmix.
Defined.

Lemma softmax_distribution (policy_logits : Z → R) (acts : list Z) :
  acts ≠ [] →
  distribution
    (map (λ a, exp (policy_logits a)
               / py_sum (map (λ a, exp (policy_logits a)) acts)) acts).
Proof.
  intros Hne.
  set (denom := py_sum (map (λ a, exp (policy_logits a)) acts)).
  assert (Hpos : 0 < denom).
  { apply py_sum_pos.
    - intros Hnil. now apply map_eq_nil in Hnil.
    - apply Forall_forall. intros x Hx.
      apply list_elem_of_fmap in Hx as (a & -> & _). apply exp_pos. }
  split.
  - apply Forall_forall. intros x Hx.
    apply list_elem_of_fmap in Hx as (a & -> & _).
    pose proof (exp_pos (policy_logits a)).
    apply Rmult_le_pos; [lra |]. left. now apply Rinv_0_lt_compat.
  - rewrite <- (map_map (λ a, exp (policy_logits a)) (λ x, x / denom)).
    rewrite py_sum_scale. fold denom. unfold Rdiv. apply Rinv_r. lra.
Qed.

Lemma child_priors_same (h h' : heap) (i : ref) :
  children (h' !!! i) = children (h !!! i) →
  (∀ a c, (a, c) ∈ children (h !!! i) → prior (h' !!! c) = prior (h !!! c)) →
  child_priors h' i = child_priors h i.
Proof.
  intros Hch Hp. unfold child_priors, values. rewrite Hch, !map_map.
  apply map_ext_in. intros [a c] Hin. apply list_elem_of_In in Hin.
  now apply (Hp a c).
Qed.

Lemma priors_distributed_same (h h' : heap) :
  length h' = length h →
  (∀ j, children (h' !!! j) = children (h !!! j) ∧
        prior (h' !!! j) = prior (h !!! j)) →
  priors_distributed h → priors_distributed h'.
Proof.
  intros Hlen Hsame Hpri i Hi Hne.
  destruct (Hsame i) as [Hch _]. rewrite Hch in Hne.
  rewrite (child_priors_same h h' i Hch).
  - apply Hpri; [lia | exact Hne].
  - intros a c _. apply Hsame.
Qed.

Lemma expand_priors_distributed (self : ref) (actions : list Z) (r : R)
    (policy_logits : Z → R) (hidden : tensor) (h : heap) :
  (self < length h)%nat → children (h !!! self) = [] → actions ≠ [] →
  tree_wf actions h → priors_distributed h →
  priors_distributed (expand self actions r policy_logits hidden h).
Proof.
  intros Hself Hleaf Hactions Hwf Hpri.
  set (h' := expand self actions r policy_logits hidden h).
  set (acts := first_occurrences actions).
  assert (Hold : ∀ j, (j < length h)%nat → prior (h' !!! j) = prior (h !!! j)).
  { intros j Hj. destruct (decide (j = self)) as [->|Hne].
    - unfold h'. now rewrite expand_leaf_self.
    - unfold h'. now rewrite expand_lookup_old. }
  intros i Hi Hne.
  destruct (expand_leaf_cases self actions r policy_logits hidden h Hself i Hi)
    as [->|[(Hlt & Hns & Heq)|(_ & p & Heq)]].
  - unfold child_priors, h'. rewrite expand_leaf_self by assumption.
    cbn [children set_children]. unfold values.
    change (map snd ?l) with (l.*2). rewrite snd_zip by (rewrite length_seq; lia).
    fold h'. unfold acts. rewrite <- (keys_policy_of policy_logits).
    unfold h'. rewrite new_priors by exact Hself.
    apply softmax_distribution. rewrite keys_policy_of.
    now apply first_occurrences_nonempty.
  - fold h' in Heq. rewrite (child_priors_same h h' i).
    + apply Hpri; [exact Hlt | now rewrite <- Heq].
    + now rewrite Heq.
    + intros a c Hin. apply Hold.
      pose proof (wf_refs _ _ Hwf i a c Hlt Hin). lia.
  - fold h' in Heq. rewrite Heq in Hne. now contradiction Hne.
Qed.

Lemma backpropagate_priors_distributed (config : Config) (path : list ref)
    (v : R) (mms : MinMaxStats) (h : heap) :
  priors_distributed h →
  priors_distributed (backpropagate config path v mms h).1.
Proof.
  destruct (backpropagate_shape config path v mms h) as (Hlen & Hsame & _).
  apply priors_distributed_same; [exact Hlen |].
  intros j. destruct (Hsame j) as [(Hch & _) Hp]. now split.
Qed.

Lemma noise_priors_distributed (actions : list Z) (noise : list R) (frac : R)
    (h : heap) :
  tree_wf actions h → tree_links h → children (h !!! 0%nat) ≠ [] →
  0 <= frac <= 1 → distribution noise →
  length noise = length (first_occurrences actions) →
  priors_distributed h →
  priors_distributed (add_exploration_noise 0%nat noise frac h).
Proof.
  intros Hwf Hlinks Hroot Hf Hnoise Hlen Hpri.
  pose proof (root_allocated _ Hroot) as H0.
  assert (Hkeys : keys (children (h !!! 0%nat)) = first_occurrences actions).
  { destruct (wf_keys _ _ Hwf 0%nat H0) as [H|H]; [contradiction | exact H]. }
  assert (Hknd : NoDup (keys (children (h !!! 0%nat)))).
  { rewrite Hkeys. apply first_occurrences_spec. }
  pose proof (links_nodup _ Hlinks 0%nat H0) as Hvnd.
  assert (Hrange : ∀ a c, (a, c) ∈ children (h !!! 0%nat) → (c < length h)%nat).
  { intros a c Hin. pose proof (wf_refs _ _ Hwf 0%nat a c H0 Hin). lia. }
  assert (Hlen' : length noise = length (children (h !!! 0%nat))).
  { rewrite Hlen, <- Hkeys. unfold keys. now rewrite length_map. }
  destruct (add_exploration_noise_shape 0%nat noise frac h) as [Hl Hsame].
  intros i Hi Hne. rewrite Hl in Hi.
  destruct (Hsame i) as [(Hch & _) _]. rewrite Hch in Hne.
  destruct (decide (i = 0%nat)) as [->|Hi0].
  - rewrite (noise_child_priors 0%nat noise frac h Hknd Hvnd Hrange Hlen').
    apply distribution_mix; [exact Hf | | now apply Hpri | exact Hnoise].
    unfold child_priors, values. now rewrite !length_map.
  - rewrite (child_priors_same h _ i Hch); [now apply Hpri |].
    intros a c Hin.
    apply (noise_other_priors 0%nat noise frac h Hknd Hvnd Hrange Hlen').
    intros Hc. apply list_elem_of_fmap in Hc as ([b c'] & Heq & Hin').
    cbn in Heq. subst c'.
    apply Hi0. exact (links_parent _ Hlinks i 0%nat a b c Hi H0 Hin Hin').
Qed.

Section simulate_priors.
Variables (config : Config) (model : Model) (fuel : nat) (s : Search).
Hypothesis Hbase : 0 < pb_c_base config.
Hypothesis Hactions : action_space config ≠ [].
Hypothesis Hwf : tree_wf (action_space config) (tree s).
Hypothesis Hroot : children (tree s !!! 0%nat) ≠ [].
Hypothesis Hfuel : (length (tree s) <= fuel)%nat.
Hypothesis Hpri : priors_distributed (tree s).

Lemma simulate_priors (s' : Search) :
  simulate config model fuel 0%nat s = Ok s' → priors_distributed (tree s').
Proof.
  pose proof (root_allocated _ Hroot) as Hlen.
  destruct (simulate_spec config model fuel s Hbase Hwf Hroot Hfuel)
    as (ext & leaf & a & parent & hid & Hrel & _ & _ & _ & _ & Hsim).
  destruct (descent_bounds config (stats s) (tree s) Hbase Hwf _ _ _ _ _
              Hrel Hlen) as (_ & Hleaf & Hnexp & _).
  apply expanded_false in Hnexp.
  destruct (recurrent_inference model hid a) as [[[v r] logits] hid'].
  cbv zeta in Hsim. rewrite Hsim. intros [= <-]. cbn [tree].
  apply backpropagate_priors_distributed.
  apply expand_priors_distributed;
    [lia | exact Hnexp | exact Hactions | exact Hwf | exact Hpri].
Qed.
End simulate_priors.

Lemma simulations_priors (config : Config) (model : Model) (fuel n : nat) :
  0 < pb_c_base config → action_space config ≠ [] →
  ∀ s s',
    tree_wf (action_space config) (tree s) →
    children (tree s !!! 0%nat) ≠ [] →
    (length (tree s)
     + n * length (first_occurrences (action_space config)) <= fuel)%nat →
    priors_distributed (tree s) →
    simulations config model fuel 0%nat n s = Ok s' →
    priors_distributed (tree s').
Proof.
  intros Hbase Hactions.
  induction n as [|n IH]; intros s s' Hwf Hroot Hfuel Hpri; cbn [simulations].
  - now intros [= <-].
  - rewrite Nat.mul_succ_l in Hfuel.
    destruct (simulate_post config model fuel s Hbase Hwf Hroot ltac:(lia))
      as (s1 & path & v & Hsim & Hwf1 & Hch1 & Hlen1 & _).
    rewrite Hsim. cbn [mbind result_bind].
    apply (IH s1 s' Hwf1); [congruence | lia |].
    exact (simulate_priors config model fuel s Hbase Hactions Hwf Hroot
             ltac:(lia) Hpri s1 Hsim).
Qed.

Lemma priors_distributed_fresh_root (p : R) : priors_distributed [Node_init p].
Proof.
  intros i Hi Hne. destruct i; [now contradiction Hne | simpl in Hi; lia].
Qed.

Section run_priors.
Variables (config : Config) (model : Model) (fuel : nat)
          (observation : tensor) (add_noise : bool) (noise : list R).
Hypothesis Hbase : 0 < pb_c_base config.
Hypothesis Hactions : action_space config ≠ [].
Hypothesis Hfuel :
  (1 + (num_simulations config + 1) * length (action_space config)
   <= fuel)%nat.
Hypothesis Hnoise :
  add_noise = true →
  0 <= root_exploration_fraction config <= 1 ∧ distribution noise ∧
  length noise = length (first_occurrences (action_space config)).

Lemma run_priors (s : Search) :
  run config model fuel observation add_noise noise = Ok (0%nat, s) →
  priors_distributed (tree s).
Proof.
  unfold run.
  destruct (initial_inference model observation) as [[[v0 r0] logits] hid].
  set (h0 := expand 0%nat (action_space config) r0 logits hid [Node_init 0]).
  set (h1 := if add_noise
             then add_exploration_noise 0%nat noise
                    (root_exploration_fraction config) h0
             else h0).
  set (m := length (first_occurrences (action_space config))).
  assert (Hm : (m <= length (action_space config))%nat)
    by apply length_first_occurrences.
  assert (H0 : (0 < length [Node_init 0])%nat) by (simpl; lia).
  assert (Hwf0 : tree_wf (action_space config) h0).
  { apply expand_tree_wf; [exact H0 | reflexivity |].
    apply tree_wf_fresh_root. }
  assert (Hlinks0 : tree_links h0).
  { apply expand_tree_links with (actions := action_space config);
      [exact H0 | reflexivity | apply tree_wf_fresh_root
       | apply tree_links_fresh_root]. }
  assert (Hlen0 : length h0 = (1 + m)%nat).
  { unfold h0. rewrite length_expand_leaf by exact H0. reflexivity. }
  assert (Hroot0 : children (h0 !!! 0%nat) ≠ []).
  { unfold h0. rewrite expand_leaf_self by (exact H0 || reflexivity).
    cbn [children set_children].
    pose proof (first_occurrences_nonempty _ Hactions) as Hne.
    destruct (first_occurrences (action_space config)); [contradiction |].
    discriminate. }
  assert (Hpri0 : priors_distributed h0).
  { apply expand_priors_distributed;
      [exact H0 | reflexivity | exact Hactions | apply tree_wf_fresh_root
       | apply priors_distributed_fresh_root]. }
  assert (H1 : length h1 = length h0 ∧
               ∀ j, same_links (h0 !!! j) (h1 !!! j)).
  { unfold h1. destruct add_noise.
    - destruct (add_exploration_noise_shape 0%nat noise
                  (root_exploration_fraction config) h0) as [Hl Hs].
      split; [exact Hl |]. intros j. apply Hs.
    - split; [reflexivity |]. intros j. apply same_links_refl. }
  destruct H1 as [Hlen1 Hsame1].
  assert (Hwf1 : tree_wf (action_space config) h1).
  { eapply tree_wf_same_links; [exact Hwf0 | exact Hlen1 | exact Hsame1]. }
  assert (Hroot1 : children (h1 !!! 0%nat) ≠ []).
  { destruct (Hsame1 0%nat) as (-> & _). exact Hroot0. }
  assert (Hpri1 : priors_distributed h1).
  { unfold h1. destruct add_noise; [| exact Hpri0].
    destruct (Hnoise eq_refl) as (Hf & Hd & Hl).
    now apply (noise_priors_distributed (action_space config)). }
  destruct (simulations config model fuel 0%nat (num_simulations config)
              {| tree := h1; stats := MinMaxStats_init; backprops := [] |})
    as [s1| |] eqn:Hsims; cbn [mbind result_bind]; try discriminate.
  intros [= <-].
  apply (simulations_priors config model fuel (num_simulations config)
           Hbase Hactions
           {| tree := h1; stats := MinMaxStats_init; backprops := [] |}
           s1 Hwf1 Hroot1); [| exact Hpri1 | exact Hsims].
  cbn [tree]. rewrite Hlen1, Hlen0. fold m. nia.
Qed.
End run_priors.



(** ** A whole game of self-play *)

Lemma child_visit_le_sum (h : heap) (i : ref) (a : Z) (c : ref) :
  (a, c) ∈ children (h !!! i) →
  (visit_count (h !!! c) <= child_visit_sum h i)%nat.
Proof.
  intros Hin. unfold child_visit_sum.
  pose proof (fold_left_add_ge
                (map (λ c, visit_count (h !!! c)) (values (children (h !!! i))))
                0%nat (visit_count (h !!! c))) as Hge.
  rewrite fold_left_add_sum_list, Nat.add_0_l in Hge. apply Hge.
  apply list_elem_of_fmap. exists c. split; [reflexivity |].
  apply list_elem_of_fmap. now exists (a, c).
Qed.

Lemma power_sum_le (counts : list nat) (n : nat) (e : R) :
  0 < e → Forall (λ c, (c <= n)%nat) counts →
  power_sum counts e <= INR (length counts) * Rpower (INR n) e.
Proof.
  intros He. unfold power_sum.
  induction 1 as [|c counts Hc _ IH].
  - cbn. rewrite Rmult_0_l. unfold py_sum. cbn. lra.
  - cbn [map]. rewrite py_sum_cons.
    change (length (c :: counts)) with (S (length counts)). rewrite S_INR.
    assert (real_power c e <= Rpower (INR n) e); [| lra].
    unfold real_power. destruct (Nat.eq_dec c 0) as [->|Hc0].
    + left. apply exp_pos.
    + apply Rle_Rpower_l; [lra |]. split.
      * apply lt_0_INR. lia.
      * now apply le_INR.
Qed.

Section play_complete.
Variables (config : Config) (model : Model) (game : Game)
          (search_fuel : nat) (rng : nat → Draws) (temp : temperature)
          (do_render : bool).
Hypothesis Hbase : 0 < pb_c_base config.
Hypothesis Hactions : action_space config ≠ [].
Hypothesis Hsims : (0 < num_simulations config)%nat.
Hypothesis Hsearch :
  (1 + (num_simulations config + 1) * length (action_space config)
   <= search_fuel)%nat.
Hypothesis Htemp : temperature_ok temp.
Hypothesis Hrange : sampling_in_range config temp.
Hypothesis Hrng : ∀ i, choice_u (rng i) < 1.

Let row_ok (row : list R) : Prop :=
  length row = length (action_space config) ∧
  Forall (λ x, 0 <= x <= 1) row ∧
  (NoDup (action_space config) → py_sum row = 1).

Lemma play_move_post (i : nat) (ep : Episode game) :
  ∃ ep1 a row,
    play_move config model game search_fuel (rng i) temp do_render ep
      = Ok ep1 ∧
    a ∈ action_space config ∧ row_ok row ∧
    history (ep_history ep1) = history (ep_history ep) ++ [a] ∧
    child_visits (ep_history ep1) = child_visits (ep_history ep) ++ [row] ∧
    ep_done ep1 = (step game (ep_env ep) a).2.2.
Proof.
  unfold play_move.
  destruct (run_root_visits config model search_fuel (ep_observation ep) true
              (dirichlet_noise (rng i)) Hbase Hactions Hsearch)
    as (s & Hrun & Hwf & Hroot & Hsum).
  destruct (run_post config model search_fuel (ep_observation ep) true
              (dirichlet_noise (rng i)) Hbase Hactions Hsearch)
    as (s0 & Hrun0 & _ & _ & _ & _ & Hvis).
  rewrite Hrun in Hrun0. injection Hrun0 as <-.
  specialize (Hvis Hsims). rewrite Hrun. cbn [mbind result_bind].
  assert (Hkeys : keys (children (tree s !!! 0%nat))
                  = first_occurrences (action_space config)).
  { destruct (wf_keys _ _ Hwf 0%nat (root_allocated _ Hroot)) as [H|H];
      [contradiction | exact H]. }
  destruct (select_action_returns 0%nat temp (tree s) (choice_u (rng i))
              (choice_k (rng i)) Htemp (Hrng i) Hvis) as (a & -> & Hkey).
  { intros t -> Ht. specialize (Hrange Ht).
    assert (He : 0 < 1 / t) by (apply Rdiv_lt_0_compat; lra).
    set (counts := map (λ ac : Z * ref, visit_count (tree s !!! ac.2))
                       (children (tree s !!! 0%nat))).
    assert (Hle : power_sum counts (1 / t)
                  <= INR (length counts)
                     * Rpower (INR (num_simulations config)) (1 / t)).
    { apply power_sum_le; [exact He |]. apply Forall_forall. intros x Hx.
      apply list_elem_of_fmap in Hx as ([b c] & -> & Hin). cbn [snd].
      rewrite <- Hsum. now apply (child_visit_le_sum _ _ b). }
    assert (Hlen : (length counts <= length (action_space config))%nat).
    { unfold counts. rewrite length_map.
      rewrite <- (length_map fst). fold (keys (children (tree s !!! 0%nat))).
      rewrite Hkeys. apply length_first_occurrences. }
    apply le_INR in Hlen.
    assert (0 < Rpower (INR (num_simulations config)) (1 / t))
      by apply exp_pos.
    assert (INR (length counts)
            * Rpower (INR (num_simulations config)) (1 / t)
            <= INR (length (action_space config))
               * Rpower (INR (num_simulations config)) (1 / t)).
    { apply Rmult_le_compat_r; lra. }
    lra. }
  cbn [mbind result_bind].
  assert (Ha : a ∈ action_space config).
  { destruct (wf_keys _ _ Hwf 0%nat (root_allocated _ Hroot)) as [H|H];
      [contradiction |].
    rewrite H in Hkey. now apply first_occurrences_spec. }
  assert (Hpos : (0 < child_visit_sum (tree s) 0%nat)%nat) by lia.
  destruct (step game (ep_env ep) a) as [e [[obs r] done]] eqn:Hstep.
  rewrite store_search_statistics_spec by exact Hpos.
  cbn [mbind result_bind].
  eexists _, a, _. split; [reflexivity |]. split; [exact Ha |].
  split; cycle 1.
  { cbn. rewrite Hstep. split; [reflexivity |]. split; reflexivity. }
  split; [apply length_map |]. split.
  - apply Forall_forall. intros x Hx.
    apply list_elem_of_fmap in Hx as (b & -> & _).
    apply (fraction_bounds (tree s) Hpos b).
  - intros Hnd. now apply (fractions_sum _ _ Hwf Hroot Hpos).
Qed.

Lemma play_loop_post (fuel : nat) :
  ∀ ep,
    Forall (λ a, a ∈ action_space config) (history (ep_history ep)) →
    Forall row_ok (child_visits (ep_history ep)) →
    (length (history (ep_history ep)) <= max_moves config)%nat →
    (max_moves config <= fuel + length (history (ep_history ep)))%nat →
    ∃ ep1,
      play_loop config model game fuel search_fuel rng temp do_render ep
        = Ok ep1 ∧
      Forall (λ a, a ∈ action_space config) (history (ep_history ep1)) ∧
      Forall row_ok (child_visits (ep_history ep1)) ∧
      (length (history (ep_history ep1)) <= max_moves config)%nat ∧
      ((∀ e a, (step game e a).2.2 = false) → ep_done ep = false →
       length (history (ep_history ep1)) = max_moves config).
Proof.
  induction fuel as [|fuel IH]; intros ep Hhist Hrows Hle Hfuel;
    cbn [play_loop].
  - destruct (Nat.ltb_spec (length (history (ep_history ep)))
                (max_moves config)); [lia |].
    rewrite andb_false_r. exists ep. split; [reflexivity |].
    split; [exact Hhist |]. split; [exact Hrows |]. split; lia.
  - destruct (ep_done ep) eqn:Hdone; cbn [negb andb].
    { exists ep. split; [reflexivity |]. split; [exact Hhist |].
      split; [exact Hrows |]. split; [lia | discriminate]. }
    destruct (Nat.ltb_spec (length (history (ep_history ep)))
                (max_moves config)) as [Hlt|Hge].
    + destruct (play_move_post (length (history (ep_history ep))) ep)
        as (ep1 & a & row & Hmove & Ha & Hrow & Hh1 & Hc1 & Hd1).
      rewrite Hmove. cbn [mbind result_bind].
      destruct (IH ep1) as (ep2 & Hloop & Hhist2 & Hrows2 & Hle2 & Hfull).
      * rewrite Hh1. apply Forall_app. split; [exact Hhist |].
        now constructor.
      * rewrite Hc1. apply Forall_app. split; [exact Hrows |].
        now constructor.
      * rewrite Hh1, length_app. simpl. lia.
      * rewrite Hh1, length_app. simpl. lia.
      * exists ep2. split; [exact Hloop |]. split; [exact Hhist2 |].
        split; [exact Hrows2 |]. split; [exact Hle2 |].
        intros Hnever _. apply Hfull; [exact Hnever |].
        rewrite Hd1. apply Hnever.
    + exists ep. split; [reflexivity |]. split; [exact Hhist |].
      split; [exact Hrows |]. split; lia.
Qed.

Lemma play_game_post (fuel : nat) (e : env game) :
  (max_moves config <= fuel)%nat →
  ∃ e1 gh,
    play_game config model game fuel search_fuel rng temp do_render e
      = Ok (e1, gh) ∧
    Forall (λ a, a ∈ action_space config) (history gh) ∧
    Forall row_ok (child_visits gh) ∧
    (length (history gh) <= max_moves config)%nat ∧
    ((∀ e a, (step game e a).2.2 = false) →
     length (history gh) = max_moves config).
Proof.
  intros Hfuel. unfold play_game.
  destruct (play_loop_post fuel (play_start config game e))
    as (ep & -> & Hhist & Hrows & Hle & Hfull).
  - unfold play_start. destruct (reset game e). cbn. constructor.
  - unfold play_start. destruct (reset game e). cbn. constructor.
  - unfold play_start. destruct (reset game e). cbn. lia.
  - unfold play_start. destruct (reset game e). cbn. lia.
  - cbn [mbind result_bind]. exists (close game (ep_env ep)), (ep_history ep).
    split; [reflexivity |]. split; [exact Hhist |]. split; [exact Hrows |].
    split; [exact Hle |]. intros Hnever. apply Hfull; [exact Hnever |].
    unfold play_start. destruct (reset game e). reflexivity.
Qed.
End play_complete.



(** ** Self-play without simulations *)

Lemma run_no_simulations (config : Config) (model : Model) (fuel : nat)
    (observation : tensor) (add_noise : bool) (noise : list R) :
  num_simulations config = 0%nat → action_space config ≠ [] →
  ∃ s,
    run config model fuel observation add_noise noise = Ok (0%nat, s) ∧
    tree_wf (action_space config) (tree s) ∧
    children (tree s !!! 0%nat) ≠ [] ∧
    ∀ j, visit_count (tree s !!! j) = 0%nat.
Proof.
  intros Hn Hactions. unfold run. rewrite Hn.
  destruct (initial_inference model observation) as [[[v0 r0] logits] hid].
  set (h0 := expand 0%nat (action_space config) r0 logits hid [Node_init 0]).
  set (h1 := if add_noise
             then add_exploration_noise 0%nat noise
                    (root_exploration_fraction config) h0
             else h0).
  cbn [simulations mbind result_bind].
  assert (H0 : (0 < length [Node_init 0])%nat) by (simpl; lia).
  assert (Hwf0 : tree_wf (action_space config) h0).
  { apply expand_tree_wf; [exact H0 | reflexivity |].
    apply tree_wf_fresh_root. }
  assert (Hroot0 : children (h0 !!! 0%nat) ≠ []).
  { unfold h0. rewrite expand_leaf_self by (exact H0 || reflexivity).
    cbn [children set_children].
    pose proof (first_occurrences_nonempty _ Hactions) as Hne.
    destruct (first_occurrences (action_space config)); [contradiction |].
    discriminate. }
  assert (Hzero : ∀ j, visit_count (h0 !!! j) = 0%nat).
  { intros j. destruct (decide (j < length h0)%nat) as [Hj|Hj].
    - destruct (expand_leaf_cases 0%nat (action_space config) r0 logits hid
                  [Node_init 0] H0 j Hj) as [->|[(Hlt & Hne & _)|(_ & p & Hp)]].
      + unfold h0. now rewrite expand_leaf_self by (exact H0 || reflexivity).
      + simpl in Hlt. lia.
      + fold h0 in Hp. now rewrite Hp.
    - rewrite list_lookup_total_alt, lookup_ge_None_2 by lia. reflexivity. }
  assert (H1 : length h1 = length h0 ∧
               ∀ j, same_links (h0 !!! j) (h1 !!! j) ∧
                    visit_count (h1 !!! j) = visit_count (h0 !!! j)).
  { unfold h1. destruct add_noise.
    - apply add_exploration_noise_shape.
    - split; [reflexivity |]. intros j.
      split; [apply same_links_refl | reflexivity]. }
  destruct H1 as [Hlen1 Hsame1].
  eexists. split; [reflexivity |]. cbn [tree]. split.
  { eapply tree_wf_same_links; [exact Hwf0 | exact Hlen1 |].
    intros j. apply Hsame1. }
  split.
  { destruct (Hsame1 0%nat) as [(-> & _) _]. exact Hroot0. }
  intros j. destruct (Hsame1 j) as [_ ->]. apply Hzero.
Qed.

Lemma power_counts_unvisited (counts : list nat) (e : R) :
  counts ≠ [] → Forall (λ c, c = 0%nat) counts → e ≠ 0 →
  match power_counts counts e with
  | Some dist => py_sum dist = 0
  | None => True
  end.
Proof.
  intros Hne Hall He.
  destruct (Rlt_dec 0 e) as [Hpos|Hneg].
  - destruct (power_counts_pos_exponent counts e Hpos)
      as (dist & -> & _ & _ & _ & Hz & _).
    { rewrite (power_sum_unvisited counts e Hall).
      pose proof float_inf_gt_1. lra. }
    apply py_sum_zero, Hz, Hall.
  - destruct counts as [|c counts]; [contradiction |].
    apply Forall_cons in Hall as [-> _].
    cbn [power_counts]. unfold np_power.
    destruct (Req_dec_T e 0) as [|_]; [contradiction |].
    destruct (Nat.eq_dec 0 0) as [_|]; [| contradiction].
    destruct (Rlt_dec 0 e); [contradiction | exact I].
Qed.

Section unvisited_root.
Variables (actions : list Z) (h : heap).
Hypothesis Hactions : actions ≠ [].
Hypothesis Hwf : tree_wf actions h.
Hypothesis Hroot : children (h !!! 0%nat) ≠ [].
Hypothesis Hzero : ∀ j, visit_count (h !!! j) = 0%nat.

Lemma select_action_unvisited_root (temp : temperature) (u : R) (k : nat) :
  match temp with
  | Temp t =>
      if Req_dec_T t 0
      then ∃ a, select_action 0%nat temp h u k = Ok a
      else select_action 0%nat temp h u k = Raise ValueError
  | TempInf => ∃ a, select_action 0%nat temp h u k = Ok a
  end.
Proof.
  destruct temp as [t|].
  - destruct (Req_dec_T t 0) as [->|Hnz].
    + destruct (greedy_selection 0%nat h Hroot) as (pos & a & c & _ & Hsel & _).
      exists a. apply Hsel.
    + unfold select_action.
      destruct (children (h !!! 0%nat)) as [|it items] eqn:Hitems;
        [contradiction |].
      destruct (Req_dec_T t 0) as [|_]; [contradiction |].
      pose proof (power_counts_unvisited
                    (map (λ ac : Z * ref, visit_count (h !!! ac.2))
                         (it :: items)) (1 / t)) as Hp.
      destruct (power_counts _ (1 / t)) as [dist|]; [| reflexivity].
      cbv zeta. rewrite Hp; [| discriminate | |].
      * destruct (Req_dec_T 0 0) as [_|]; [reflexivity | contradiction].
      * apply Forall_forall. intros x Hx.
        apply list_elem_of_fmap in Hx as (ac & -> & _). apply Hzero.
      * unfold Rdiv. rewrite Rmult_1_l. now apply Rinv_neq_0_compat.
  - unfold select_action.
    destruct (children (h !!! 0%nat)) as [|it items] eqn:Hitems;
      [contradiction |].
    rewrite power_counts_zero_exponent, py_sum_ones. cbv zeta.
    destruct (Req_dec_T _ 0) as [Hz|_].
    { rewrite length_map in Hz. simpl length in Hz.
      rewrite S_INR in Hz. pose proof (pos_INR (length items)). lra. }
    cbn [mbind result_bind].
    assert (Hk : (k mod length (keys (it :: items))
                  < length (keys (it :: items)))%nat).
    { apply Nat.mod_upper_bound. unfold keys. simpl. lia. }
    destruct (lookup_lt_is_Some_2 _ _ Hk) as [a Ha].
    rewrite Ha. now exists a.
Qed.

Lemma store_search_statistics_unvisited_root (gh : GameHistory) :
  store_search_statistics 0%nat h actions gh = Raise ZeroDivisionError.
Proof.
  unfold store_search_statistics.
  rewrite fold_left_add_sum_list, Nat.add_0_l.
  rewrite sum_list_map_zero by (intros c _; apply Hzero).
  destruct actions as [|a actions']; [contradiction |].
  destruct (root_child_of_action (a :: actions') h a Hwf Hroot ltac:(left))
    as (c & Hget & _).
  cbn [visit_fractions]. rewrite Hget. unfold py_div.
  destruct (Req_dec_T (INR 0) 0) as [_|Hn]; [reflexivity |].
  now contradiction Hn.
Qed.
End unvisited_root.

(** X10. With [num_simulations = 0] self-play cannot record a move: the
    first move raises.  At a finite non-zero temperature [select_action]
    raises [ValueError] (the visit distribution is [0/0]); at temperature
    [0] or infinity an action is selected and played, and
    [store_search_statistics] then divides by zero. *)
Theorem play_game_without_simulations (config : Config) (model : Model)
    (game : Game) (fuel search_fuel : nat) (rng : nat → Draws)
    (temp : temperature) (do_render : bool) (e : env game) :
  num_simulations config = 0%nat →
  action_space config ≠ [] →
  (0 < max_moves config)%nat → (0 < fuel)%nat →
  play_game config model game fuel search_fuel rng temp do_render e =
  Raise match temp with
        | Temp t => if Req_dec_T t 0 then ZeroDivisionError else ValueError
        | TempInf => ZeroDivisionError
        end.
Proof.
  intros Hn Hactions Hmoves Hfuel.
  destruct fuel as [|fuel]; [lia |].
  unfold play_game, play_start. destruct (reset game e) as [e0 obs].
  cbn [play_loop ep_done ep_history history GameHistory_init negb andb app
       length].
  destruct (Nat.ltb_spec 0 (max_moves config)) as [_|]; [| lia].
  unfold play_move. cbn [ep_observation ep_env ep_history].
  destruct (run_no_simulations config model search_fuel obs true
              (dirichlet_noise (rng 0%nat)) Hn Hactions)
    as (s & -> & Hwf & Hroot & Hzero).
  cbn [mbind result_bind].
  pose proof (select_action_unvisited_root (tree s) Hroot Hzero temp
                (choice_u (rng 0%nat)) (choice_k (rng 0%nat))) as Hsel.
  destruct temp as [t|].
  - destruct (Req_dec_T t 0) as [Ht|Ht].
    + destruct Hsel as [a ->]. cbn [mbind result_bind].
      destruct (step game e0 a) as [e1 [[obs1 r] done]].
      rewrite (store_search_statistics_unvisited_root _ _ Hactions Hwf Hroot
                 Hzero). reflexivity.
    + rewrite Hsel. reflexivity.
  - destruct Hsel as [a ->]. cbn [mbind result_bind].
    destruct (step game e0 a) as [e1 [[obs1 r] done]].
    rewrite (store_search_statistics_unvisited_root _ _ Hactions Hwf Hroot
               Hzero). reflexivity.
Qed.

(** The scenario with no simulation, played greedily. *)
Lemma play_game_without_simulations_witness :
  play_game {| action_space := [0; 1; 2]%Z; discount := 997 / 1000;
               max_moves := 3; num_simulations := 0; pb_c_base := 19652;
               pb_c_init := 5 / 4; root_dirichlet_alpha := 1 / 4;
               root_exploration_fraction := 1 / 4 |}
            scenario_model counter_game 3 7 fixed_draws (Temp 0) false 0%nat
  = Raise (if Req_dec_T 0 0 then ZeroDivisionError else ValueError).
Proof.
  apply (play_game_without_simulations
           {| action_space := [0; 1; 2]%Z; discount := 997 / 1000;
              max_moves := 3; num_simulations := 0; pb_c_base := 19652;
              pb_c_init := 5 / 4; root_dirichlet_alpha := 1 / 4;
              root_exploration_fraction := 1 / 4 |}
           scenario_model counter_game 3 7 fixed_draws (Temp 0) false 0%nat).
  - reflexivity.
  - discriminate.
  - simpl. lia.
  - lia.
Defined.

(** ** Which child the sampling can return *)

Lemma searchsorted_right_positive (z u : R) (p : list R) (acc : R) :
  0 < z → acc / z <= u →
  ∀ x, p !! searchsorted_right (map (λ y, y / z) (cumsum_from acc p)) u
       = Some x →
       0 < x.
Proof.
  intros Hz. revert acc. induction p as [|y p IH]; intros acc Hacc x;
    [discriminate |].
  cbn [cumsum_from map searchsorted_right].
  destruct (Rle_dec ((acc + y) / z) u) as [Hle|Hgt].
  - cbn [lookup list_lookup]. now apply IH.
  - cbn [lookup list_lookup]. intros [= <-].
    apply Rnot_le_lt in Hgt.
    assert (Hlt : acc / z < (acc + y) / z) by lra.
    unfold Rdiv in Hlt. apply Rmult_lt_reg_r in Hlt; [lra |].
    now apply Rinv_0_lt_compat.
Qed.

Lemma random_choice_p_positive (p : list R) (u : R) :
  p ≠ [] → 0 < py_sum p → 0 <= u →
  ∀ x, p !! random_choice_p p u = Some x → 0 < x.
Proof.
  intros Hne Hsum Hu. unfold random_choice_p, cumsum.
  rewrite (last_cumsum_from 0 p Hne).
  replace (0 + py_sum p) with (py_sum p) by lra.
  apply searchsorted_right_positive; [exact Hsum |].
  unfold Rdiv. rewrite Rmult_0_l. exact Hu.
Qed.

Lemma power_counts_positive_entry (counts : list nat) (e : R) :
  0 < e →
  ∀ dist i x, power_counts counts e = Some dist → dist !! i = Some x →
              0 < x → ∃ c, counts !! i = Some c ∧ (0 < c)%nat.
Proof.
  intros He dist i x Hd Hi Hx.
  destruct (power_counts_Some counts e He dist Hd) as [-> _].
  change (map ?f ?l) with (f <$> l) in Hi. rewrite list_lookup_fmap in Hi.
  destruct (counts !! i) as [c|]; [| discriminate].
  injection Hi as <-. exists c. split; [reflexivity |].
  destruct c; [| lia]. unfold real_power in Hx. cbn in Hx. lra.
Qed.

Lemma select_action_sampled_child (node : ref) (t : R) (h : heap) (u : R)
    (k : nat) (a : Z) :
  0 < t → 0 <= u →
  select_action node (Temp t) h u k = Ok a →
  ∃ c, (a, c) ∈ children (h !!! node) ∧ (0 < visit_count (h !!! c))%nat.
Proof.
  intros Ht Hu. unfold select_action.
  set (items := children (h !!! node)).
  set (counts := map (λ ac : Z * ref, visit_count (h !!! ac.2)) items).
  destruct items as [|it items'] eqn:Hitems; [discriminate |].
  destruct (Req_dec_T t 0) as [->|_]; [lra |].
  assert (He : 0 < 1 / t) by (apply Rdiv_lt_0_compat; lra).
  destruct (power_counts counts (1 / t)) as [dist|] eqn:Hd; [| discriminate].
  cbv zeta. destruct (Req_dec_T (py_sum dist) 0) as [|Hnz]; [discriminate |].
  destruct (Rle_dec float_inf (py_sum dist)) as [|_]; [discriminate |].
  cbn [mbind result_bind].
  set (p := map (λ x, x / py_sum dist) dist).
  set (i := random_choice_p p u).
  destruct (keys (it :: items') !! i) as [a'|] eqn:Hpos;
    [| discriminate].
  intros [= ->].
  assert (Hlen : length dist = length counts).
  { destruct (power_counts_Some counts (1 / t) He dist Hd) as [-> _].
    apply length_map. }
  assert (Hnn : Forall (λ x, 0 <= x) dist).
  { destruct (power_counts_Some counts (1 / t) He dist Hd) as [-> _].
    apply Forall_forall. intros x Hx.
    apply list_elem_of_fmap in Hx as (c & -> & _). apply real_power_nonneg. }
  assert (Htotal : 0 < py_sum dist).
  { pose proof (py_sum_nonneg dist Hnn). lra. }
  assert (Hsum : py_sum p = 1).
  { unfold p. rewrite py_sum_scale. unfold Rdiv. now apply Rinv_r. }
  unfold keys in Hpos. change (map ?f ?l) with (f <$> l) in Hpos.
  rewrite list_lookup_fmap in Hpos.
  destruct ((it :: items') !! i) as [[a0 c]|] eqn:Hitem;
    [| discriminate].
  injection Hpos as ->.
  exists c. split; [eapply list_elem_of_lookup_2; exact Hitem |].
  assert (Hc : counts !! i = Some (visit_count (h !!! c))).
  { unfold counts. change (map ?f ?l) with (f <$> l).
    now rewrite list_lookup_fmap, Hitem. }
  destruct (lookup_lt_is_Some_2 dist i) as [x Hx].
  { rewrite Hlen. eapply lookup_lt_Some. exact Hc. }
  assert (Hxp : 0 < x / py_sum dist).
  { apply (random_choice_p_positive p u); [| lra | exact Hu |].
    - unfold p. destruct dist; [discriminate | discriminate].
    - fold i. unfold p. change (map ?f ?l) with (f <$> l).
      now rewrite list_lookup_fmap, Hx. }
  assert (Hx0 : 0 < x).
  { unfold Rdiv in Hxp.
    apply (Rmult_lt_compat_r (py_sum dist)) in Hxp; [| exact Htotal].
    rewrite Rmult_assoc, Rinv_l, Rmult_0_l in Hxp by lra. lra. }
  destruct (power_counts_positive_entry counts (1 / t) He dist _ x Hd Hx Hx0)
    as (c0 & Hc0 & Hpos0).
  rewrite Hc in Hc0. injection Hc0 as <-. exact Hpos0.
Qed.

(** X11. At a finite temperature [t >= 0], when some child of the root
    was visited, an action that [select_action] returns is that of a
    visited child: an action whose child has visit count [0] is never
    selected.  An action is returned at temperature [0], and at [t > 0]
    when the powers [visit_count ** (1 / t)] and their sum stay within
    the range of floats. *)
Theorem select_action_returns_visited (node : ref) (t : R) (h : heap)
    (u : R) (k : nat) :
  0 <= t → 0 <= u < 1 →
  (∃ a c, (a, c) ∈ children (h !!! node) ∧ (0 < visit_count (h !!! c))%nat) →
  (∀ a, select_action node (Temp t) h u k = Ok a →
        ∃ c, (a, c) ∈ children (h !!! node) ∧
             (0 < visit_count (h !!! c))%nat) ∧
  (t = 0 ∨
   power_sum (map (λ ac : Z * ref, visit_count (h !!! ac.2))
                  (children (h !!! node))) (1 / t) < float_inf →
   ∃ a, select_action node (Temp t) h u k = Ok a).
Proof.
  intros Ht [Hu0 Hu1] Hvis.
  destruct (Req_dec_T t 0) as [->|Hnz].
  - destruct Hvis as (a0 & c0 & Hin0 & Hpos0).
    assert (Hne : children (h !!! node) ≠ []).
    { intros Hnil. rewrite Hnil in Hin0. inversion Hin0. }
    destruct (greedy_selection node h Hne)
      as (pos & a & c & Hitem & Hsel & Hmax & _).
    split.
    + intros a' Ha'. rewrite Hsel in Ha'. injection Ha' as <-.
      exists c. split; [eapply list_elem_of_lookup_2; exact Hitem |].
      apply list_elem_of_lookup in Hin0 as [i Hi].
      specialize (Hmax i a0 c0 Hi). lia.
    + intros _. exists a. apply Hsel.
  - assert (Hpos : 0 < t) by lra. split.
    + intros a Hsel.
      exact (select_action_sampled_child node t h u k a Hpos Hu0 Hsel).
    + intros [Hz|Hrange]; [contradiction |].
      destruct (select_action_visited node t h u k Hpos Hu1 Hvis Hrange)
        as (_ & _ & _ & a & Hsel & _).
      now exists a.
Qed.

(** Visit counts [{0: 3, 1: 7, 2: 0}] at temperature [1]. *)
Lemma select_action_returns_visited_witness :
  ∃ a c, select_action 0%nat (Temp 1) visited_tree (1 / 2) 0 = Ok a ∧
         (a, c) ∈ children (visited_tree !!! 0%nat) ∧
         (0 < visit_count (visited_tree !!! c))%nat.
Proof.
  destruct (select_action_returns_visited 0%nat 1 visited_tree (1 / 2) 0)
    as [Hvisited Hreturns].
  - lra.
  - lra.
  - exists 0%Z, 1%nat. split; [left | simpl; lia].
  - destruct Hreturns as [a Ha].
    + right. replace (1 / 1) with 1 by lra. rewrite power_sum_one.
      change (INR 10 < float_inf).
      pose proof (pow2_lt_float_inf 4 ltac:(lia)) as H4.
      simpl in H4 |- *. lra.
    + destruct (Hvisited a Ha) as (c & Hin & Hc). now exists a, c.
Defined.

(** ** Temperatures outside the positive numbers *)

Lemma power_counts_lookup (counts : list nat) (e : R) (dist : list R) :
  power_counts counts e = Some dist →
  ∀ i c, counts !! i = Some c → ∃ x, np_power c e = Some x.
Proof.
  revert dist. induction counts as [|c0 counts IH]; intros dist Hd i c Hi;
    [destruct i; discriminate |].
  cbn [power_counts] in Hd.
  destruct (np_power c0 e) as [x0|] eqn:Hx0; [| discriminate].
  destruct (power_counts counts e) as [dist'|]; [| discriminate].
  destruct i as [|i].
  - injection Hi as <-. now exists x0.
  - now apply (IH dist' eq_refl i c).
Qed.

(** X12. At infinite temperature [select_action] ignores the visit
    counts: for any node with children, visited or not, it returns the
    action at the position drawn by [numpy.random.choice(n)]. *)
Theorem select_action_infinite_temperature (node : ref) (h : heap) (u : R)
    (k : nat) :
  children (h !!! node) ≠ [] →
  ∃ a c,
    children (h !!! node) !! (k mod length (children (h !!! node)))%nat
      = Some (a, c) ∧
    select_action node TempInf h u k = Ok a.
Proof.
  intros Hne. unfold select_action.
  destruct (children (h !!! node)) as [|it items] eqn:Hitems;
    [contradiction |].
  rewrite power_counts_zero_exponent, py_sum_ones. cbv zeta.
  destruct (Req_dec_T _ 0) as [Hz|_].
  { rewrite length_map in Hz. simpl length in Hz.
    rewrite S_INR in Hz. pose proof (pos_INR (length items)). lra. }
  cbn [mbind result_bind].
  assert (Hlen : length (keys (it :: items)) = length (it :: items)).
  { unfold keys. now rewrite length_map. }
  rewrite Hlen.
  assert (Hk : (k mod length (it :: items) < length (it :: items))%nat).
  { apply Nat.mod_upper_bound. simpl. lia. }
  destruct (lookup_lt_is_Some_2 _ _ Hk) as [[a c] Hac].
  exists a, c. split; [exact Hac |].
  unfold keys. change (map ?f ?l) with (f <$> l).
  now rewrite list_lookup_fmap, Hac.
Qed.

(** Visit counts [{0: 3, 1: 7, 2: 0}] and the draw [4], position [1]. *)
Lemma select_action_infinite_temperature_witness :
  ∃ a, select_action 0%nat TempInf visited_tree (1 / 2) 4 = Ok a.
Proof.
  destruct (select_action_infinite_temperature 0%nat visited_tree (1 / 2) 4)
    as (a & c & _ & Hsel).
  - discriminate.
  - now exists a.
Defined.

(** X13. At a negative temperature [select_action] raises [ValueError]
    as soon as one child of the node is unvisited: [0 ** (1 / t)] is
    infinite and the distribution is not a number. *)
Theorem select_action_negative_temperature (node : ref) (t : R) (h : heap)
    (u : R) (k : nat) :
  t < 0 →
  (∃ a c, (a, c) ∈ children (h !!! node) ∧ visit_count (h !!! c) = 0%nat) →
  select_action node (Temp t) h u k = Raise ValueError.
Proof.
  intros Ht (a & c & Hin & Hc). unfold select_action.
  destruct (children (h !!! node)) as [|it items] eqn:Hitems;
    [inversion Hin |].
  destruct (Req_dec_T t 0) as [->|_]; [lra |].
  destruct (power_counts _ (1 / t)) as [dist|] eqn:Hd; [| reflexivity].
  exfalso. apply list_elem_of_lookup in Hin as [i Hi].
  destruct (power_counts_lookup _ _ _ Hd i 0%nat) as [x Hx].
  { change (map ?f ?l) with (f <$> l).
    now rewrite list_lookup_fmap, Hi; cbn; rewrite Hc. }
  unfold np_power in Hx.
  assert (He : 1 / t < 0).
  { unfold Rdiv. rewrite Rmult_1_l. now apply Rinv_lt_0_compat. }
  destruct (Req_dec_T (1 / t) 0) as [|_]; [lra |].
  destruct (Nat.eq_dec 0 0) as [_|]; [| contradiction].
  destruct (Rlt_dec 0 (1 / t)); [lra | discriminate].
Qed.

(** Visit counts [{0: 3, 1: 7, 2: 0}] at temperature [-1]. *)
Lemma select_action_negative_temperature_witness :
  select_action 0%nat (Temp (-1)) visited_tree (1 / 2) 0 = Raise ValueError.
Proof.
  apply (select_action_negative_temperature 0%nat (-1) visited_tree (1 / 2) 0).
  - lra.
  - exists 2%Z, 3%nat. split; [right; right; left | reflexivity].
Defined.

(** ** The level iterator *)

Section level_iterator.
Context {Name Data G : Type}.
Variable game_from_data : Name → data_type → Data → nat → G.
Variable rng_choice : nat → nat.
Variables (fd : list (Name * data_type * Data)) (r mq : Z).
Hypothesis Hfiles : (r < 0)%Z → fd ≠ [].

#[local] Abbreviation LI := (@LevelIterator Name Data G).
#[local] Abbreviation level := (level_at game_from_data rng_choice fd r).

Let inv (it : LI) (e : nat) : Prop :=
  self_file_data it = fd ∧ self_repeat it = r ∧ self_max_queue it = mq ∧
  self_spawned it = self_idx it ∧
  ((r < 0)%Z → self_draws it = self_idx it) ∧
  (e + length (self_results it) = self_idx it)%nat ∧
  ((0 <= r)%Z → (Z.of_nat (self_idx it) <= Z.of_nat (length fd) * r)%Z) ∧
  (Z.of_nat (length (self_results it)) <= mq)%Z ∧
  ∀ p, (p < length (self_results it))%nat →
       self_results it !! p = level (e + p)%nat.

Lemma fill_queue_spec (e fuel : nat) :
  ∀ it : LI,
    inv it e →
    (mq <= Z.of_nat (fuel + length (self_results it)))%Z →
    ∃ it', fill_queue game_from_data rng_choice fuel it = Ok it' ∧
           inv it' e ∧
           (Z.of_nat (length (self_results it')) = mq ∨
            ((0 <= r)%Z ∧
             Z.of_nat (self_idx it') = (Z.of_nat (length fd) * r)%Z)).
Proof.
  induction fuel as [|fuel IH];
    intros [fd0 r0 nw mq0 res idx sp dr]
           (Hfd & Hr & Hmq & Hsp & Hdr & He & Hle & Hq & Hres) Hfuel;
    cbn [self_file_data self_repeat self_max_queue self_spawned self_idx
         self_draws self_results] in *; subst fd0 r0 mq0 sp;
    cbn [fill_queue self_file_data self_repeat self_max_queue self_spawned
         self_idx self_draws self_results].
  - destruct (Z.ltb_spec (Z.of_nat (length res)) mq) as [Hlt|Hge]; [lia |].
    eexists. split; [reflexivity |]. split.
    + unfold inv. cbn. repeat (split; [assumption || reflexivity |]).
      exact Hres.
    + left. cbn. lia.
  - destruct (Z.ltb_spec (Z.of_nat (length res)) mq) as [Hlt|Hge].
    2:{ eexists. split; [reflexivity |]. split.
        - unfold inv. cbn. repeat (split; [assumption || reflexivity |]).
          exact Hres.
        - left. cbn. lia. }
    assert (Hstep : ∀ (pos : nat) (d : Name * data_type * Data) (dr' : nat),
      fd !! (pos mod length fd)%nat = Some d →
      pos = (if (r <? 0)%Z then rng_choice idx else idx) →
      ((r < 0)%Z → dr' = S idx) →
      ((0 <= r)%Z → (Z.of_nat idx < Z.of_nat (length fd) * r)%Z) →
      ∃ it',
        (let '(file_name, type, data) := d in
         fill_queue game_from_data rng_choice fuel
           {| self_file_data := fd; self_repeat := r;
              self_num_workers := nw; self_max_queue := mq;
              self_results :=
                res ++ [game_from_data file_name type data idx];
              self_idx := S idx; self_spawned := S idx;
              self_draws := dr' |}) = Ok it' ∧
        inv it' e ∧
        (Z.of_nat (length (self_results it')) = mq ∨
         ((0 <= r)%Z ∧
          Z.of_nat (self_idx it') = (Z.of_nat (length fd) * r)%Z))).
    { intros pos [[file_name type] data] dr' Hd Hpos Hdr' Hlim.
      apply IH.
      - unfold inv. cbn. rewrite length_app. cbn [length].
        split; [reflexivity |]. split; [reflexivity |].
        split; [reflexivity |]. split; [reflexivity |].
        split; [exact Hdr' |]. split; [lia |]. split; [lia |].
        split; [lia |].
        intros p Hp.
        destruct (decide (p < length res)%nat) as [Hlt'|Hge'].
        + rewrite lookup_app_l by exact Hlt'. now apply Hres.
        + assert (p = length res) as -> by lia.
          rewrite lookup_app_r by lia. rewrite Nat.sub_diag. cbn.
          unfold level_at. rewrite He, <- Hpos, Hd. reflexivity.
      - cbn. rewrite length_app. cbn [length]. lia. }
    destruct (Z.ltb_spec r 0) as [Hneg|Hpos].
    + destruct (lookup_lt_is_Some_2 fd (rng_choice dr mod length fd)%nat)
        as [d Hd].
      { apply Nat.mod_upper_bound. specialize (Hfiles Hneg).
        destruct fd; [contradiction | simpl; lia]. }
      rewrite Hd. cbn [mbind result_bind].
      rewrite (Hdr Hneg) in Hd.
      destruct (Hstep (rng_choice idx) d (S dr) Hd) as (it' & Hfill & Hinv);
        [reflexivity | intros _; now rewrite (Hdr Hneg) | lia |].
      exists it'. split; [| exact Hinv].
      destruct d as [[file_name type] data]. exact Hfill.
    + destruct (Z.leb_spec (Z.of_nat (length fd) * r) (Z.of_nat idx))
        as [Hstop|Hmore].
      * cbn [mbind result_bind]. eexists. split; [reflexivity |]. split.
        -- unfold inv. cbn. repeat (split; [assumption || reflexivity |]).
           exact Hres.
        -- right. split; [exact Hpos |]. cbn. specialize (Hle Hpos). lia.
      * destruct (lookup_lt_is_Some_2 fd (idx mod length fd)%nat) as [d Hd].
        { apply Nat.mod_upper_bound. destruct fd; [simpl in Hmore; lia |].
          simpl. lia. }
        rewrite Hd. cbn [mbind result_bind].
        destruct (Hstep idx d dr Hd) as (it' & Hfill & Hinv);
          [reflexivity | lia | intros _; exact Hmore |].
        exists it'. split; [| exact Hinv].
        destruct d as [[file_name type] data]. exact Hfill.
Qed.

Hypothesis Hmq : (1 <= mq)%Z.

Lemma next_yields (e fuel : nat) (it : LI) :
  inv it e → (mq <= Z.of_nat fuel)%Z →
  ((r < 0)%Z ∨ (Z.of_nat e < Z.of_nat (length fd) * r)%Z) →
  ∃ g it', next game_from_data rng_choice fuel it = Ok (Some g, it') ∧
           level e = Some g ∧ inv it' (S e).
Proof.
  intros Hinv Hfuel Hmore. unfold next.
  destruct (fill_queue_spec e fuel it Hinv ltac:(lia))
    as ([fd0 r0 nw mq0 res idx sp dr] & -> & Hinv1 & Hfull).
  cbn [mbind result_bind].
  destruct Hinv1 as (Hfd & Hr & Hmq0 & Hsp & Hdr & He & Hle & Hq & Hres).
  cbn [self_file_data self_repeat self_max_queue self_spawned self_idx
       self_draws self_results] in *.
  destruct res as [|g rest].
  { exfalso. cbn [length] in *. destruct Hfull as [Hfull|[Hpos Hfull]]; lia. }
  exists g. eexists. split; [reflexivity |]. split.
  - rewrite <- (Nat.add_0_r e). rewrite <- Hres by (simpl; lia). reflexivity.
  - unfold inv. cbn [self_file_data self_repeat self_max_queue self_spawned
                     self_idx self_draws self_results length] in *.
    repeat (split; [assumption || lia |]).
    intros p Hp. replace (S e + p)%nat with (e + S p)%nat by lia.
    rewrite <- Hres by lia. reflexivity.
Qed.

Lemma next_stops (e fuel : nat) (it : LI) :
  inv it e → (mq <= Z.of_nat fuel)%Z →
  (0 <= r)%Z → (Z.of_nat (length fd) * r <= Z.of_nat e)%Z →
  ∃ it', next game_from_data rng_choice fuel it = Ok (None, it') ∧
         inv it' e.
Proof.
  intros Hinv Hfuel Hpos Hdone. unfold next.
  destruct (fill_queue_spec e fuel it Hinv ltac:(lia))
    as (it1 & -> & Hinv1 & _).
  cbn [mbind result_bind].
  pose proof Hinv1 as (_ & _ & _ & _ & _ & He & Hle & _).
  specialize (Hle Hpos).
  destruct (self_results it1) as [|g rest] eqn:Hres.
  - exists it1. split; [reflexivity | exact Hinv1].
  - cbn [length] in He. lia.
Qed.

Lemma take_levels_spec (fuel : nat) :
  (mq <= Z.of_nat fuel)%Z →
  ∀ (k e : nat) (it : LI),
    inv it e →
    ∃ l it',
      take_levels game_from_data rng_choice k fuel it = Ok (l, it') ∧
      (length l =
         if (r <? 0)%Z then k
         else Nat.min k (length fd * Z.to_nat r - e))%nat ∧
      ∀ j, (j < length l)%nat → l !! j = level (e + j)%nat.
Proof.
  intros Hfuel. induction k as [|k IH]; intros e it Hinv.
  - exists [], it. split; [reflexivity |]. split.
    + destruct (r <? 0)%Z; simpl; lia.
    + intros j Hj. simpl in Hj. lia.
  - cbn [take_levels].
    destruct (Z.ltb_spec r 0) as [Hneg|Hpos].
    + destruct (next_yields e fuel it Hinv Hfuel ltac:(now left))
        as (g & it1 & -> & Hg & Hinv1).
      cbn [mbind result_bind].
      destruct (IH (S e) it1 Hinv1) as (l & it2 & -> & Hlen & Hl).
      cbn [mbind result_bind]. exists (g :: l), it2.
      split; [reflexivity |]. split; [simpl; lia |].
      intros [|j] Hj.
      * now rewrite Nat.add_0_r.
      * replace (e + S j)%nat with (S e + j)%nat by lia.
        apply Hl. simpl in Hj. lia.
    + destruct (decide (Z.of_nat e < Z.of_nat (length fd) * r)%Z)
        as [Hmore|Hdone].
      * destruct (next_yields e fuel it Hinv Hfuel ltac:(now right))
          as (g & it1 & -> & Hg & Hinv1).
        cbn [mbind result_bind].
        destruct (IH (S e) it1 Hinv1) as (l & it2 & -> & Hlen & Hl).
        cbn [mbind result_bind]. exists (g :: l), it2.
        split; [reflexivity |]. split.
        { cbn [length]. rewrite Hlen.
          assert (e < length fd * Z.to_nat r)%nat by nia. lia. }
        intros [|j] Hj.
        -- now rewrite Nat.add_0_r.
        -- replace (e + S j)%nat with (S e + j)%nat by lia.
           apply Hl. simpl in Hj. lia.
      * destruct (next_stops e fuel it Hinv Hfuel Hpos ltac:(lia))
          as (it1 & -> & Hinv1).
        cbn [mbind result_bind]. exists [], it1.
        split; [reflexivity |]. split.
        { cbn [length].
          assert (length fd * Z.to_nat r <= e)%nat by nia. lia. }
        intros j Hj. simpl in Hj. lia.
Qed.

Lemma fresh_iterator_inv (nw : Z) :
  inv {| self_file_data := fd; self_repeat := r; self_num_workers := nw;
         self_max_queue := mq; self_results := []; self_idx := 0;
         self_spawned := 0; self_draws := 0 |} 0.
Proof.
  unfold inv. cbn. repeat (split; [reflexivity || lia |]).
  intros p Hp. lia.
Qed.

Lemma fresh_iterator_levels (nw : Z) (fuel k : nat) :
  (mq <= Z.of_nat fuel)%Z →
  ∃ l it',
    take_levels game_from_data rng_choice k fuel
      {| self_file_data := fd; self_repeat := r; self_num_workers := nw;
         self_max_queue := mq; self_results := []; self_idx := 0;
         self_spawned := 0; self_draws := 0 |} = Ok (l, it') ∧
    (length l =
       if (r <? 0)%Z then k else Nat.min k (length fd * Z.to_nat r))%nat ∧
    ∀ j, (j < length l)%nat → l !! j = level j.
Proof.
  intros Hfuel.
  destruct (take_levels_spec fuel Hfuel k 0%nat _ (fresh_iterator_inv nw))
    as (l & it' & Htake & Hlen & Hl).
  exists l, it'. split; [exact Htake |]. split; [| exact Hl].
  rewrite Hlen. now rewrite Nat.sub_0_r.
Qed.
End level_iterator.

(** X14. An iterator made with an int [repeat >= 0], with any number of
    workers and, when there are workers, a queue of size [max_queue >= 1],
    serves exactly [len(file_data) * repeat] levels and then stops: the
    [j]-th level is made from the file [j % len(file_data)] with the
    [j]-th spawned seed.  Within these bounds neither the size of the
    queue nor the number of workers changes the levels or their order. *)
Theorem level_iterator_finite_repeat {Name Data G : Type}
    (game_from_data : Name → data_type → Data → nat → G)
    (rng_choice : nat → nat) (file_data : list (Name * data_type * Data))
    (repeat num_workers max_queue : Z) (fuel : nat) :
  (0 <= repeat)%Z →
  ((0 < num_workers)%Z → (1 <= max_queue <= Z.of_nat fuel)%Z) →
  (1 <= fuel)%nat →
  ∃ it,
    SafeLifeLevelIterator_init file_data (RepeatInt repeat) num_workers
      max_queue = Ok it ∧
    ∀ k, ∃ levels it',
      take_levels game_from_data rng_choice k fuel it = Ok (levels, it') ∧
      length levels = Nat.min k (length file_data * Z.to_nat repeat) ∧
      ∀ j, (j < length levels)%nat →
        ∃ file_name type data,
          file_data !! (j mod length file_data)%nat
            = Some (file_name, type, data) ∧
          levels !! j = Some (game_from_data file_name type data j).
Proof.
  intros Hrep Hqueue Hfuel. unfold SafeLifeLevelIterator_init.
  set (mq := if (0 <? num_workers)%Z then max_queue else 1%Z).
  assert (Hmq : (1 <= mq <= Z.of_nat fuel)%Z).
  { unfold mq. destruct (Z.ltb_spec 0 num_workers); [auto | lia]. }
  destruct (Z.ltb_spec mq 0); [lia |].
  eexists. split; [reflexivity |]. intros k.
  destruct (fresh_iterator_levels game_from_data rng_choice file_data repeat
              mq ltac:(lia) ltac:(lia) num_workers fuel k ltac:(lia))
    as (l & it' & Htake & Hlen & Hl).
  exists l, it'. split; [exact Htake |].
  destruct (Z.ltb_spec repeat 0); [lia |].
  split; [exact Hlen |]. intros j Hj. specialize (Hl j Hj).
  unfold level_at in Hl. destruct (Z.ltb_spec repeat 0); [lia |].
  destruct (file_data !! (j mod length file_data)%nat)
    as [[[file_name type] data]|] eqn:Hd.
  - now exists file_name, type, data.
  - apply lookup_ge_None in Hl. lia.
Qed.

(** Two files served twice, without workers. *)
Lemma level_iterator_finite_repeat_witness :
  ∃ it levels it',
    SafeLifeLevelIterator_init [(0%nat, Static, 10%nat); (1%nat, Static, 11%nat)]
      (RepeatInt 2) 0 10 = Ok it ∧
    take_levels (λ _ _ data seed, (data, seed)) (λ j, j) 5 1 it
      = Ok (levels, it') ∧
    length levels = 4%nat.
Proof.
  destruct (level_iterator_finite_repeat
              (λ (_ : nat) (_ : data_type) (data seed : nat), (data, seed))
              (λ j, j) [(0%nat, Static, 10%nat); (1%nat, Static, 11%nat)]
              2 0 10 1) as (it & Hinit & Hall).
  - lia.
  - lia.
  - lia.
  - destruct (Hall 5%nat) as (levels & it' & Htake & Hlen & _).
    exists it, levels, it'. split; [exact Hinit |].
    split; [exact Htake | exact Hlen].
Defined.

(** X15. An iterator over a non-empty [file_data], made with
    [repeat=True], or with [repeat="auto"] over a single file of
    generation parameters, and with a queue of size [max_queue >= 1] when
    there are workers, never stops: every call of [__next__] returns a
    level, the [j]-th one made from the file that the [j]-th random
    choice draws, with the [j]-th spawned seed. *)
Theorem level_iterator_repeats_forever {Name Data G : Type}
    (game_from_data : Name → data_type → Data → nat → G)
    (rng_choice : nat → nat) (file_data : list (Name * data_type * Data))
    (repeat : repeat_arg) (num_workers max_queue : Z) (fuel : nat) :
  file_data ≠ [] →
  repeat = RepeatBool true ∨
    (repeat = RepeatAuto ∧ ∃ file_name data,
       file_data = [(file_name, Procgen, data)]) →
  ((0 < num_workers)%Z → (1 <= max_queue <= Z.of_nat fuel)%Z) →
  (1 <= fuel)%nat →
  ∃ it,
    SafeLifeLevelIterator_init file_data repeat num_workers max_queue
      = Ok it ∧
    ∀ k, ∃ levels it',
      take_levels game_from_data rng_choice k fuel it = Ok (levels, it') ∧
      length levels = k ∧
      ∀ j, (j < k)%nat →
        ∃ file_name type data,
          file_data !! (rng_choice j mod length file_data)%nat
            = Some (file_name, type, data) ∧
          levels !! j = Some (game_from_data file_name type data j).
Proof.
  intros Hfiles Hrep Hqueue Hfuel. unfold SafeLifeLevelIterator_init.
  set (mq := if (0 <? num_workers)%Z then max_queue else 1%Z).
  assert (Hmq : (1 <= mq <= Z.of_nat fuel)%Z).
  { unfold mq. destruct (Z.ltb_spec 0 num_workers); [auto | lia]. }
  destruct (Z.ltb_spec mq 0); [lia |].
  set (r := match repeat with
            | RepeatAuto => _
            | RepeatBool b => _
            | RepeatInt n => n
            end).
  assert (Hr : r = (-1)%Z).
  { unfold r. destruct Hrep as [->|[-> (file_name & data & ->)]];
      reflexivity. }
  eexists. split; [reflexivity |]. intros k.
  destruct (fresh_iterator_levels game_from_data rng_choice file_data r
              mq ltac:(auto) ltac:(lia) num_workers fuel k ltac:(lia))
    as (l & it' & Htake & Hlen & Hl).
  exists l, it'. split; [exact Htake |].
  rewrite Hr in Hlen, Hl. cbn in Hlen.
  split; [exact Hlen |]. intros j Hj. rewrite <- Hlen in Hj.
  specialize (Hl j Hj). unfold level_at in Hl. cbn in Hl.
  destruct (file_data !! (rng_choice j mod length file_data)%nat)
    as [[[file_name type] data]|] eqn:Hd.
  - now exists file_name, type, data.
  - apply lookup_ge_None in Hl. lia.
Qed.

(** One file of parameters with the default [repeat]. *)
Lemma level_iterator_repeats_forever_witness :
  ∃ it levels it',
    SafeLifeLevelIterator_init [(0%nat, Procgen, 10%nat)] RepeatAuto 1 10
      = Ok it ∧
    take_levels (λ _ _ data seed, (data, seed)) (λ j, j) 5 10 it
      = Ok (levels, it') ∧
    length levels = 5%nat.
Proof.
  destruct (level_iterator_repeats_forever
              (λ (_ : nat) (_ : data_type) (data seed : nat), (data, seed))
              (λ j, j) [(0%nat, Procgen, 10%nat)] RepeatAuto 1 10 10)
    as (it & Hinit & Hall).
  - discriminate.
  - right. split; [reflexivity |]. now exists 0%nat, 10%nat.
  - lia.
  - lia.
  - destruct (Hall 5%nat) as (levels & it' & Htake & Hlen & _).
    exists it, levels, it'. split; [exact Hinit |].
    split; [exact Htake | exact Hlen].
Defined.

(** X16. An iterator made with [repeat=False], or with [repeat="auto"]
    over anything but a single file of generation parameters, serves no
    level at all: [-1 * False] is [0] repetitions, and the first call of
    [__next__] raises [StopIteration]. *)
Theorem level_iterator_without_repeat_is_empty {Name Data G : Type}
    (game_from_data : Name → data_type → Data → nat → G)
    (rng_choice : nat → nat) (file_data : list (Name * data_type * Data))
    (repeat : repeat_arg) (num_workers max_queue : Z) (fuel : nat) :
  repeat = RepeatBool false ∨
    (repeat = RepeatAuto ∧ ¬ ∃ file_name data,
       file_data = [(file_name, Procgen, data)]) →
  ((0 < num_workers)%Z → (0 <= max_queue)%Z) → (0 < fuel)%nat →
  ∃ it,
    SafeLifeLevelIterator_init file_data repeat num_workers max_queue
      = Ok it ∧
    next game_from_data rng_choice fuel it = Ok (None, it).
Proof.
  intros Hrep Hqueue Hfuel. unfold SafeLifeLevelIterator_init.
  set (mq := if (0 <? num_workers)%Z then max_queue else 1%Z).
  assert (Hmq : (0 <= mq)%Z).
  { unfold mq. destruct (Z.ltb_spec 0 num_workers); [auto | lia]. }
  destruct (Z.ltb_spec mq 0); [lia |].
  set (r := match repeat with
            | RepeatAuto => _
            | RepeatBool b => _
            | RepeatInt n => n
            end).
  assert (Hr : r = 0%Z).
  { unfold r. destruct Hrep as [->|[-> Hnot]]; [reflexivity |].
    destruct file_data as [|[[file_name [|]] data] [|]]; try reflexivity.
    exfalso. apply Hnot. now exists file_name, data. }
  rewrite Hr. eexists. split; [reflexivity |].
  unfold next. destruct fuel as [|fuel]; [lia |].
  cbn [fill_queue self_results self_max_queue self_repeat self_idx
       self_file_data length].
  destruct (Z.ltb_spec (Z.of_nat 0) mq) as [Hlt|Hge].
  - destruct (Z.ltb_spec 0 0); [lia |].
    destruct (Z.leb_spec (Z.of_nat (length file_data) * 0) (Z.of_nat 0));
      [| lia].
    reflexivity.
  - reflexivity.
Qed.

(** A directory of two saved levels with the default [repeat]. *)
Lemma level_iterator_without_repeat_is_empty_witness :
  ∃ it,
    SafeLifeLevelIterator_init [(0%nat, Static, 10%nat); (1%nat, Static, 11%nat)]
      RepeatAuto 1 10 = Ok it ∧
    next (λ _ _ data seed, (data, seed)) (λ j, j) 1 it = Ok (None, it).
Proof.
  apply (level_iterator_without_repeat_is_empty
           (λ (_ : nat) (_ : data_type) (data seed : nat), (data, seed))
           (λ j, j) [(0%nat, Static, 10%nat); (1%nat, Static, 11%nat)]
           RepeatAuto 1 10 1).
  - right. split; [reflexivity |]. intros (file_name & data & H).
    discriminate.
  - lia.
  - lia.
Defined.

(** ** Configurations that the search cannot run on *)

Lemma initial_tree_root (actions : list Z) (r0 : R) (logits : Z → R)
    (hid : tensor) (add_noise : bool) (noise : list R) (frac : R) :
  actions ≠ [] →
  let h0 := expand 0%nat actions r0 logits hid [Node_init 0] in
  let h1 := if add_noise then add_exploration_noise 0%nat noise frac h0
            else h0 in
  children (h1 !!! 0%nat) ≠ [].
Proof.
  intros Hactions h0 h1.
  assert (H0 : (0 < length [Node_init 0])%nat) by (simpl; lia).
  assert (Hroot0 : children (h0 !!! 0%nat) ≠ []).
  { unfold h0. rewrite expand_leaf_self by (exact H0 || reflexivity).
    cbn [children set_children].
    pose proof (first_occurrences_nonempty _ Hactions) as Hne.
    destruct (first_occurrences actions); [contradiction | discriminate]. }
  unfold h1. destruct add_noise; [| exact Hroot0].
  destruct (add_exploration_noise_shape 0%nat noise frac h0) as [_ Hsame].
  destruct (Hsame 0%nat) as [(-> & _) _]. exact Hroot0.
Qed.

(** X17. With [pb_c_base = 0] the search cannot score a child: as soon
    as one simulation is asked for, [run] raises [ZeroDivisionError] in
    the first [ucb_score]. *)
Theorem run_zero_pb_c_base (config : Config) (model : Model) (fuel : nat)
    (observation : tensor) (add_noise : bool) (noise : list R) :
  pb_c_base config = 0 → action_space config ≠ [] →
  (0 < num_simulations config)%nat → (0 < fuel)%nat →
  run config model fuel observation add_noise noise
  = Raise ZeroDivisionError.
Proof.
  intros Hbase Hactions Hn Hfuel. unfold run.
  destruct (initial_inference model observation) as [[[v0 r0] logits] hid].
  pose proof (initial_tree_root (action_space config) r0 logits hid add_noise
                noise (root_exploration_fraction config) Hactions) as Hroot.
  cbv zeta in Hroot.
  set (h1 := if add_noise then _ else _) in *.
  destruct (num_simulations config) as [|n]; [lia |].
  destruct fuel as [|fuel]; [lia |].
  cbn [simulations]. unfold simulate.
  cbn [descend tree stats]. rewrite (proj2 (expanded_true _) Hroot).
  unfold select_child.
  destruct (children (h1 !!! 0%nat)) as [|[a c] items]; [contradiction |].
  unfold ucb_score, py_div. rewrite Hbase.
  destruct (Req_dec_T 0 0) as [_|Hne]; [reflexivity | contradiction].
Qed.

(** The scenario with [pb_c_base = 0]. *)
Lemma run_zero_pb_c_base_witness :
  run {| action_space := [0; 1; 2]%Z; discount := 997 / 1000;
         max_moves := 3; num_simulations := 1; pb_c_base := 0;
         pb_c_init := 5 / 4; root_dirichlet_alpha := 1 / 4;
         root_exploration_fraction := 1 / 4 |}
      scenario_model 7 [] false []
  = Raise ZeroDivisionError.
Proof.
  apply run_zero_pb_c_base.
  - reflexivity.
  - discriminate.
  - simpl. lia.
  - lia.
Defined.

(** X18. With an empty action space the root gets no child, and as soon
    as one simulation is asked for [run] raises [IndexError]: the search
    path holds the root alone and has no [search_path[-2]]. *)
Theorem run_without_actions (config : Config) (model : Model) (fuel : nat)
    (observation : tensor) (noise : list R) :
  action_space config = [] → (0 < num_simulations config)%nat →
  run config model fuel observation false noise = Raise IndexError.
Proof.
  intros Has Hn. unfold run. rewrite Has.
  destruct (initial_inference model observation) as [[[v0 r0] logits] hid].
  destruct (num_simulations config) as [|n]; [lia |].
  destruct fuel; reflexivity.
Qed.

(** The scenario without actions. *)
Lemma run_without_actions_witness :
  run {| action_space := []; discount := 997 / 1000;
         max_moves := 3; num_simulations := 1; pb_c_base := 19652;
         pb_c_init := 5 / 4; root_dirichlet_alpha := 1 / 4;
         root_exploration_fraction := 1 / 4 |}
      scenario_model 7 [] false []
  = Raise IndexError.
Proof.
  apply run_without_actions.
  - reflexivity.
  - simpl. lia.
Defined.

(** ** The search paths *)

Lemma tree_path_mono (h h' : heap) (path : list ref) :
  (length h <= length h')%nat →
  (∀ j, (j < length h)%nat → children (h !!! j) ≠ [] →
        children (h' !!! j) = children (h !!! j)) →
  tree_path h path → tree_path h' path.
Proof.
  intros Hlen Hkeep (H0 & H2 & Hnd & Hall & Hadj).
  split; [exact H0 |]. split; [exact H2 |]. split; [exact Hnd |]. split.
  - eapply Forall_impl; [exact Hall |]. intros c Hc. simpl in Hc. lia.
  - intros k p c Hp Hc. destruct (Hadj k p c Hp Hc) as [a Ha].
    exists a. rewrite Hkeep; [exact Ha | |].
    + apply (proj1 (Forall_forall _ _) Hall).
      eapply list_elem_of_lookup_2. exact Hp.
    + intros Hnil. rewrite Hnil in Ha. inversion Ha.
Qed.

Section simulate_paths.
Variables (config : Config) (model : Model) (fuel : nat) (s : Search).
Hypothesis Hbase : 0 < pb_c_base config.
Hypothesis Hwf : tree_wf (action_space config) (tree s).
Hypothesis Hroot : children (tree s !!! 0%nat) ≠ [].
Hypothesis Hfuel : (length (tree s) <= fuel)%nat.

Lemma simulate_path :
  ∃ s' path v,
    simulate config model fuel 0%nat s = Ok s' ∧
    backprops s' = backprops s ++ [(path, v)] ∧
    tree_path (tree s') path ∧
    (length (tree s) <= length (tree s'))%nat ∧
    ∀ j, (j < length (tree s))%nat → children (tree s !!! j) ≠ [] →
         children (tree s' !!! j) = children (tree s !!! j).
Proof.
  pose proof (root_allocated _ Hroot) as Hlen.
  destruct (simulate_spec config model fuel s Hbase Hwf Hroot Hfuel)
    as (ext & leaf & a & parent & hid & Hrel & Hne & _ & _ & _ & Hsim).
  destruct (descent_bounds config (stats s) (tree s) Hbase Hwf _ _ _ _ _
              Hrel Hlen)
    as (Hall & Hleaf & Hnexp & _ & Hnotin & Hndext & _).
  destruct (descent_chain config (stats s) (tree s) Hbase Hwf _ _ _ _ _
              Hrel Hlen) as [_ Hadj].
  apply expanded_false in Hnexp.
  destruct (recurrent_inference model hid a) as [[[v r] logits] hid'].
  cbv zeta in Hsim.
  set (h := tree s) in *.
  set (h1 := expand leaf (action_space config) r logits hid' h) in *.
  set (path := 0%nat :: ext) in *.
  destruct (backpropagate_shape config path v (stats s) h1)
    as (Hblen & Hbsame & _).
  assert (Hl1 : length h1 = (length h
                  + length (first_occurrences (action_space config)))%nat).
  { exact (length_expand_leaf leaf _ r logits hid' h ltac:(lia)). }
  assert (Hkeep : ∀ j, (j < length h)%nat → children (h !!! j) ≠ [] →
            children ((backpropagate config path v (stats s) h1).1 !!! j)
            = children (h !!! j)).
  { intros j Hj Hch. destruct (Hbsame j) as [(-> & _) _].
    unfold h1. rewrite expand_lookup_old; [reflexivity | lia | exact Hj |].
    intros ->. contradiction. }
  eexists _, path, v. split; [exact Hsim |]. cbn [tree backprops].
  split; [reflexivity |]. split; [| split; [lia | exact Hkeep]].
  apply (tree_path_mono h); [lia | exact Hkeep |].
  split; [reflexivity |]. split.
  { unfold path. destruct ext; [contradiction | simpl; lia]. }
  split.
  { unfold path. apply NoDup_cons. split; [| exact Hndext].
    intros Hin. now apply Hnotin. }
  split.
  { unfold path. constructor; [exact Hlen |].
    eapply Forall_impl; [exact Hall |]. intros c Hc. simpl in Hc. lia. }
  intros k p c Hp Hc. destruct (Hadj k p c Hp Hc) as [_ Ha]. exact Ha.
Qed.
End simulate_paths.

Lemma simulations_paths (config : Config) (model : Model) (fuel n : nat) :
  0 < pb_c_base config →
  ∀ s,
    tree_wf (action_space config) (tree s) →
    children (tree s !!! 0%nat) ≠ [] →
    (length (tree s)
     + n * length (first_occurrences (action_space config)) <= fuel)%nat →
    Forall (λ pv, tree_path (tree s) pv.1) (backprops s) →
    ∃ s',
      simulations config model fuel 0%nat n s = Ok s' ∧
      Forall (λ pv, tree_path (tree s') pv.1) (backprops s').
Proof.
  intros Hbase.
  induction n as [|n IH]; intros s Hwf Hroot Hfuel Hpaths.
  - exists s. now split.
  - cbn [simulations]. rewrite Nat.mul_succ_l in Hfuel.
    destruct (simulate_post config model fuel s Hbase Hwf Hroot ltac:(lia))
      as (s1 & _ & _ & Hsim & Hwf1 & Hch1 & Hlen1 & _).
    destruct (simulate_path config model fuel s Hbase Hwf Hroot ltac:(lia))
      as (s1' & path & v & Hsim' & Hbp & Hpath & Hlen & Hkeep).
    rewrite Hsim in Hsim'. injection Hsim' as <-.
    rewrite Hsim. cbn [mbind result_bind].
    apply (IH s1 Hwf1); [congruence | lia |].
    rewrite Hbp. apply Forall_app. split.
    + eapply Forall_impl; [exact Hpaths |]. intros pv Hpv.
      now apply (tree_path_mono (tree s)).
    + constructor; [exact Hpath | constructor].
Qed.

(** X19. Every search path that [run] backpropagates is a path of the
    returned tree: it starts at the root, has at least two nodes and none
    twice, and each of its nodes is a child of the one before. *)
Theorem run_search_paths (config : Config) (model : Model) (fuel : nat)
    (observation : tensor) (add_noise : bool) (noise : list R) :
  0 < pb_c_base config →
  action_space config ≠ [] →
  (1 + (num_simulations config + 1) * length (action_space config)
   <= fuel)%nat →
  ∃ s,
    run config model fuel observation add_noise noise = Ok (0%nat, s) ∧
    Forall (λ pv, tree_path (tree s) pv.1) (backprops s).
Proof.
  intros Hbase Hactions Hfuel.
  destruct (run_root_visits config model fuel observation add_noise noise
              Hbase Hactions Hfuel) as (s & Hrun & _).
  exists s. split; [exact Hrun |].
  revert Hrun. unfold run.
  destruct (initial_inference model observation) as [[[v0 r0] logits] hid].
  pose proof (initial_tree_root (action_space config) r0 logits hid add_noise
                noise (root_exploration_fraction config) Hactions) as Hroot1.
  cbv zeta in Hroot1.
  set (h0 := expand 0%nat (action_space config) r0 logits hid [Node_init 0])
    in *.
  set (h1 := if add_noise then _ else _) in *.
  set (m := length (first_occurrences (action_space config))).
  assert (Hm : (m <= length (action_space config))%nat)
    by apply length_first_occurrences.
  assert (H0 : (0 < length [Node_init 0])%nat) by (simpl; lia).
  assert (Hwf0 : tree_wf (action_space config) h0).
  { apply expand_tree_wf; [exact H0 | reflexivity |].
    apply tree_wf_fresh_root. }
  assert (Hlen0 : length h0 = (1 + m)%nat).
  { unfold h0. rewrite length_expand_leaf by exact H0. reflexivity. }
  assert (H1 : length h1 = length h0 ∧
               ∀ j, same_links (h0 !!! j) (h1 !!! j)).
  { unfold h1. destruct add_noise.
    - destruct (add_exploration_noise_shape 0%nat noise
                  (root_exploration_fraction config) h0) as [Hl Hs].
      split; [exact Hl |]. intros j. apply Hs.
    - split; [reflexivity |]. intros j. apply same_links_refl. }
  destruct H1 as [Hlen1 Hsame1].
  assert (Hwf1 : tree_wf (action_space config) h1).
  { eapply tree_wf_same_links; [exact Hwf0 | exact Hlen1 | exact Hsame1]. }
  destruct (simulations_paths config model fuel (num_simulations config)
              Hbase
              {| tree := h1; stats := MinMaxStats_init; backprops := [] |}
              Hwf1 Hroot1) as (s' & -> & Hpaths).
  { cbn [tree]. rewrite Hlen1, Hlen0. fold m. nia. }
  { constructor. }
  cbn [mbind result_bind]. now intros [= <-].
Qed.

(** The scenario: one path, from the root to a child. *)
Lemma run_search_paths_witness :
  ∃ s,
    run scenario_config scenario_model 7 [] false [] = Ok (0%nat, s) ∧
    Forall (λ pv, tree_path (tree s) pv.1) (backprops s).
Proof.
  apply (run_search_paths scenario_config scenario_model 7 [] false []).
  - simpl. lra.
  - discriminate.
  - simpl. lia.
Defined.

(** * Expansion on floats *)

Lemma math_exp_in_range (x : R) :
  exp x < float_inf → math_exp x = Ok (float_exp x).
Proof.
  intros Hx. unfold math_exp, to_float, float_exp.
  destruct (Rle_dec float_inf (exp x)); [lra |].
  now destruct (Rle_dec (exp x) float_tiny).
Qed.

Lemma math_exp_overflow (x : R) :
  float_inf <= exp x → math_exp x = Raise OverflowError.
Proof.
  intros Hx. unfold math_exp. now rewrite to_float_overflow.
Qed.

Lemma float_exp_nonneg (x : R) : 0 <= float_exp x.
Proof.
  unfold float_exp. destruct (Rle_dec (exp x) float_tiny); [lra |].
  left. apply exp_pos.
Qed.

Lemma float_exp_in_range (x : R) :
  float_tiny < exp x → float_exp x = exp x.
Proof.
  intros Hx. unfold float_exp.
  destruct (Rle_dec (exp x) float_tiny); [lra | reflexivity].
Qed.

Section weights.
Variable w : Z → R.

Lemma weights_fold_inv (actions : list Z) (d : dict R) :
  Forall (λ x, x.2 = w x.1) d →
  let d' := fold_left (λ d a, dict_set a (w a) d) actions d in
  Forall (λ x, x.2 = w x.1) d' ∧
  keys d' =
    fold_left (λ acc a, if decide (a ∈ acc) then acc else acc ++ [a])
              actions (keys d).
Proof.
  revert d. induction actions as [|a actions IH]; intros d Hd; simpl.
  - now split.
  - destruct (IH (dict_set a (w a) d)) as [H1 H2].
    + apply Forall_forall. intros x Hx.
      apply elem_of_dict_set in Hx as [->|Hx]; [reflexivity |].
      revert x Hx. now apply Forall_forall.
    + split; [exact H1 |]. now rewrite H2, keys_dict_set.
Qed.

Lemma weights_dict_spec (actions : list Z) :
  keys (weights_dict w actions) = first_occurrences actions ∧
  weights_dict w actions = map (λ a, (a, w a)) (first_occurrences actions).
Proof.
  destruct (weights_fold_inv actions []) as [H1 H2]; [constructor |].
  fold (weights_dict w actions) in H1, H2.
  change (keys (weights_dict w actions) = first_occurrences actions) in H2.
  split; [exact H2 |]. rewrite <- H2. unfold keys. rewrite map_map.
  revert H1. generalize (weights_dict w actions). intros d Hd.
  induction Hd as [|[a p] d Hx _ IH]; [reflexivity |].
  cbn [map fst snd] in *. rewrite Hx. f_equal. exact IH.
Qed.

Lemma values_weights_dict (actions : list Z) :
  values (weights_dict w actions) = map w (first_occurrences actions).
Proof.
  destruct (weights_dict_spec actions) as [_ Heq]. rewrite Heq.
  unfold values. now rewrite map_map.
Qed.
End weights.

Lemma policy_of_float_fold (policy_logits : Z → R) (actions : list Z)
    (d : dict R) :
  (∀ a, a ∈ actions → exp (policy_logits a) < float_inf) →
  fold_left (λ (d : result (dict R)) a,
               d ← d;
               p ← math_exp (policy_logits a);
               Ok (dict_set a p d))
            actions (Ok d)
  = Ok (fold_left (λ d a, dict_set a (float_exp (policy_logits a)) d)
                  actions d).
Proof.
  revert d. induction actions as [|a actions IH]; intros d Hall;
    [reflexivity |].
  cbn [fold_left mbind result_bind].
  rewrite math_exp_in_range by (apply Hall; left).
  cbn [mbind result_bind]. apply IH. intros b Hb. apply Hall. now right.
Qed.

Lemma add_children_float (self : ref) (s : R) (policy : dict R) (h : heap) :
  s ≠ 0 →
  fold_left (add_child_float self (Some s)) policy (Ok h)
  = Ok (fold_left (add_child self s) policy h).
Proof.
  intros Hs. revert h. induction policy as [|[a p] policy IH]; intros h;
    [reflexivity |].
  cbn [fold_left]. unfold add_child_float at 2.
  cbn [mbind result_bind float_div fst snd]. unfold py_div.
  destruct (Req_dec_T s 0); [contradiction |].
  cbn [mbind result_bind]. now rewrite IH.
Qed.

Section expand_float_facts.
Variables (self : ref) (actions : list Z) (r : R) (policy_logits : Z → R)
          (hidden : tensor) (h : heap).
Hypothesis Hself : (self < length h)%nat.
Hypothesis Hactions : actions ≠ [].

Let acts := first_occurrences actions.
Let w (a : Z) : R := float_exp (policy_logits a).
Let denom := py_sum (map w acts).

Hypothesis Hexp : ∀ a, a ∈ actions → exp (policy_logits a) < float_inf.
Hypothesis Hdenom : 0 < denom < float_inf.

Lemma expand_float_closed :
  expand_float self actions r policy_logits hidden h =
  Ok (alter (λ n, set_children
                    (link_children (zip acts (seq (length h) (length acts)))
                                   (children n))
                    (set_hidden_state (Some hidden) (set_reward r n)))
            self
            (h ++ map (λ a, Node_init (w a / denom)) acts)).
Proof.
  unfold expand_float, policy_of_float.
  rewrite policy_of_float_fold by exact Hexp.
  change (fold_left (λ d a, dict_set a (float_exp (policy_logits a)) d)
                    actions [])
    with (weights_dict w actions).
  cbn [mbind result_bind].
  destruct (weights_dict_spec w actions) as [Hkeys Heq].
  unfold float_sum. rewrite values_weights_dict. fold acts. fold denom.
  destruct (Rle_dec float_inf denom); [lra |].
  rewrite add_children_float by lra.
  rewrite add_children_closed by (rewrite length_alter; exact Hself).
  rewrite Hkeys. fold acts. rewrite length_alter.
  replace (length (weights_dict w actions)) with (length acts)
    by (unfold acts; rewrite <- Hkeys; unfold keys; now rewrite length_map).
  rewrite Heq. fold acts. rewrite map_map. cbn [snd].
  rewrite <- alter_app_l by exact Hself.
  rewrite list_alter_alter_eq. reflexivity.
Qed.

Let h' :=
  alter (λ n, set_children
                (link_children (zip acts (seq (length h) (length acts)))
                               (children n))
                (set_hidden_state (Some hidden) (set_reward r n)))
        self
        (h ++ map (λ a, Node_init (w a / denom)) acts).

Lemma expand_float_new (i : nat) (a : Z) :
  acts !! i = Some a →
  dict_get a (children (h' !!! self)) = Some (length h + i)%nat ∧
  prior (h' !!! (length h + i)%nat) = w a / denom ∧
  0 <= w a / denom <= 1.
Proof.
  intros Hi. apply lookup_lt_Some in Hi as Hlt.
  destruct (first_occurrences_spec actions) as [Hnd _]. fold acts in Hnd.
  split; [| split].
  - unfold h'. rewrite list_lookup_total_alter_eq by (rewrite length_app; lia).
    rewrite lookup_total_app_l by exact Hself. cbn [children set_children].
    apply (dict_get_link_children _ _ _ i); [exact Hnd | exact Hi |].
    now rewrite lookup_seq_lt.
  - unfold h'. rewrite list_lookup_total_alter_ne by lia.
    rewrite lookup_total_app_r by lia.
    replace (length h + i - length h)%nat with i by lia.
    rewrite (list_lookup_total_correct _ _ (Node_init (w a / denom)));
      [reflexivity |].
    change (map ?f ?l) with (f <$> l). now rewrite list_lookup_fmap, Hi.
  - assert (Hnn : Forall (λ y, 0 <= y) (map w acts)).
    { apply Forall_forall. intros y Hy.
      apply list_elem_of_fmap in Hy as (b & -> & _). apply float_exp_nonneg. }
    assert (Hle : w a <= denom).
    { apply py_sum_le_elem; [exact Hnn |].
      apply list_elem_of_fmap. exists a. split; [reflexivity |].
      eapply list_elem_of_lookup_2. exact Hi. }
    pose proof (float_exp_nonneg (policy_logits a)) as Hw. fold (w a) in Hw.
    split.
    + apply Rmult_le_pos; [exact Hw |]. left. apply Rinv_0_lt_compat. lra.
    + apply (Rmult_le_reg_r denom); [lra |].
      unfold Rdiv. rewrite Rmult_assoc, Rinv_l by lra. lra.
Qed.

Lemma expand_float_priors :
  map (λ c, prior (h' !!! c)) (seq (length h) (length acts))
  = map (λ a, w a / denom) acts.
Proof.
  apply list_eq. intros i. change (map ?f ?l) with (f <$> l).
  rewrite !list_lookup_fmap.
  destruct (acts !! i) as [a|] eqn:Hi; simpl.
  - apply lookup_lt_Some in Hi as Hlt.
    rewrite lookup_seq_lt by exact Hlt. simpl. f_equal.
    now destruct (expand_float_new i a Hi) as (_ & -> & _).
  - apply lookup_ge_None in Hi.
    rewrite lookup_seq_ge by exact Hi. reflexivity.
Qed.

Lemma expand_float_sum :
  py_sum (map (λ c, prior (h' !!! c)) (seq (length h) (length acts))) = 1.
Proof.
  rewrite expand_float_priors.
  rewrite <- (map_map w (λ x, x / denom)), py_sum_scale. fold denom.
  unfold Rdiv. apply Rinv_r. lra.
Qed.

Lemma expand_float_length : length h' = (length h + length acts)%nat.
Proof. unfold h'. now rewrite length_alter, length_app, length_map. Qed.
End expand_float_facts.

(** C5. An expansion over a non-empty action list, on logits for which
    [math.exp] does not overflow, of which one at least has an
    exponential that is not [0.0], and whose exponentials have a finite
    sum: every new child gets the softmax weight of its action, the
    exponential (as [math.exp] gives it) of its logit over the sum of the
    exponentials of the (distinct) actions given.  Each such prior is in
    [[0,1]] and the priors of the new children add up to [1].  Where no
    exponential underflows, the weight is [exp(logit)] over the sum of
    [exp(logit)]. *)
Theorem expand_softmax (self : ref) (actions : list Z) (r : R)
    (policy_logits : Z → R) (hidden : tensor) (h : heap) :
  (self < length h)%nat → actions ≠ [] →
  let acts := first_occurrences actions in
  let w := λ a, float_exp (policy_logits a) in
  let denom := py_sum (map w acts) in
  (∀ a, a ∈ actions → exp (policy_logits a) < float_inf) →
  (∃ a, a ∈ actions ∧ float_tiny < exp (policy_logits a)) →
  denom < float_inf →
  NoDup acts ∧ (∀ a, a ∈ acts ↔ a ∈ actions) ∧
  ∃ h',
    expand_float self actions r policy_logits hidden h = Ok h' ∧
    length h' = (length h + length acts)%nat ∧
    (∀ i a, acts !! i = Some a →
       dict_get a (children (h' !!! self)) = Some (length h + i)%nat ∧
       prior (h' !!! (length h + i)%nat) = w a / denom ∧
       0 <= prior (h' !!! (length h + i)%nat) <= 1) ∧
    py_sum (map (λ c, prior (h' !!! c)) (seq (length h) (length acts))) = 1 ∧
    ((∀ a, a ∈ actions → float_tiny < exp (policy_logits a)) →
     ∀ i a, acts !! i = Some a →
       prior (h' !!! (length h + i)%nat)
       = exp (policy_logits a)
         / py_sum (map (λ a, exp (policy_logits a)) acts)).
Proof.
  intros Hself Hne acts w denom Hexp (a0 & Ha0 & Hpos0) Hfin.
  destruct (first_occurrences_spec actions) as [Hnd Hin].
  fold acts in Hnd, Hin.
  assert (Hdenom : 0 < denom < float_inf).
  { split; [| exact Hfin].
    assert (w a0 <= denom).
    { apply py_sum_le_elem.
      - apply Forall_forall. intros y Hy.
        apply list_elem_of_fmap in Hy as (b & -> & _). apply float_exp_nonneg.
      - apply list_elem_of_fmap. exists a0. split; [reflexivity |].
        now apply Hin. }
    unfold w in H. rewrite (float_exp_in_range _ Hpos0) in H.
    pose proof float_tiny_bounds. lra. }
  split; [exact Hnd |]. split; [exact Hin |].
  eexists. split.
  { exact (expand_float_closed self actions r policy_logits hidden h Hself
             Hexp Hdenom). }
  split.
  { exact (expand_float_length self actions r policy_logits hidden h). }
  split.
  { intros i a Hi.
    destruct (expand_float_new self actions r policy_logits hidden h Hself
                Hdenom i a Hi) as (Hget & Hprior & Hbounds).
    split; [exact Hget |]. split; [exact Hprior |].
    rewrite Hprior. exact Hbounds. }
  split.
  { exact (expand_float_sum self actions r policy_logits hidden h Hself
             Hdenom). }
  intros Hall i a Hi.
  destruct (expand_float_new self actions r policy_logits hidden h Hself
              Hdenom i a Hi) as (_ & -> & _).
  assert (Hw : ∀ b, b ∈ acts → w b = exp (policy_logits b)).
  { intros b Hb. apply float_exp_in_range, Hall. now apply Hin. }
  change (float_exp (policy_logits a)) with (w a).
  rewrite Hw by (eapply list_elem_of_lookup_2; exact Hi).
  f_equal. fold w. fold acts. f_equal. apply map_ext_in. intros b Hb.
  apply Hw. now apply list_elem_of_In.
Qed.

(** Without the conditions on the logits: when every logit is
    [-1000], every [math.exp] is [0.0] and the division raises; on a logit
    of [1000], [math.exp] raises.  No child is created. *)
Lemma expand_out_of_range :
  expand_float 0%nat [0; 1; 2]%Z 0 (λ _, - 1000) [] [Node_init 0]
  = Raise ZeroDivisionError ∧
  expand_float 0%nat [0; 1; 2]%Z 0 (λ _, 1000) [] [Node_init 0]
  = Raise OverflowError.
Proof.
  split.
  - unfold expand_float, policy_of_float.
    rewrite policy_of_float_fold.
    + assert (Hz : float_exp (- 1000) = 0).
      { unfold float_exp.
        destruct (Rle_dec (exp (- 1000)) float_tiny) as [_|Hn];
          [reflexivity |].
        contradiction Hn. exact exp_minus_1000_underflows. }
      cbn [fold_left dict_set]. rewrite Hz. cbn.
      unfold float_sum, py_sum. cbn [fold_left].
      destruct (Rle_dec float_inf (0 + 0 + 0 + 0)) as [Hle|_].
      { pose proof float_inf_gt_1. lra. }
      unfold add_child_float. cbn [mbind result_bind float_div fst snd].
      unfold py_div.
      destruct (Req_dec_T (0 + 0 + 0 + 0) 0) as [_|Hn]; [reflexivity | lra].
    + intros a _. pose proof exp_minus_1000_underflows.
      pose proof float_tiny_bounds. pose proof float_inf_gt_1. lra.
  - unfold expand_float, policy_of_float. cbn [fold_left mbind result_bind].
    rewrite (math_exp_overflow 1000 exp_1000_overflows). reflexivity.
Qed.

(** Three actions with the logits [0], [-1000] and [0]: the priors are
    [1/2], [0] and [1/2]. *)
Lemma expand_softmax_witness :
  ∃ h',
    expand_float 0%nat [0; 1; 2]%Z 0
      (λ a, if Z.eq_dec a 1 then - 1000 else 0) [] [Node_init 0] = Ok h' ∧
    py_sum (map (λ c, prior (h' !!! c)) (seq 1 3)) = 1.
Proof.
  assert (H0 : exp 0 = 1) by apply exp_0.
  pose proof float_tiny_bounds as Htiny.
  pose proof float_inf_gt_1 as Hinf.
  pose proof exp_minus_1000_underflows as Hunder.
  destruct (expand_softmax 0%nat [0; 1; 2]%Z 0
              (λ a, if Z.eq_dec a 1 then - 1000 else 0) [] [Node_init 0])
    as (_ & _ & h' & Hexp & _ & _ & Hsum & _).
  - simpl. lia.
  - discriminate.
  - intros a _. destruct (Z.eq_dec a 1); lra.
  - exists 0%Z. split; [left |]. cbn. lra.
  - change (py_sum [float_exp 0; float_exp (- 1000); float_exp 0]
            < float_inf).
    unfold float_exp.
    destruct (Rle_dec (exp 0) float_tiny); [lra |].
    destruct (Rle_dec (exp (- 1000)) float_tiny); [| lra].
    unfold py_sum. cbn [fold_left].
    pose proof (pow2_lt_float_inf 2 ltac:(lia)) as H2. simpl in H2. lra.
  - exists h'. split; [exact Hexp | exact Hsum].
Defined.

Lemma weights_dict_ext (w w' : Z → R) (actions : list Z) :
  (∀ a, a ∈ actions → w a = w' a) →
  weights_dict w actions = weights_dict w' actions.
Proof.
  unfold weights_dict. generalize ([] : dict R).
  induction actions as [|a actions IH]; intros d Hw; [reflexivity |].
  cbn [fold_left]. rewrite (Hw a) by left.
  apply IH. intros b Hb. apply Hw. now right.
Qed.

(** X20. On logits whose exponentials are all positive finite floats,
    with a finite sum, [Node.expand] with the float arithmetic raises
    nothing and builds the store of the expansion over the reals. *)
Theorem expand_float_agrees (self : ref) (actions : list Z) (r : R)
    (policy_logits : Z → R) (hidden : tensor) (h : heap) :
  actions ≠ [] →
  (∀ a, a ∈ actions → float_tiny < exp (policy_logits a) < float_inf) →
  py_sum (map (λ a, exp (policy_logits a)) (first_occurrences actions))
    < float_inf →
  expand_float self actions r policy_logits hidden h
  = Ok (expand self actions r policy_logits hidden h).
Proof.
  intros Hne Hrange Hsum. unfold expand_float, policy_of_float.
  rewrite policy_of_float_fold by (intros a Ha; apply Hrange, Ha).
  change (fold_left (λ d a, dict_set a (float_exp (policy_logits a)) d)
                    actions [])
    with (weights_dict (λ a, float_exp (policy_logits a)) actions).
  rewrite (weights_dict_ext _ (λ a, exp (policy_logits a)))
    by (intros a Ha; apply float_exp_in_range, Hrange, Ha).
  change (weights_dict (λ a, exp (policy_logits a)) actions)
    with (policy_of actions policy_logits).
  cbn [mbind result_bind]. unfold float_sum.
  rewrite values_policy_of, keys_policy_of.
  destruct (Rle_dec float_inf _) as [Hle|_]; [lra |].
  rewrite add_children_float.
  - unfold expand. now rewrite values_policy_of, keys_policy_of.
  - pose proof (policy_sum_pos policy_logits actions Hne) as Hpos.
    rewrite values_policy_of, keys_policy_of in Hpos. lra.
Qed.

(** Two actions with the logit [0]. *)
Lemma expand_float_agrees_witness :
  expand_float 0%nat [0; 1]%Z 0 (λ _, 0) [] [Node_init 0]
  = Ok (expand 0%nat [0; 1]%Z 0 (λ _, 0) [] [Node_init 0]).
Proof.
  pose proof float_tiny_bounds as Htiny.
  pose proof float_inf_gt_1 as Hinf.
  apply expand_float_agrees.
  - discriminate.
  - intros a _. rewrite exp_0. lra.
  - change (py_sum [exp 0; exp 0] < float_inf). rewrite exp_0.
    unfold py_sum. cbn [fold_left].
    pose proof (pow2_lt_float_inf 2 ltac:(lia)) as H2. simpl in H2. lra.
Defined.
